(** * Spectarr: title matching, multi-source resolution and scan parsing

    A shallow embedding of the entity-resolution pipeline of Spectarr
    (src/lib/metadata.ts, src/lib/tvdb.ts, src/lib/plex.ts,
    src/lib/scan-orchestrator.ts and the single-item edit route), with the
    properties of its specification stated and proved over the embedding.

    Modelling conventions.
    - A JavaScript string is a list of code units; the model covers code
      units below 256 (type [ascii], read as Latin-1).  [\s] and [trim] use
      the ECMAScript white-space set restricted to that range.
    - Similarity scores are IEEE doubles in the source; they are exact
      rationals ([Q]) here, computed by the operations of the source in
      the order of the source.  The rounding of the doubles is not
      modelled: two scores of the source that differ by rounding only are
      equal here.
    - [number] values that hold years or identifiers are integers, with
      [NaN] kept where [parseInt] can produce it.  The model is that of
      the source for integers up to [2^53 - 1], which a double holds
      exactly and [String] prints as plain digits; a longer run of digits
      is read exactly here and rounded by the source.
    - A JSON text with an escape [\uXXXX] above [\u00FF] is outside the
      modelled alphabet: [JSON_parse] rejects it.
    - Network calls are answers of an explicit [World]; the requests to
      the two catalogs are recorded in a trace so that "no request was
      made" can be stated.  The login of the supplemental catalog and the
      requests to the personal library are not recorded (see [request]). *)

From Stdlib Require Import ZArith QArith Qminmax Ascii String List Lia Bool.
From stdpp Require Import base option list gmap.

Set Default Proof Using "Type".
Local Open Scope Z_scope.

(** ** JavaScript strings *)

Module JS.

Definition jsstring := list ascii.

Definition js (s : string) : jsstring := list_ascii_of_string s.

Definition code (c : ascii) : N := N_of_ascii c.

Definition ascii_eqb (a b : ascii) : bool := N.eqb (code a) (code b).

Fixpoint str_eqb (a b : jsstring) : bool :=
  match a, b with
  | [], [] => true
  | x :: a', y :: b' => ascii_eqb x y && str_eqb a' b'
  | _, _ => false
  end.

(** WhiteSpace and LineTerminator code units below 256: TAB, LF, VT, FF,
    CR, SP and NBSP.  It is the set of both [\s] and [String.prototype.trim]. *)
Definition is_space (c : ascii) : bool :=
  let n := code c in
  ((9 <=? n) && (n <=? 13) || (n =? 32) || (n =? 160))%N.

(** [\d] *)
Definition is_digit (c : ascii) : bool :=
  let n := code c in ((48 <=? n) && (n <=? 57))%N.

(** The double quote character. *)
Definition dquote : ascii := ascii_of_N 34.

(** [[\s\S]] *)
Definition any_char (c : ascii) : bool := true.

(** [String.prototype.toLowerCase] on one code unit below 256. *)
Definition lower (c : ascii) : ascii :=
  let n := code c in
  if ((65 <=? n) && (n <=? 90))%N then ascii_of_N (n + 32)
  else if ((192 <=? n) && (n <=? 222) && negb (n =? 215))%N then ascii_of_N (n + 32)
  else c.

Definition toLowerCase (s : jsstring) : jsstring := map lower s.

Fixpoint trimStart (s : jsstring) : jsstring :=
  match s with
  | c :: s' => if is_space c then trimStart s' else s
  | [] => []
  end.

Definition trimEnd (s : jsstring) : jsstring := rev (trimStart (rev s)).

Definition trim (s : jsstring) : jsstring := trimEnd (trimStart s).

(** [s.slice(0, n)] for a non-negative [n]. *)
Definition slice0 (n : nat) (s : jsstring) : jsstring := firstn n s.

Fixpoint startsWith (p s : jsstring) : bool :=
  match p, s with
  | [], _ => true
  | x :: p', y :: s' => ascii_eqb x y && startsWith p' s'
  | _ :: _, [] => false
  end.

(** [s.includes(p)] *)
Fixpoint includes (s p : jsstring) : bool :=
  startsWith p s ||
  match s with
  | [] => false
  | _ :: s' => includes s' p
  end.

(** Truthiness of a string: the empty string is falsy. *)
Definition truthy_str (s : jsstring) : bool :=
  match s with [] => false | _ => true end.

(** Truthiness of [string | null | undefined]. *)
Definition truthy_ostr (o : option jsstring) : bool :=
  match o with Some s => truthy_str s | None => false end.

(** *** Numbers that come out of [parseInt] *)

Inductive jsnum := NaN | Num (z : Z).

Definition jsnum_eq_dec (a b : jsnum) : {a = b} + {a <> b}.
Proof. decide equality. apply Z.eq_dec. Defined.

(** Truthiness of a number: [0] and [NaN] are falsy. *)
Definition truthy_num (n : jsnum) : bool :=
  match n with NaN => false | Num z => negb (z =? 0) end.

Definition truthy_onum (o : option jsnum) : bool :=
  match o with Some n => truthy_num n | None => false end.

Definition digit_val (radix : N) (c : ascii) : option Z :=
  let n := code c in
  let v := if ((48 <=? n) && (n <=? 57))%N then Some (n - 48)%N
           else if ((97 <=? n) && (n <=? 122))%N then Some (n - 87)%N
           else if ((65 <=? n) && (n <=? 90))%N then Some (n - 55)%N
           else None in
  match v with
  | Some d => if (d <? radix)%N then Some (Z.of_N d) else None
  | None => None
  end.

(** Longest prefix of digits of the radix, accumulated left to right;
    [None] when there is no digit at all. *)
Fixpoint digits (radix : N) (acc : option Z) (s : jsstring) : option Z :=
  match s with
  | c :: s' =>
      match digit_val radix c with
      | Some d => digits radix (Some (Z.of_N radix * default 0 acc + d)) s'
      | None => acc
      end
  | [] => acc
  end.

(** [parseInt(s, radix)]: leading white space, an optional sign, an
    optional [0x] prefix when the radix is absent or 16, then digits.
    [radix = None] is the one-argument call.  The value is the exact
    integer; the source has the nearest double, which is the same number
    up to [2^53 - 1]. *)
Definition parseInt (s : jsstring) (radix : option N) : jsnum :=
  let s := trimStart s in
  let '(sign, s) :=
    match s with
    | c :: s' => if ascii_eqb c "-" then (-1, s')
                 else if ascii_eqb c "+" then (1, s') else (1, s)
    | [] => (1, s)
    end in
  let '(r, s) :=
    match radix, s with
    | None, z :: x :: s' =>
        if ascii_eqb z "0" && (ascii_eqb x "x" || ascii_eqb x "X")
        then (16%N, s') else (10%N, s)
    | None, _ => (10%N, s)
    | Some r, _ => (r, s)
    end in
  match digits r None s with
  | Some v => Num (sign * v)
  | None => NaN
  end.

End JS.
Export JS.

(** ** A backtracking matcher for the regular expressions of the source

    The constructors cover what the patterns of the source use: character
    classes, sequence, ordered alternation, greedy and lazy repetition of a
    class, the end anchor and one capture group.  Matching follows the
    ECMAScript backtracking order: alternatives left to right, a greedy
    repetition gives characters back one at a time, a lazy one takes them
    one at a time. *)

Module Regex.

Inductive regex :=
| Eps
| Never
| Cls (p : ascii -> bool)
| Seq (r1 r2 : regex)
| Alt (r1 r2 : regex)
| Star (p : ascii -> bool)
| LazyStar (p : ascii -> bool)
| Eol
| Cap (r : regex).

(** [r?], [p+], [r1 r2 ... rn] and [r1|...|rn] *)
Definition Opt (r : regex) : regex := Alt r Eps.
Definition Plus (p : ascii -> bool) : regex := Seq (Cls p) (Star p).
Definition seqs (rs : list regex) : regex := foldr Seq Eps rs.
Definition alts (rs : list regex) : regex := foldr Alt Never rs.

(** One literal character, and a literal word under the [i] flag. *)
Definition chr (c : ascii) : regex := Cls (ascii_eqb c).
Definition chr_i (c : ascii) : regex := Cls (fun x => ascii_eqb (lower x) (lower c)).
Definition lit_i (w : string) : regex := seqs (map chr_i (js w)).
Definition lit (w : string) : regex := seqs (map chr (js w)).

Section Matcher.
Context {A : Type}.

Fixpoint star_m (p : ascii -> bool) (s : jsstring)
         (k : jsstring -> option A) : option A :=
  match s with
  | c :: s' =>
      if p c then
        match star_m p s' k with
        | Some a => Some a
        | None => k s
        end
      else k s
  | [] => k []
  end.

Fixpoint lazy_m (p : ascii -> bool) (s : jsstring)
         (k : jsstring -> option A) : option A :=
  match k s with
  | Some a => Some a
  | None =>
      match s with
      | c :: s' => if p c then lazy_m p s' k else None
      | [] => None
      end
  end.

(** [rmatch r s c k]: match [r] at the head of [s] with capture [c] so
    far, then continue with [k] on the rest; [None] asks the caller to
    backtrack. *)
Fixpoint rmatch (r : regex) (s : jsstring) (c : option jsstring)
         (k : jsstring -> option jsstring -> option A) : option A :=
  match r with
  | Eps => k s c
  | Never => None
  | Cls p =>
      match s with
      | x :: s' => if p x then k s' c else None
      | [] => None
      end
  | Seq r1 r2 => rmatch r1 s c (fun s' c' => rmatch r2 s' c' k)
  | Alt r1 r2 =>
      match rmatch r1 s c k with
      | Some a => Some a
      | None => rmatch r2 s c k
      end
  | Star p => star_m p s (fun s' => k s' c)
  | LazyStar p => lazy_m p s (fun s' => k s' c)
  | Eol => match s with [] => k [] c | _ :: _ => None end
  | Cap r' =>
      rmatch r' s c
        (fun s' _ => k s' (Some (take (length s - length s') s)))
  end.
End Matcher.

(** A match: the text before it, capture group 1, the text after it. *)
Record rmatch_result := MatchAt {
  m_before : jsstring;
  m_group1 : option jsstring;
  m_after : jsstring
}.

Definition match_here (r : regex) (s : jsstring) : option rmatch_result :=
  rmatch r s None (fun s' c => Some (MatchAt [] c s')).

(** [s.match(r)] / the search of [s.replace(r, ..)] without the [g] flag:
    the leftmost start position that matches. *)
Fixpoint search (r : regex) (s : jsstring) : option rmatch_result :=
  match match_here r s with
  | Some m => Some m
  | None =>
      match s with
      | [] => None
      | x :: s' =>
          match search r s' with
          | Some m => Some (MatchAt (x :: m_before m) (m_group1 m) (m_after m))
          | None => None
          end
      end
  end.

(** [s.replace(r, '')] for a pattern without [^]. *)
Definition remove_first (r : regex) (s : jsstring) : jsstring :=
  match search r s with
  | Some m => m_before m ++ m_after m
  | None => s
  end.

(** [s.replace(/^r/, '')] *)
Definition remove_prefix (r : regex) (s : jsstring) : jsstring :=
  match match_here r s with
  | Some m => m_after m
  | None => s
  end.

End Regex.
Export Regex.

(** ** Title normalizer and similarity scorer (src/lib/metadata.ts) *)

Module Title.

(** *** Levenshtein distance

    The source fills an (m+1) x (n+1) table row by row; a row here is the
    list [dp[i][0..n]]. *)

(** Cells [dp[i][j..n]] from the cells [dp[i-1][j..n]] ([up]), with
    [diag = dp[i-1][j-1]] and [left = dp[i][j-1]]. *)
Fixpoint lev_cells (ai : ascii) (b : jsstring) (up : list nat)
         (diag left : nat) : list nat :=
  match b, up with
  | bj :: b', u :: up' =>
      let v := if ascii_eqb ai bj then diag
               else S (Nat.min u (Nat.min left diag)) in
      v :: lev_cells ai b' up' u v
  | _, _ => []
  end.

(** Row [i] from row [i-1]; [dp[i][0] = i]. *)
Definition lev_row (i : nat) (ai : ascii) (b : jsstring)
           (prev : list nat) : list nat :=
  match prev with
  | d0 :: up => i :: lev_cells ai b up d0 i
  | [] => []
  end.

Fixpoint lev_rows (i : nat) (a b : jsstring) (prev : list nat) : list nat :=
  match a with
  | [] => prev
  | ai :: a' => lev_rows (S i) a' b (lev_row (S i) ai b prev)
  end.

(** [dp[m][n]], starting from row 0 = [0; 1; ..; n]. *)
Definition levenshtein (a b : jsstring) : nat :=
  List.last (lev_rows 0 a b (seq 0 (S (length b)))) 0%nat.

Local Open Scope Q_scope.

Definition normalizedSimilarity (a b : jsstring) : Q :=
  if (length a =? 0)%nat && (length b =? 0)%nat then 1
  else
    let maxLen := Nat.max (length a) (length b) in
    if (maxLen =? 0)%nat then 1
    else 1 - (Z.of_nat (levenshtein a b) # Pos.of_nat maxLen).

(** *** Patterns *)

Definition sp : regex := Cls is_space.
Definition sp_star : regex := Star is_space.
Definition sp_plus : regex := Plus is_space.
Definition dg_plus : regex := Plus is_digit.
Definition sep : regex := Cls (fun c => ascii_eqb c "-" || ascii_eqb c ":").

Definition ordinal : regex :=
  alts (map lit_i ["first"; "second"; "third"; "fourth"; "fifth"; "sixth";
                   "seventh"; "eighth"; "ninth"; "tenth"]%string).

(** [/^(the|a|an)\s+/i] *)
Definition re_article : regex :=
  seqs [Cap (alts [lit_i "the"; lit_i "a"; lit_i "an"]); sp_plus].

Definition stripArticle (s : jsstring) : jsstring :=
  trim (remove_prefix re_article s).

(** [/\s*\((?:season|series|s)\s*\d+\)\s*$/i] *)
Definition re_paren : regex :=
  seqs [sp_star; chr "("; alts [lit_i "season"; lit_i "series"; lit_i "s"];
        sp_star; dg_plus; chr ")"; sp_star; Eol].

(** [(?:\d+|first|second|...|tenth)] *)
Definition number_or_ordinal : regex := Alt dg_plus ordinal.

(** [/\s*[-:]\s*(?:the\s+)?(?:complete\s+)?(?:season|series)\s+(?:\d+|first|...|tenth)\s*$/i] *)
Definition re_sep_season : regex :=
  seqs [sp_star; sep; sp_star;
        Opt (seqs [lit_i "the"; sp_plus]);
        Opt (seqs [lit_i "complete"; sp_plus]);
        alts [lit_i "season"; lit_i "series"]; sp_plus;
        number_or_ordinal; sp_star; Eol].

(** [/\s+(?:the\s+)?(?:complete\s+)?(?:season|series)\s+(?:\d+|first|...|tenth)\s*$/i] *)
Definition re_bare_season : regex :=
  seqs [sp_plus;
        Opt (seqs [lit_i "the"; sp_plus]);
        Opt (seqs [lit_i "complete"; sp_plus]);
        alts [lit_i "season"; lit_i "series"]; sp_plus;
        number_or_ordinal; sp_star; Eol].

(** [/\s*[-:]\s*s\d+\s*$/i] *)
Definition re_short : regex :=
  seqs [sp_star; sep; sp_star; lit_i "s"; dg_plus; sp_star; Eol].

(** [/\s*[-:]\s*(?:the\s+)?complete\s+series\s*$/i] *)
Definition re_complete_series : regex :=
  seqs [sp_star; sep; sp_star; Opt (seqs [lit_i "the"; sp_plus]);
        lit_i "complete"; sp_plus; lit_i "series"; sp_star; Eol].

(** [/\s*[-:]\s*(?:the\s+)?complete\s+(?:first|...|tenth|\d+(?:st|nd|rd|th)?)\s+season\s*$/i] *)
Definition re_complete_nth : regex :=
  seqs [sp_star; sep; sp_star; Opt (seqs [lit_i "the"; sp_plus]);
        lit_i "complete"; sp_plus;
        Alt ordinal
            (seqs [dg_plus;
                   Opt (alts [lit_i "st"; lit_i "nd"; lit_i "rd"; lit_i "th"])]);
        sp_plus; lit_i "season"; sp_star; Eol].

(** The six replacements of [stripSeasonSuffix], in source order. *)
Definition seasonPatterns : list regex :=
  [re_paren; re_sep_season; re_bare_season; re_short;
   re_complete_series; re_complete_nth].

Definition stripSeasonSuffix (s : jsstring) : jsstring :=
  let cleaned := remove_first re_paren s in
  let cleaned := remove_first re_sep_season cleaned in
  let cleaned := remove_first re_bare_season cleaned in
  let cleaned := remove_first re_short cleaned in
  let cleaned := remove_first re_complete_series cleaned in
  let cleaned := remove_first re_complete_nth cleaned in
  trim cleaned.

(** [/\s*\(\d{4}\)\s*$/] *)
Definition re_year_paren : regex :=
  seqs [sp_star; chr "("; Cls is_digit; Cls is_digit; Cls is_digit;
        Cls is_digit; chr ")"; sp_star; Eol].

Definition extractSeriesName (title : jsstring) : jsstring :=
  let name := stripSeasonSuffix title in
  let name := remove_first re_year_paren name in
  trim name.

(** [Math.max] and [Math.min] on scores. *)
Definition q_max (a b : Q) : Q := if Qle_bool b a then a else b.
Definition q_min (a b : Q) : Q := if Qle_bool a b then a else b.
Definition q_lt (a b : Q) : bool := negb (Qle_bool b a).

Definition computeTitleScore (queryTitle resultTitle : jsstring) : Q :=
  let t1 := stripArticle (toLowerCase queryTitle) in
  let t2 := stripArticle (toLowerCase resultTitle) in
  let rawScore := normalizedSimilarity t1 t2 in
  let t1Stripped := stripArticle (toLowerCase (stripSeasonSuffix queryTitle)) in
  let strippedScore := normalizedSimilarity t1Stripped t2 in
  q_max rawScore strippedScore.

Inductive Confidence := high | low | unmatched.

Definition Confidence_eq_dec (a b : Confidence) : {a = b} + {a <> b}.
Proof. decide equality. Defined.

Definition scoreToConfidence (score : Q) : Confidence :=
  if Qle_bool (85 # 100) score then high
  else if Qle_bool (50 # 100) score then low
  else unmatched.

End Title.
Export Title.

(** ** Effects: a trace of requests and exceptions *)

Module Effects.

Inductive ItemType := movie | tv | dvd | vinyl | game | other.

Definition ItemType_eq_dec (a b : ItemType) : {a = b} + {a <> b}.
Proof. decide equality. Defined.

Inductive TvdbKind := series | movie_kind.

(** The requests to the two catalogs that the trace records, with the
    query parameters that matter: a [year] of [None] means the parameter
    is not set.  Two kinds of request are not recorded: POST /login of the
    supplemental catalog, which [getToken] issues or not depending on a
    token cache shared by the concurrent tasks (its protocol is the
    subject of [TokenCache]), and the requests to the personal library. *)
Inductive request :=
| TmdbMovieGenres
| TmdbTVGenres
| TmdbSearchMovie (query : jsstring) (year : option Z)
| TmdbSearchTV (query : jsstring) (first_air_date_year : option Z)
| TmdbMovieDetails (tmdbId : Z)
| TmdbTVDetails (tmdbId : Z)
| TvdbSearch (query : jsstring) (kind : TvdbKind) (year : option Z)
| TvdbSearchRemoteId (remote_id : jsstring)
| TvdbRemoteIdPath (imdbId : jsstring).

Inductive res (A : Type) := Ok (a : A) | Throw (msg : string).
Arguments Ok {A} a.
Arguments Throw {A} msg.

(** A computation: the requests it issued, in program order, and how it
    ended. *)
Record M (A : Type) := MkM { trace : list request; outcome : res A }.
Arguments MkM {A} trace outcome.
Arguments trace {A} m.
Arguments outcome {A} m.

Definition ret {A} (a : A) : M A := MkM [] (Ok a).
Definition throw {A} (msg : string) : M A := MkM [] (Throw msg).

Definition bind {A B} (m : M A) (f : A -> M B) : M B :=
  match outcome m with
  | Ok a => MkM (trace m ++ trace (f a)) (outcome (f a))
  | Throw e => MkM (trace m) (Throw e)
  end.

Notation "x <- m ;; k" := (bind m (fun x => k))
  (at level 100, m at next level, right associativity).

(** [try { m } catch { h }] *)
Definition try_catch {A} (m : M A) (h : M A) : M A :=
  match outcome m with
  | Ok _ => m
  | Throw _ => MkM (trace m ++ trace h) (outcome h)
  end.

(** One entry of [Promise.allSettled]: never throws. *)
Definition settle {A} (m : M A) : M (res A) := MkM (trace m) (Ok (outcome m)).

Fixpoint mapM {A B} (f : A -> M B) (l : list A) : M (list B) :=
  match l with
  | [] => ret []
  | x :: l' => y <- f x ;; ys <- mapM f l' ;; ret (y :: ys)
  end.

(** The answer to one [fetch]: [FetchError] when [fetch] or
    [response.json()] rejects, [FetchNotOk] when [response.ok] is false. *)
Inductive Fetch (A : Type) := FetchError | FetchNotOk | FetchData (a : A).
Arguments FetchError {A}.
Arguments FetchNotOk {A}.
Arguments FetchData {A} a.

End Effects.
Export Effects.

(** ** Catalog records and the answers of the outside world *)

Module Catalog.

(** One movie search result.  Fields the source reads without a guard
    are optional here: the payload is unvalidated JSON. *)
Record TMDBMovieResult := {
  mr_id : Z;
  mr_title : option jsstring;
  mr_overview : option jsstring;
  mr_release_date : option jsstring;
  mr_poster_path : option jsstring;
  mr_genre_ids : option (list Z);
  mr_vote_average : option Q
}.

Record TMDBTVResult := {
  tr_id : Z;
  tr_name : option jsstring;
  tr_overview : option jsstring;
  tr_first_air_date : option jsstring;
  tr_poster_path : option jsstring;
  tr_genre_ids : option (list Z);
  tr_vote_average : option Q
}.

Record CrewMember := { job : jsstring; crew_name : jsstring }.

Record TMDBMovieDetails := {
  md_imdb_id : option jsstring;
  md_runtime : option Z;
  md_crew : option (list CrewMember)
}.

Record TMDBTVDetails := {
  td_imdb_id : option jsstring;
  td_number_of_seasons : option Z;
  td_status : option jsstring;
  td_networks : option (list jsstring);
  td_created_by : option (list jsstring)
}.

Record TVDBSearchResult := {
  sr_tvdb_id : option jsstring;
  sr_id : option jsstring;
  sr_objectID : option jsstring;
  sr_name : option jsstring;
  sr_type : option jsstring;
  sr_year : option jsstring;
  sr_primary_type : option jsstring
}.

(** The [id] of a nested series or movie record: a number or a string. *)
Inductive idval := IdNum (z : Z) | IdStr (s : jsstring).

Record RemoteIdResult := {
  rr_series : option idval;
  rr_movie : option idval
}.

Record PlexGuid := {
  g_imdbId : option jsstring;
  g_tmdbId : option jsstring;
  g_tvdbId : option jsstring
}.

Record PlexItem := {
  ratingKey : jsstring;
  plex_title : jsstring;
  plex_year : option Z;
  guids : PlexGuid
}.

Record World := {
  TMDB_API_KEY : option jsstring;
  TVDB_API_KEY : option jsstring;
  plexConfigured : bool;
  (** [genreCacheLoaded] when [enrichItems] is called *)
  genreCacheLoaded : bool;
  (** the genre cache as [loadGenreCache] leaves it *)
  genreCache : gmap Z jsstring;
  search_movie : jsstring -> option Z -> Fetch (option (list TMDBMovieResult));
  search_tv : jsstring -> option Z -> Fetch (option (list TMDBTVResult));
  movie_details : Z -> Fetch TMDBMovieDetails;
  tv_details : Z -> Fetch TMDBTVDetails;
  (** outcome of [getToken()] once the API key is known to be set *)
  tvdb_login : res jsstring;
  tvdb_search : jsstring -> TvdbKind -> option Z ->
                Fetch (option (list TVDBSearchResult));
  tvdb_search_remote_id : jsstring -> Fetch (option (list TVDBSearchResult));
  tvdb_remoteid_path : jsstring -> Fetch (option (list RemoteIdResult));
  (** outcome of [fetchAllPlexItems()] *)
  plex_items : res (list PlexItem)
}.

(** [!!process.env.X] *)
Definition configured (k : option jsstring) : bool := truthy_ostr k.

End Catalog.
Export Catalog.

(** ** Supplemental catalog adapter with scored title search
    (the TVDB module that imports [extractSeriesName]) *)

Module Tvdb.

Local Open Scope Q_scope.

Definition isTVDBConfigured (w : World) : bool := configured (TVDB_API_KEY w).

(** [getToken]: [getApiKey] throws when the key is unset; otherwise the
    cached or freshly requested token, or the login error.  The token
    cache is not modelled here: [tvdb_login] is what the call ends with,
    and the POST /login that a cold or expired cache issues is not part
    of the trace (see [request]).  [TokenCache.getToken] is the function
    with its cache. *)
Definition getToken (w : World) : M jsstring :=
  if configured (TVDB_API_KEY w) then MkM [] (tvdb_login w)
  else throw "TVDB_API_KEY environment variable is not configured".

(** [await fetch(..)] followed by the [response.ok] test and
    [await response.json()]: [None] stands for a response that is not ok. *)
Definition http {A} (req : request) (answer : Fetch A) : M (option A) :=
  MkM [req]
      match answer with
      | FetchError => Throw "fetch failed"
      | FetchNotOk => Ok None
      | FetchData a => Ok (Some a)
      end.

(** The text after the last dash, [None] when there is no dash
    ([lastIndexOf('-') < 0]). *)
Fixpoint after_last_dash (s : jsstring) : option jsstring :=
  match s with
  | [] => None
  | c :: s' =>
      match after_last_dash s' with
      | Some r => Some r
      | None => if ascii_eqb c "-" then Some s' else None
      end
  end.

(** [!isNaN(parsed) && parsed > 0] *)
Definition positive_id (n : jsnum) : option Z :=
  match n with
  | Num z => if (0 <? z)%Z then Some z else None
  | NaN => None
  end.

Definition numeric_part (s : jsstring) : jsstring :=
  match after_last_dash s with Some r => r | None => s end.

Definition extractTVDBId (result : TVDBSearchResult) : option Z :=
  let from_tvdb_id :=
    match sr_tvdb_id result with
    | Some s => if truthy_str s then positive_id (parseInt s (Some 10%N)) else None
    | None => None
    end in
  let from_id :=
    match sr_id result with
    | Some s => if truthy_str s
                then positive_id (parseInt (numeric_part s) (Some 10%N)) else None
    | None => None
    end in
  let from_objectID :=
    match sr_objectID result with
    | Some s => if truthy_str s
                then positive_id (parseInt (numeric_part s) (Some 10%N)) else None
    | None => None
    end in
  match from_tvdb_id with
  | Some z => Some z
  | None => match from_id with
            | Some z => Some z
            | None => from_objectID
            end
  end.

(** [resultYear === queryYear] where [queryYear] is truthy *)
Definition year_matches (queryYear : option jsnum) (resultYear : jsnum) : bool :=
  match queryYear, resultYear with
  | Some (Num y), Num r => (r =? y)%Z
  | _, _ => false
  end.

Definition scoreTVDBResult (queryTitle : jsstring) (queryYear : option jsnum)
           (result : TVDBSearchResult) : Q :=
  let q := stripArticle (trim (toLowerCase queryTitle)) in
  let r := stripArticle (trim (toLowerCase (default [] (sr_name result)))) in
  let score := normalizedSimilarity q r in
  let qStripped := stripArticle (trim (toLowerCase (extractSeriesName queryTitle))) in
  let score :=
    if negb (str_eqb qStripped q)
    then q_max score (normalizedSimilarity qStripped r)
    else score in
  if truthy_onum queryYear && truthy_ostr (sr_year result) then
    let resultYear := parseInt (default [] (sr_year result)) (Some 10%N) in
    if year_matches queryYear resultYear then q_min (score + (1 # 10)) 1
    else score
  else score.

(** The loop of [pickBestResult]: the running best candidate and score. *)
Definition pick_step (title : jsstring) (year : option jsnum)
           (acc : option TVDBSearchResult * Q) (result : TVDBSearchResult)
  : option TVDBSearchResult * Q :=
  let score := scoreTVDBResult title year result in
  if q_lt (snd acc) score then (Some result, score) else acc.

Definition pickBestResult (title : jsstring) (year : option jsnum)
           (results : list TVDBSearchResult) : option TVDBSearchResult :=
  match results with
  | [] => None
  | _ =>
      let '(bestResult, bestScore) :=
        fold_left (pick_step title year) results (None, 0) in
      if q_lt bestScore (5 # 10) then None else bestResult
  end.

(** [if (year) params.set('year', String(year))] *)
Definition year_param (year : option jsnum) : option Z :=
  match year with
  | Some (Num z) => if (z =? 0)%Z then None else Some z
  | _ => None
  end.

Definition searchTVDB (kind : TvdbKind) (w : World) (title : jsstring)
           (year : option jsnum) : M (option Z) :=
  try_catch
    (_token <- getToken w ;;
     response <- http (TvdbSearch title kind (year_param year))
                      (tvdb_search w title kind (year_param year)) ;;
     match response with
     | None => ret None
     | Some data =>
         let results := default [] data in
         match results with
         | [] => ret None
         | _ =>
             match pickBestResult title year results with
             | None => ret None
             | Some best => ret (extractTVDBId best)
             end
         end
     end)
    (ret None).

Definition searchTVDBSeries := searchTVDB series.
Definition searchTVDBMovie := searchTVDB movie_kind.

(** [(result.type ?? result.primary_type ?? '').toLowerCase()] *)
Definition result_type (r : TVDBSearchResult) : jsstring :=
  toLowerCase
    (match sr_type r with
     | Some t => t
     | None => default [] (sr_primary_type r)
     end).

(** First result of kind series or movie that carries an id. *)
Fixpoint first_typed (results : list TVDBSearchResult) : option (Z * TvdbKind) :=
  match results with
  | [] => None
  | result :: rest =>
      let resultType := result_type result in
      match extractTVDBId result with
      | Some tvdbId =>
          if str_eqb resultType (js "series") then Some (tvdbId, series)
          else if str_eqb resultType (js "movie") then Some (tvdbId, movie_kind)
          else first_typed rest
      | None => first_typed rest
      end
  end.

(** [typeof id === 'number' ? id : parseInt(String(id), 10)] *)
Definition nested_id (v : idval) : jsnum :=
  match v with
  | IdNum z => Num z
  | IdStr s => parseInt s (Some 10%N)
  end.

Fixpoint first_nested (results : list RemoteIdResult) : option (Z * TvdbKind) :=
  match results with
  | [] => None
  | result :: rest =>
      let from_series :=
        match rr_series result with
        | Some v => positive_id (nested_id v)
        | None => None
        end in
      let from_movie :=
        match rr_movie result with
        | Some v => positive_id (nested_id v)
        | None => None
        end in
      match from_series with
      | Some z => Some (z, series)
      | None =>
          match from_movie with
          | Some z => Some (z, movie_kind)
          | None => first_nested rest
          end
      end
  end.

(** Strategy 1 of [findTVDBByImdbId]: [/search?remote_id=..]. *)
Definition by_search (searchResults : list TVDBSearchResult)
  : option (Z * TvdbKind) :=
  match searchResults with
  | [] => None
  | first :: _ =>
      match first_typed searchResults with
      | Some hit => Some hit
      | None =>
          match extractTVDBId first with
          | Some tvdbId =>
              Some (tvdbId,
                    if str_eqb (result_type first) (js "movie")
                    then movie_kind else series)
          | None => None
          end
      end
  end.

Definition findTVDBByImdbId (w : World) (imdbId : jsstring)
  : M (option (Z * TvdbKind)) :=
  try_catch
    (_token <- getToken w ;;
     searchResponse <- http (TvdbSearchRemoteId imdbId)
                            (tvdb_search_remote_id w imdbId) ;;
     match
       match searchResponse with
       | Some searchData => by_search (default [] searchData)
       | None => None
       end
     with
     | Some hit => ret (Some hit)
     | None =>
         remoteIdResponse <- http (TvdbRemoteIdPath imdbId)
                                  (tvdb_remoteid_path w imdbId) ;;
         match remoteIdResponse with
         | None => ret None
         | Some remoteIdData => ret (first_nested (default [] remoteIdData))
         end
     end)
    (ret None).

Definition resolveTVDBId (w : World) (title : jsstring) (year : option jsnum)
           (imdbId : option jsstring) (type : ItemType) : M (option Z) :=
  if negb (isTVDBConfigured w) then ret None
  else
    direct <-
      (if truthy_ostr imdbId
       then findTVDBByImdbId w (default [] imdbId)
       else ret None) ;;
    match direct with
    | Some result => ret (Some (fst result))
    | None =>
        let searchTitle :=
          match type with tv => extractSeriesName title | _ => title end in
        match type with
        | tv =>
            tvdbId <- searchTVDBSeries w searchTitle year ;;
            match tvdbId with
            | None =>
                if negb (str_eqb searchTitle title)
                then searchTVDBSeries w title year
                else ret tvdbId
            | Some _ => ret tvdbId
            end
        | movie => searchTVDBMovie w title year
        | _ =>
            movieId <- searchTVDBMovie w title year ;;
            match movieId with
            | Some _ => ret movieId
            | None => searchTVDBSeries w title year
            end
        end
    end.

End Tvdb.

(** ** Supplemental catalog adapter, src/lib/tvdb.ts: exact name or first
    result, no scoring *)

Module TvdbLegacy.

Definition isTVDBConfigured := Tvdb.isTVDBConfigured.
Definition getToken := Tvdb.getToken.

(** [parseInt(r.tvdb_id, 10) || null]; an absent field is the string
    "undefined" to [parseInt]. *)
Definition id_or_null (tvdb_id : option jsstring) : option Z :=
  match parseInt (default (js "undefined") tvdb_id) (Some 10%N) with
  | Num z => if (z =? 0)%Z then None else Some z
  | NaN => None
  end.

(** [r.name?.toLowerCase().trim() === normalizedTitle] *)
Definition name_is (normalizedTitle : jsstring) (r : TVDBSearchResult) : bool :=
  match sr_name r with
  | Some n => str_eqb (trim (toLowerCase n)) normalizedTitle
  | None => false
  end.

Definition searchTVDB (kind : TvdbKind) (w : World) (title : jsstring)
           (year : option jsnum) : M (option Z) :=
  try_catch
    (_token <- getToken w ;;
     response <- Tvdb.http (TvdbSearch title kind (Tvdb.year_param year))
                           (tvdb_search w title kind (Tvdb.year_param year)) ;;
     match response with
     | None => ret None
     | Some data =>
         let results := default [] data in
         match results with
         | [] => ret None
         | first :: _ =>
             let normalizedTitle := trim (toLowerCase title) in
             match List.find (name_is normalizedTitle) results with
             | Some exactMatch => ret (id_or_null (sr_tvdb_id exactMatch))
             | None => ret (id_or_null (sr_tvdb_id first))
             end
         end
     end)
    (ret None).

Definition searchTVDBSeries := searchTVDB series.
Definition searchTVDBMovie := searchTVDB movie_kind.

Fixpoint first_nested (results : list RemoteIdResult) : option (idval * TvdbKind) :=
  match results with
  | [] => None
  | result :: rest =>
      match rr_series result with
      | Some v => Some (v, series)
      | None =>
          match rr_movie result with
          | Some v => Some (v, movie_kind)
          | None => first_nested rest
          end
      end
  end.

Definition findTVDBByImdbId (w : World) (imdbId : jsstring)
  : M (option (idval * TvdbKind)) :=
  try_catch
    (_token <- getToken w ;;
     response <- Tvdb.http (TvdbRemoteIdPath imdbId)
                           (tvdb_remoteid_path w imdbId) ;;
     match response with
     | None => ret None
     | Some data => ret (first_nested (default [] data))
     end)
    (ret None).

(** The result is the nested [id] as it came ([IdNum] for a title-search
    hit). *)
Definition resolveTVDBId (w : World) (title : jsstring) (year : option jsnum)
           (imdbId : option jsstring) (type : ItemType) : M (option idval) :=
  if negb (isTVDBConfigured w) then ret None
  else
    direct <-
      (if truthy_ostr imdbId
       then findTVDBByImdbId w (default [] imdbId)
       else ret None) ;;
    match direct with
    | Some result => ret (Some (fst result))
    | None =>
        match type with
        | tv =>
            tvdbId <- searchTVDBSeries w title year ;;
            ret (option_map IdNum tvdbId)
        | movie =>
            tvdbId <- searchTVDBMovie w title year ;;
            ret (option_map IdNum tvdbId)
        | _ =>
            movieId <- searchTVDBMovie w title year ;;
            match movieId with
            | Some z => ret (Some (IdNum z))
            | None =>
                seriesId <- searchTVDBSeries w title year ;;
                ret (option_map IdNum seriesId)
            end
        end
    end.

End TvdbLegacy.

(** ** Primary catalog matching and the resolver (src/lib/metadata.ts) *)

Module Metadata.

Local Open Scope Q_scope.

Inductive MetadataSource := tmdb | plex | none.

Definition MetadataSource_eq_dec (a b : MetadataSource) : {a = b} + {a <> b}.
Proof. decide equality. Defined.

(** Shape returned by the vision call; [year] is optional. *)
Record LLMIdentifiedItem := {
  llm_title : jsstring;
  llm_creator : jsstring;
  llm_type : ItemType;
  llm_year : option Z
}.

Record EnrichedItem := {
  title : jsstring;
  creator : jsstring;
  type : ItemType;
  confidence : Confidence;
  source : MetadataSource;
  tmdbId : option Z;
  imdbId : option jsstring;
  tvdbId : option Z;
  posterUrl : option jsstring;
  overview : option jsstring;
  rating : option Q;
  releaseDate : option jsstring;
  genres : option jsstring;
  year : option jsnum;
  director : option jsstring;
  runtime : option Z;
  network : option jsstring;
  seasons : option Z;
  showStatus : option jsstring;
  plexMatch : bool;
  plexRatingKey : option jsstring
}.

(** In-place field assignments of the source. *)
Definition set_tvdbId (v : option Z) (e : EnrichedItem) : EnrichedItem :=
  {| title := title e; creator := creator e; type := type e;
     confidence := confidence e; source := source e; tmdbId := tmdbId e;
     imdbId := imdbId e; tvdbId := v; posterUrl := posterUrl e;
     overview := overview e; rating := rating e; releaseDate := releaseDate e;
     genres := genres e; year := year e; director := director e;
     runtime := runtime e; network := network e; seasons := seasons e;
     showStatus := showStatus e; plexMatch := plexMatch e;
     plexRatingKey := plexRatingKey e |}.

Definition set_imdbId (v : option jsstring) (e : EnrichedItem) : EnrichedItem :=
  {| title := title e; creator := creator e; type := type e;
     confidence := confidence e; source := source e; tmdbId := tmdbId e;
     imdbId := v; tvdbId := tvdbId e; posterUrl := posterUrl e;
     overview := overview e; rating := rating e; releaseDate := releaseDate e;
     genres := genres e; year := year e; director := director e;
     runtime := runtime e; network := network e; seasons := seasons e;
     showStatus := showStatus e; plexMatch := plexMatch e;
     plexRatingKey := plexRatingKey e |}.

Definition set_plex (key : option jsstring) (e : EnrichedItem) : EnrichedItem :=
  {| title := title e; creator := creator e; type := type e;
     confidence := confidence e; source := source e; tmdbId := tmdbId e;
     imdbId := imdbId e; tvdbId := tvdbId e; posterUrl := posterUrl e;
     overview := overview e; rating := rating e; releaseDate := releaseDate e;
     genres := genres e; year := year e; director := director e;
     runtime := runtime e; network := network e; seasons := seasons e;
     showStatus := showStatus e; plexMatch := true;
     plexRatingKey := key |}.

Definition TMDB_IMAGE_BASE : jsstring := js "https://image.tmdb.org/t/p/w500".

Definition getTmdbApiKey (w : World) : M jsstring :=
  if configured (TMDB_API_KEY w) then ret (default [] (TMDB_API_KEY w))
  else throw "TMDB_API_KEY environment variable is not configured".

Definition isTMDBConfigured (w : World) : bool := configured (TMDB_API_KEY w).

(** [loadGenreCache]: nothing when the cache is loaded; otherwise the two
    genre lists are requested together ([Promise.all]) and whatever
    happens to them is caught.  The cache it leaves is [genreCache w]. *)
Definition loadGenreCache (w : World) : M unit :=
  if genreCacheLoaded w then ret tt
  else MkM [TmdbMovieGenres; TmdbTVGenres] (Ok tt).

(** [arr.join(', ')] *)
Fixpoint join (l : list jsstring) : jsstring :=
  match l with
  | [] => []
  | [x] => x
  | x :: l' => x ++ js ", " ++ join l'
  end.

(** [genreIds.map(id => genreCache.get(id)).filter(Boolean)] *)
Definition genre_names (w : World) (genreIds : list Z) : list jsstring :=
  omap (fun id => match genreCache w !! id with
                  | Some n => if truthy_str n then Some n else None
                  | None => None
                  end) genreIds.

Definition resolveGenres (w : World) (genreIds : option (list Z))
  : option jsstring :=
  match genreIds with
  | None | Some [] => None
  | Some ids =>
      match genre_names w ids with
      | [] => None
      | names => Some (join names)
      end
  end.

(** [if (year && year > 0) params.set(.., String(year))] *)
Definition year_filter (year : option Z) : option Z :=
  match year with
  | Some y => if negb (y =? 0)%Z && (0 <? y)%Z then Some y else None
  | None => None
  end.

(** [fetch] inside a [try] whose [catch] returns the fallback: only the
    data of an ok response counts. *)
Definition fetch_soft {A} (req : request) (answer : Fetch A) : M (option A) :=
  MkM [req] (Ok match answer with FetchData a => Some a | _ => None end).

Definition searchTMDBMovies (w : World) (title : jsstring) (year : option Z)
  : M (list TMDBMovieResult) :=
  data <- fetch_soft (TmdbSearchMovie title (year_filter year))
                     (search_movie w title (year_filter year)) ;;
  match data with
  | Some (Some results) => ret (firstn 5 results)
  | _ => ret []
  end.

Definition searchTMDBTV (w : World) (title : jsstring) (year : option Z)
  : M (list TMDBTVResult) :=
  data <- fetch_soft (TmdbSearchTV title (year_filter year))
                     (search_tv w title (year_filter year)) ;;
  match data with
  | Some (Some results) => ret (firstn 5 results)
  | _ => ret []
  end.

Definition getMovieDetails (w : World) (id : Z) : M (option TMDBMovieDetails) :=
  fetch_soft (TmdbMovieDetails id) (movie_details w id).

Definition getTVDetails (w : World) (id : Z) : M (option TMDBTVDetails) :=
  fetch_soft (TmdbTVDetails id) (tv_details w id).

Definition buildUnmatched (item : LLMIdentifiedItem) : EnrichedItem :=
  {| title := llm_title item;
     creator := llm_creator item;
     type := llm_type item;
     confidence := unmatched;
     source := none;
     tmdbId := None;
     imdbId := None;
     tvdbId := None;
     posterUrl := None;
     overview := None;
     rating := None;
     releaseDate := None;
     genres := None;
     year := option_map Num (llm_year item);
     director := None;
     runtime := None;
     network := None;
     seasons := None;
     showStatus := None;
     plexMatch := false;
     plexRatingKey := None |}.

(** *** Scoring the candidates *)

(** [date ? parseInt(date.slice(0, 4)) : 0] *)
Definition resultYearOf (date : option jsstring) : jsnum :=
  match date with
  | Some d => if truthy_str d then parseInt (slice0 4 d) None else Num 0
  | None => Num 0
  end.

(** [itemYear && resultYear === itemYear ? 0.1 : 0] *)
Definition yearBonus (itemYear : option Z) (resultYear : jsnum) : Q :=
  match itemYear, resultYear with
  | Some y, Num r => if negb (y =? 0)%Z && (r =? y)%Z then 1 # 10 else 0
  | _, _ => 0
  end.

(** The candidate year as the source logs it: [resultYear || null]. *)
Definition candidateYear (date : option jsstring) : option Z :=
  match resultYearOf date with
  | Num r => if (r =? 0)%Z then None else Some r
  | NaN => None
  end.

Section ScoreLoop.
(** The movie and TV loops differ only in the fields they read. *)
Context {C : Type} (name : C -> option jsstring) (date : C -> option jsstring).

(** [computeTitleScore(item.title, result.title)]: [toLowerCase] of an
    absent title is a TypeError. *)
Definition candidateScore (item : LLMIdentifiedItem) (result : C) : res Q :=
  match name result with
  | Some n => Ok (computeTitleScore (llm_title item) n)
  | None => Throw "TypeError: Cannot read properties of undefined (reading 'toLowerCase')"
  end.

Definition totalScore (item : LLMIdentifiedItem) (result : C) : res Q :=
  match candidateScore item result with
  | Ok score =>
      Ok (q_min (score + yearBonus (llm_year item) (resultYearOf (date result))) 1)
  | Throw e => Throw e
  end.

(** [for (const result of results) { .. if (totalScore > bestScore) .. }] *)
Fixpoint scoreLoop (item : LLMIdentifiedItem) (results : list C)
         (bestResult : option C) (bestScore : Q) : res (option C * Q) :=
  match results with
  | [] => Ok (bestResult, bestScore)
  | result :: rest =>
      match totalScore item result with
      | Ok t =>
          if q_lt bestScore t then scoreLoop item rest (Some result) t
          else scoreLoop item rest bestResult bestScore
      | Throw e => Throw e
      end
  end.
End ScoreLoop.

Definition lift {A} (r : res A) : M A := MkM [] r.

Definition director_of (details : option TMDBMovieDetails) : option jsstring :=
  match details with
  | Some d =>
      match md_crew d with
      | Some crew =>
          option_map crew_name
            (List.find (fun c => str_eqb (job c) (js "Director")) crew)
      | None => None
      end
  | None => None
  end.

(** [a || b] on strings *)
Definition or_else (a : option jsstring) (b : jsstring) : jsstring :=
  match a with
  | Some s => if truthy_str s then s else b
  | None => b
  end.

(** [date ? parseInt(date.slice(0, 4)) : null] *)
Definition yearOrNull (date : option jsstring) : option jsnum :=
  match date with
  | Some d => if truthy_str d then Some (parseInt (slice0 4 d) None) else None
  | None => None
  end.

Definition poster_of (path : option jsstring) : option jsstring :=
  match path with
  | Some p => if truthy_str p then Some (TMDB_IMAGE_BASE ++ p) else None
  | None => None
  end.

Definition enrichMovie (w : World) (item : LLMIdentifiedItem) : M EnrichedItem :=
  results <- searchTMDBMovies w (llm_title item) (llm_year item) ;;
  match results with
  | [] => ret (buildUnmatched item)
  | _ =>
      best <- lift (scoreLoop mr_title mr_release_date item results None 0) ;;
      match best with
      | (None, _) => ret (buildUnmatched item)
      | (Some bestResult, bestScore) =>
          let confidence := scoreToConfidence bestScore in
          match confidence with
          | unmatched => ret (buildUnmatched item)
          | _ =>
              details <- getMovieDetails w (mr_id bestResult) ;;
              let director := director_of details in
              let runtime := match details with Some d => md_runtime d | None => None end in
              let imdbId := match details with Some d => md_imdb_id d | None => None end in
              let releaseYear := yearOrNull (mr_release_date bestResult) in
              ret {| title := llm_title item;
                     creator := or_else director (llm_creator item);
                     type := movie;
                     confidence := confidence;
                     source := tmdb;
                     tmdbId := Some (mr_id bestResult);
                     imdbId := imdbId;
                     tvdbId := None;
                     posterUrl := poster_of (mr_poster_path bestResult);
                     overview := option_map (firstn 500) (mr_overview bestResult);
                     rating := mr_vote_average bestResult;
                     releaseDate := mr_release_date bestResult;
                     genres := resolveGenres w (mr_genre_ids bestResult);
                     year := releaseYear;
                     director := director;
                     runtime := runtime;
                     network := None;
                     seasons := None;
                     showStatus := None;
                     plexMatch := false;
                     plexRatingKey := None |}
          end
      end
  end.

Definition is_nil {A} (l : list A) : bool :=
  match l with [] => true | _ => false end.

(** [item.year && item.year > 0] *)
Definition has_year (year : option Z) : bool :=
  match year with
  | Some y => negb (y =? 0)%Z && (0 <? y)%Z
  | None => false
  end.

(** The up to three searches of [enrichTV]. *)
Definition searchTV (w : World) (item : LLMIdentifiedItem) : M (list TMDBTVResult) :=
  let seriesName := extractSeriesName (llm_title item) in
  let searchTitle :=
    if negb (str_eqb seriesName (llm_title item)) then seriesName
    else llm_title item in
  results <- searchTMDBTV w searchTitle (llm_year item) ;;
  results <-
    (if is_nil results && negb (str_eqb searchTitle (llm_title item))
     then searchTMDBTV w (llm_title item) (llm_year item)
     else ret results) ;;
  if is_nil results && has_year (llm_year item)
  then searchTMDBTV w searchTitle None
  else ret results.

Definition enrichTV (w : World) (item : LLMIdentifiedItem) : M EnrichedItem :=
  results <- searchTV w item ;;
  match results with
  | [] => ret (buildUnmatched item)
  | _ =>
      best <- lift (scoreLoop tr_name tr_first_air_date item results None 0) ;;
      match best with
      | (None, _) => ret (buildUnmatched item)
      | (Some bestResult, bestScore) =>
          let confidence := scoreToConfidence bestScore in
          match confidence with
          | unmatched => ret (buildUnmatched item)
          | _ =>
              details <- getTVDetails w (tr_id bestResult) ;;
              let imdbId := match details with Some d => td_imdb_id d | None => None end in
              let network :=
                match details with
                | Some d => match td_networks d with
                            | Some (n :: _) => Some n
                            | _ => None
                            end
                | None => None
                end in
              let seasons := match details with Some d => td_number_of_seasons d | None => None end in
              let showStatus := match details with Some d => td_status d | None => None end in
              let createdBy :=
                match details with
                | Some d => option_map join (td_created_by d)
                | None => None
                end in
              let firstAirYear := yearOrNull (tr_first_air_date bestResult) in
              ret {| title := llm_title item;
                     creator := or_else createdBy (llm_creator item);
                     type := tv;
                     confidence := confidence;
                     source := tmdb;
                     tmdbId := Some (tr_id bestResult);
                     imdbId := imdbId;
                     tvdbId := None;
                     posterUrl := poster_of (tr_poster_path bestResult);
                     overview := option_map (firstn 500) (tr_overview bestResult);
                     rating := tr_vote_average bestResult;
                     releaseDate := tr_first_air_date bestResult;
                     genres := resolveGenres w (tr_genre_ids bestResult);
                     year := firstAirYear;
                     director := None;
                     runtime := None;
                     network := network;
                     seasons := seasons;
                     showStatus := showStatus;
                     plexMatch := false;
                     plexRatingKey := None |}
          end
      end
  end.

Definition is_unmatched (c : Confidence) : bool :=
  match c with unmatched => true | _ => false end.

Definition enrichSingleItem (w : World) (item : LLMIdentifiedItem) : M EnrichedItem :=
  match llm_type item with
  | movie => enrichMovie w item
  | tv => enrichTV w item
  | dvd =>
      movieResult <- enrichMovie w item ;;
      if negb (is_unmatched (confidence movieResult)) then ret movieResult
      else
        tvResult <- enrichTV w item ;;
        if negb (is_unmatched (confidence tvResult)) then ret tvResult
        else ret (buildUnmatched item)
  | _ => ret (buildUnmatched item)
  end.

Section EnrichItems.
(** [resolveTVDBId] is imported from the TVDB module; either adapter
    can be plugged in. *)
Variable resolveTVDBId :
  World -> jsstring -> option jsnum -> option jsstring -> ItemType -> M (option Z).

(** [results.map((result, i) => ..)]: a rejected entry is replaced by
    [buildUnmatched(items[i])]; reading [items[i].title] of a missing
    entry would be a TypeError. *)
Definition settled_item (items : list LLMIdentifiedItem) (i : nat)
           (result : res EnrichedItem) : res EnrichedItem :=
  match result with
  | Ok value => Ok value
  | Throw _ =>
      match items !! i with
      | Some item => Ok (buildUnmatched item)
      | None => Throw "TypeError: Cannot read properties of undefined (reading 'title')"
      end
  end.

Fixpoint collect {A} (l : list (res A)) : res (list A) :=
  match l with
  | [] => Ok []
  | Ok a :: l' => match collect l' with
                  | Ok r => Ok (a :: r)
                  | Throw e => Throw e
                  end
  | Throw e :: _ => Throw e
  end.

(** One entry of the supplemental lookup: unmatched items resolve to
    [null] without a call. *)
Definition tvdb_lookup (w : World) (item : EnrichedItem) : M (res (option Z)) :=
  if is_unmatched (confidence item) then ret (Ok None)
  else settle (resolveTVDBId w (title item) (year item) (imdbId item) (type item)).

(** [for (let i = 0; i < enriched.length; i++) { .. enriched[i].tvdbId = .. }]
    over the indices [idxs]. *)
Fixpoint tvdb_assign (tvdbResults : list (res (option Z))) (idxs : list nat)
         (enriched : list EnrichedItem) : res (list EnrichedItem) :=
  match idxs with
  | [] => Ok enriched
  | i :: idxs' =>
      match tvdbResults !! i, enriched !! i with
      | Some (Ok (Some value)), Some e =>
          tvdb_assign tvdbResults idxs' (<[i := set_tvdbId (Some value) e]> enriched)
      | Some _, Some _ => tvdb_assign tvdbResults idxs' enriched
      | _, _ => Throw "TypeError: Cannot read properties of undefined"
      end
  end.

(** The per-item tasks run concurrently in the source; the trace lists
    their requests task by task, in item order. *)
Definition enrichItems (w : World) (items : list LLMIdentifiedItem)
           (tvdbApiKey : option jsstring) : M (list EnrichedItem) :=
  tmdbApiKey <- getTmdbApiKey w ;;
  _ <- loadGenreCache w ;;
  results <- mapM (fun item => settle (enrichSingleItem w item)) items ;;
  enriched <- lift (collect (imap (settled_item items) results)) ;;
  let effectiveTvdbKey :=
    truthy_ostr tvdbApiKey || Tvdb.isTVDBConfigured w in
  if effectiveTvdbKey then
    tvdbResults <- mapM (tvdb_lookup w) enriched ;;
    lift (tvdb_assign tvdbResults (seq 0 (length enriched)) enriched)
  else ret enriched.
End EnrichItems.

End Metadata.
Export Metadata.

(** ** Personal-library cross-reference (src/lib/plex.ts) *)

Module Plex.

Definition isPlexConfigured (w : World) : bool := plexConfigured w.

Definition fetchAllPlexItems (w : World) : M (list PlexItem) :=
  MkM [] (plex_items w).

(** [[a-z0-9\s]] *)
Definition keeps (c : ascii) : bool :=
  let n := code c in
  ((97 <=? n) && (n <=? 122) || (48 <=? n) && (n <=? 57))%N || is_space c.

(** [.replace(/\s+/g, ' ')]: every maximal run of white space becomes one
    space; [in_run] tells that the previous character was white space. *)
Fixpoint collapse_from (in_run : bool) (s : jsstring) : jsstring :=
  match s with
  | [] => []
  | c :: s' =>
      if is_space c then
        if in_run then collapse_from true s'
        else " "%char :: collapse_from true s'
      else c :: collapse_from false s'
  end.

Definition collapse (s : jsstring) : jsstring := collapse_from false s.

Definition normalizeTitle (title : jsstring) : jsstring :=
  trim (collapse (filter (fun c => keeps c = true) (toLowerCase title))).

Record PlexMatchResult := {
  matched : bool;
  pm_plexRatingKey : option jsstring;
  pm_imdbId : option jsstring;
  pm_tmdbId : option jsstring;
  pm_tvdbId : option jsstring
}.

(** [year && plexItem.year && Math.abs(year - plexItem.year) > 1] *)
Definition year_mismatch (year : option jsnum) (plexYear : option Z) : bool :=
  match year, plexYear with
  | Some (Num y), Some p =>
      negb (y =? 0) && negb (p =? 0) && (1 <? Z.abs (y - p))
  | _, _ => false
  end.

Definition found (plexItem : PlexItem) : PlexMatchResult :=
  {| matched := true;
     pm_plexRatingKey := Some (ratingKey plexItem);
     pm_imdbId := g_imdbId (guids plexItem);
     pm_tmdbId := g_tmdbId (guids plexItem);
     pm_tvdbId := g_tvdbId (guids plexItem) |}.

Definition not_found : PlexMatchResult :=
  {| matched := false; pm_plexRatingKey := None; pm_imdbId := None;
     pm_tmdbId := None; pm_tvdbId := None |}.

(** The [for (const plexItem of plexItems)] loop. *)
Fixpoint match_loop (normalizedQuery : jsstring) (year : option jsnum)
         (plexItems : list PlexItem) : PlexMatchResult :=
  match plexItems with
  | [] => not_found
  | plexItem :: rest =>
      let normalizedPlex := normalizeTitle (plex_title plexItem) in
      if str_eqb normalizedQuery normalizedPlex then
        if year_mismatch year (plex_year plexItem)
        then match_loop normalizedQuery year rest
        else found plexItem
      else if includes normalizedQuery normalizedPlex
              || includes normalizedPlex normalizedQuery then
        if year_mismatch year (plex_year plexItem)
        then match_loop normalizedQuery year rest
        else found plexItem
      else match_loop normalizedQuery year rest
  end.

Definition matchWithPlex (title : jsstring) (year : option jsnum)
           (plexItems : list PlexItem) : PlexMatchResult :=
  match_loop (normalizeTitle title) year plexItems.

End Plex.
Export Plex.

(** ** JSON values and [JSON.parse] *)

Module Json.

#[warnings="-register-all"]
Inductive json :=
| JNull
| JBool (b : bool)
| JNumber (q : Q)
| JString (s : jsstring)
| JArray (l : list json)
| JObject (fields : list (jsstring * json)).

(** [!!v] *)
Definition truthy (v : json) : bool :=
  match v with
  | JNull => false
  | JBool b => b
  | JNumber q => negb (Qeq_bool q 0)
  | JString s => truthy_str s
  | _ => true
  end.

(** JSON white space: TAB, LF, CR, SP. *)
Definition is_json_ws (c : ascii) : bool :=
  let n := code c in ((n =? 9) || (n =? 10) || (n =? 13) || (n =? 32))%N.

Fixpoint skip_ws (s : jsstring) : jsstring :=
  match s with
  | c :: s' => if is_json_ws c then skip_ws s' else s
  | [] => []
  end.

(** A later duplicate key replaces the value of the earlier one. *)
Fixpoint obj_set (k : jsstring) (v : json) (fields : list (jsstring * json))
  : list (jsstring * json) :=
  match fields with
  | [] => [(k, v)]
  | (k', v') :: rest =>
      if str_eqb k k' then (k', v) :: rest else (k', v') :: obj_set k v rest
  end.

Definition hex4 (a b c d : ascii) : option N :=
  match digit_val 16 a, digit_val 16 b, digit_val 16 c, digit_val 16 d with
  | Some x, Some y, Some z, Some t =>
      Some (Z.to_N (((x * 16 + y) * 16 + z) * 16 + t))
  | _, _, _, _ => None
  end.

(** The characters of a string literal after the opening quote.  An
    escape [\uXXXX] of a code unit above 255 is outside the modelled
    alphabet and rejected. *)
Fixpoint parse_string (s : jsstring) (acc : jsstring)
  : option (jsstring * jsstring) :=
  match s with
  | [] => None
  | c :: s' =>
      if ascii_eqb c dquote then Some (rev acc, s')
      else if ascii_eqb c "\" then
        match s' with
        | e :: s'' =>
            if ascii_eqb e dquote then parse_string s'' (dquote :: acc)
            else if ascii_eqb e "\" then parse_string s'' ("\"%char :: acc)
            else if ascii_eqb e "/" then parse_string s'' ("/"%char :: acc)
            else if ascii_eqb e "b" then parse_string s'' (ascii_of_N 8 :: acc)
            else if ascii_eqb e "f" then parse_string s'' (ascii_of_N 12 :: acc)
            else if ascii_eqb e "n" then parse_string s'' (ascii_of_N 10 :: acc)
            else if ascii_eqb e "r" then parse_string s'' (ascii_of_N 13 :: acc)
            else if ascii_eqb e "t" then parse_string s'' (ascii_of_N 9 :: acc)
            else if ascii_eqb e "u" then
              match s'' with
              | a :: b :: x :: y :: s3 =>
                  match hex4 a b x y with
                  | Some n => if (n <? 256)%N
                              then parse_string s3 (ascii_of_N n :: acc)
                              else None
                  | None => None
                  end
              | _ => None
              end
            else None
        | [] => None
        end
      else if (code c <? 32)%N then None
      else parse_string s' (c :: acc)
  end.

Fixpoint take_digits (s : jsstring) (acc : list ascii) : list ascii * jsstring :=
  match s with
  | c :: s' => if is_digit c then take_digits s' (c :: acc) else (rev acc, s)
  | [] => (rev acc, [])
  end.

Definition digits_value (ds : list ascii) : Z :=
  fold_left (fun a c => 10 * a + Z.of_N (code c - 48)) ds 0.

Local Open Scope Q_scope.

(** [-? int frac? exp?] *)
Definition parse_number (s : jsstring) : option (Q * jsstring) :=
  let '(neg, s) :=
    match s with
    | c :: s' => if ascii_eqb c "-" then (true, s') else (false, s)
    | [] => (false, s)
    end in
  let '(int, s) := take_digits s [] in
  match int with
  | [] => None
  | d0 :: more =>
      if ascii_eqb d0 "0" && negb (is_nil more) then None
      else
        let frac_part :=
          match s with
          | c :: s' =>
              if ascii_eqb c "." then
                let '(fr, s'') := take_digits s' [] in
                match fr with
                | [] => None
                | _ => Some (fr, s'')
                end
              else Some ([], s)
          | [] => Some ([], s)
          end in
        match frac_part with
        | None => None
        | Some (fr, s) =>
            let exp_part :=
              match s with
              | c :: s' =>
                  if ascii_eqb c "e" || ascii_eqb c "E" then
                    let '(eneg, s1) :=
                      match s' with
                      | g :: s2 =>
                          if ascii_eqb g "-" then (true, s2)
                          else if ascii_eqb g "+" then (false, s2)
                          else (false, s')
                      | [] => (false, s')
                      end in
                    let '(ex, s3) := take_digits s1 [] in
                    match ex with
                    | [] => None
                    | _ => Some (if eneg then (- digits_value ex)%Z
                                 else digits_value ex, s3)
                    end
                  else Some (0%Z, s)
              | [] => Some (0%Z, s)
              end in
            match exp_part with
            | None => None
            | Some (e, rest) =>
                let mant := digits_value (int ++ fr) in
                let scale := (e - Z.of_nat (length fr))%Z in
                let v := inject_Z mant * Qpower 10 scale in
                Some (Qred (if neg then - v else v), rest)
            end
        end
  end.

Fixpoint parse_value (fuel : nat) (s : jsstring) : option (json * jsstring) :=
  match fuel with
  | O => None
  | S f =>
      match skip_ws s with
      | [] => None
      | c :: r =>
          if ascii_eqb c "{" then
            match skip_ws r with
            | x :: r' =>
                if ascii_eqb x "}" then Some (JObject [], r')
                else parse_members f (skip_ws r) []
            | [] => None
            end
          else if ascii_eqb c "[" then
            match skip_ws r with
            | x :: r' =>
                if ascii_eqb x "]" then Some (JArray [], r')
                else parse_elements f (skip_ws r) []
            | [] => None
            end
          else if ascii_eqb c dquote then
            match parse_string r [] with
            | Some (str, rest) => Some (JString str, rest)
            | None => None
            end
          else if startsWith (js "true") (c :: r) then
            Some (JBool true, skipn 4 (c :: r))
          else if startsWith (js "false") (c :: r) then
            Some (JBool false, skipn 5 (c :: r))
          else if startsWith (js "null") (c :: r) then
            Some (JNull, skipn 4 (c :: r))
          else if ascii_eqb c "-" || is_digit c then
            match parse_number (c :: r) with
            | Some (q, rest) => Some (JNumber q, rest)
            | None => None
            end
          else None
      end
  end

with parse_elements (fuel : nat) (s : jsstring) (acc : list json)
  : option (json * jsstring) :=
  match fuel with
  | O => None
  | S f =>
      match parse_value f s with
      | Some (v, rest) =>
          match skip_ws rest with
          | c :: r =>
              if ascii_eqb c "," then parse_elements f r (v :: acc)
              else if ascii_eqb c "]" then Some (JArray (rev (v :: acc)), r)
              else None
          | [] => None
          end
      | None => None
      end
  end

with parse_members (fuel : nat) (s : jsstring) (acc : list (jsstring * json))
  : option (json * jsstring) :=
  match fuel with
  | O => None
  | S f =>
      match skip_ws s with
      | q :: r =>
          if ascii_eqb q dquote then
            match parse_string r [] with
            | Some (key, rest) =>
                match skip_ws rest with
                | c :: r1 =>
                    if ascii_eqb c ":" then
                      match parse_value f r1 with
                      | Some (v, rest') =>
                          match skip_ws rest' with
                          | d :: r2 =>
                              if ascii_eqb d "," then
                                parse_members f r2 (obj_set key v acc)
                              else if ascii_eqb d "}" then
                                Some (JObject (obj_set key v acc), r2)
                              else None
                          | [] => None
                          end
                      | None => None
                      end
                    else None
                | [] => None
                end
            | None => None
            end
          else None
      | [] => None
      end
  end.

(** [JSON.parse(text)]; [None] when it throws a SyntaxError. *)
Definition JSON_parse (text : jsstring) : option json :=
  match parse_value (2 * length text + 2) text with
  | Some (v, rest) =>
      match skip_ws rest with
      | [] => Some v
      | _ :: _ => None
      end
  | None => None
  end.

End Json.
Export Json.

(** ** Scan pipeline (src/lib/scan-orchestrator.ts) and the single-item
    edit route *)

Module Orchestrator.

(** [/```(?:json)?\s*([\s\S]*?)```/] *)
Definition re_fence : regex :=
  seqs [lit "```"; Opt (lit "json"); Star is_space;
        Cap (LazyStar any_char); lit "```"].

(** The result is [null] when both parses fail. *)
Definition tryParseJson (content : jsstring) : json :=
  match JSON_parse content with
  | Some v => v
  | None =>
      match search re_fence content with
      | Some fenceMatch =>
          match JSON_parse (trim (default [] (m_group1 fenceMatch))) with
          | Some v => v
          | None => JNull
          end
      | None => JNull
      end
  end.

Section Analyze.
(** [coerceItemTypes] followed by [LLMResponseSchema.safeParse]:
    the validated items, or [None] when validation fails. *)
Variable coerceAndValidate : json -> option (list LLMIdentifiedItem).

(** [response.choices[0]?.message?.content] of the call made at each
    attempt, or the error thrown by [callOpenRouter]. *)
Variable callOpenRouter : nat -> res (option jsstring).

(** What one iteration of the attempt loop does with the content:
    [Some items] is the [break], [None] a [continue]. *)
Definition parseAttempt (content : option jsstring)
  : option (list LLMIdentifiedItem) :=
  if negb (truthy_ostr content) then None
  else
    let parsed := tryParseJson (default [] content) in
    if negb (truthy parsed) then None
    else coerceAndValidate parsed.

(** [for (let attempt = 0; attempt < 2; attempt++)] with [remaining]
    iterations left; the result carries the number of LLM calls made. *)
Fixpoint attemptLoop (attempt remaining : nat)
  : res (option (list LLMIdentifiedItem) * nat) :=
  match remaining with
  | O => Ok (None, attempt)
  | S remaining' =>
      match callOpenRouter attempt with
      | Throw e => Throw e
      | Ok content =>
          match parseAttempt content with
          | Some llmItems => Ok (Some llmItems, S attempt)
          | None => attemptLoop (S attempt) remaining'
          end
      end
  end.

(** The analysis step of [runFullScan]: the validated items and the
    number of attempts consumed. *)
Definition analyze : res (list LLMIdentifiedItem * nat) :=
  match attemptLoop 0 2 with
  | Throw e => Throw e
  | Ok (Some llmItems, n) => Ok (llmItems, n)
  | Ok (None, _) => Throw "Failed to parse LLM response"
  end.
End Analyze.

(** [parseInt(s, 10) || null] *)
Definition int_or_null (s : jsstring) : option Z :=
  match parseInt s (Some 10%N) with
  | Num z => if z =? 0 then None else Some z
  | NaN => None
  end.

(** [!item.tvdbId] *)
Definition falsy_id (o : option Z) : bool :=
  match o with Some z => z =? 0 | None => true end.

(** The body of the Plex loop for one item. *)
Definition plexMerge (plexItems : list PlexItem) (item : EnrichedItem)
  : EnrichedItem :=
  let plexMatch := matchWithPlex (title item) (year item) plexItems in
  if matched plexMatch then
    let item := set_plex (pm_plexRatingKey plexMatch) item in
    let item :=
      if negb (truthy_ostr (imdbId item)) && truthy_ostr (pm_imdbId plexMatch)
      then set_imdbId (pm_imdbId plexMatch) item else item in
    if falsy_id (tvdbId item) && truthy_ostr (pm_tvdbId plexMatch)
    then set_tvdbId (int_or_null (default [] (pm_tvdbId plexMatch))) item
    else item
  else item.

(** [if (isPlexConfigured()) { try { .. } catch { .. } }] *)
Definition crossReference (w : World) (enriched : list EnrichedItem)
  : M (list EnrichedItem) :=
  if isPlexConfigured w then
    try_catch
      (plexItems <- fetchAllPlexItems w ;;
       ret (map (plexMerge plexItems) enriched))
      (ret enriched)
  else ret enriched.

(** The columns written for one item: the enriched fields and the raw
    vision output. *)
Record ScanItemRow := {
  row_item : EnrichedItem;
  rawTitle : jsstring;
  rawCreator : jsstring;
  rawType : ItemType;
  rawYear : option Z
}.

Definition save_row (llmItems : list LLMIdentifiedItem) (i : nat)
           (item : EnrichedItem) : res ScanItemRow :=
  match llmItems !! i with
  | Some raw =>
      Ok {| row_item := item; rawTitle := llm_title raw;
            rawCreator := llm_creator raw; rawType := llm_type raw;
            rawYear := llm_year raw |}
  | None => Throw "TypeError: Cannot read properties of undefined (reading 'title')"
  end.

Section WithTvdb.
Variable resolveTVDBId :
  World -> jsstring -> option jsnum -> option jsstring -> ItemType -> M (option Z).

(** The enriched items as they stand when the rows are written. *)
Definition enrichAndCrossReference (w : World) (llmItems : list LLMIdentifiedItem)
  : M (list EnrichedItem) :=
  enriched <- enrichItems resolveTVDBId w llmItems None ;;
  crossReference w enriched.

Definition enrichAndSaveItems (w : World) (llmItems : list LLMIdentifiedItem)
  : M (list ScanItemRow) :=
  enriched <- enrichAndCrossReference w llmItems ;;
  lift (collect (imap (save_row llmItems) enriched)).

(** *** PUT /api/scans/[id]/items/[itemId] *)

Inductive EditResponse :=
| MissingTitle
| NotFound
| Updated (row : ScanItemRow)
| InternalError.

(** The Plex step of the route, on the one re-enriched item. *)
Definition crossReferenceOne (w : World) (enrichedItem : EnrichedItem)
  : M EnrichedItem :=
  if isPlexConfigured w then
    try_catch
      (plexItems <- fetchAllPlexItems w ;;
       ret (plexMerge plexItems enrichedItem))
      (ret enrichedItem)
  else ret enrichedItem.

(** The [updates] object: every column is [enrichedItem?.x ?? fallback]. *)
Definition updates (title : jsstring) (creator : option jsstring)
           (item : ScanItemRow) (enrichedItem : option EnrichedItem)
  : EnrichedItem :=
  match enrichedItem with
  | Some e => e
  | None =>
      {| Metadata.title := title;
         Metadata.creator := default (Metadata.creator (row_item item)) creator;
         type := type (row_item item);
         confidence := confidence (row_item item);
         source := source (row_item item);
         tmdbId := None; imdbId := None; tvdbId := None; posterUrl := None;
         overview := None; rating := None; releaseDate := None;
         genres := None; year := None; director := None; runtime := None;
         network := None; seasons := None; showStatus := None;
         plexMatch := false; plexRatingKey := None |}
  end.

(** [title] and [creator] come from the request body, [existing] is the
    stored row if there is one. *)
Definition editItem (w : World) (title : option jsstring)
           (creator : option jsstring) (existing : option ScanItemRow)
  : M EditResponse :=
  if negb (truthy_ostr title) then ret MissingTitle
  else
    match existing with
    | None => ret NotFound
    | Some item =>
        let title := default [] title in
        let llmItem :=
          {| llm_title := title;
             llm_creator := default (Metadata.creator (row_item item)) creator;
             llm_type := Metadata.type (row_item item);
             llm_year := rawYear item |} in
        try_catch
          (enriched <- enrichItems resolveTVDBId w [llmItem] None ;;
           enrichedItem <-
             match enriched !! 0%nat with
             | Some e => e' <- crossReferenceOne w e ;; ret (Some e')
             | None => ret None
             end ;;
           ret (Updated
                  {| row_item := updates title creator item enrichedItem;
                     rawTitle := title;
                     rawCreator := default (rawCreator item) creator;
                     rawType := rawType item;
                     rawYear := rawYear item |}))
          (ret InternalError)
    end.
End WithTvdb.

End Orchestrator.
Export Orchestrator.

(** ** A sample world and sample items, used by the examples *)

Module Sample.

Local Open Scope Q_scope.

Definition inception : TMDBMovieResult :=
  {| mr_id := 27205;
     mr_title := Some (js "Inception");
     mr_overview := Some (js "A thief who steals corporate secrets.");
     mr_release_date := Some (js "2010-07-15");
     mr_poster_path := Some (js "/inception.jpg");
     mr_genre_ids := Some [28%Z; 878%Z];
     mr_vote_average := Some (83 # 10) |}.

Definition interception : TMDBMovieResult :=
  {| mr_id := 11;
     mr_title := Some (js "Interception");
     mr_overview := None;
     mr_release_date := Some (js "2009-01-01");
     mr_poster_path := None;
     mr_genre_ids := None;
     mr_vote_average := None |}.

Definition untitled : TMDBMovieResult :=
  {| mr_id := 12;
     mr_title := None;
     mr_overview := None;
     mr_release_date := None;
     mr_poster_path := None;
     mr_genre_ids := None;
     mr_vote_average := None |}.

Definition breakingBad : TMDBTVResult :=
  {| tr_id := 1396;
     tr_name := Some (js "Breaking Bad");
     tr_overview := Some (js "A chemistry teacher turns to crime.");
     tr_first_air_date := Some (js "2008-01-20");
     tr_poster_path := Some (js "/bb.jpg");
     tr_genre_ids := Some [18%Z];
     tr_vote_average := Some (89 # 10) |}.

Definition tvdbBreakingBad : TVDBSearchResult :=
  {| sr_tvdb_id := Some (js "81189");
     sr_id := Some (js "series-81189");
     sr_objectID := None;
     sr_name := Some (js "Breaking Bad");
     sr_type := Some (js "series");
     sr_year := Some (js "2008");
     sr_primary_type := None |}.

Definition tvdbUnrelated : TVDBSearchResult :=
  {| sr_tvdb_id := Some (js "999");
     sr_id := None;
     sr_objectID := None;
     sr_name := Some (js "Zoo Quest Documentary");
     sr_type := Some (js "series");
     sr_year := None;
     sr_primary_type := None |}.

Definition abbeyRoad : PlexItem :=
  {| ratingKey := js "4711";
     plex_title := js "Abbey Road";
     plex_year := Some 1969%Z;
     guids := {| g_imdbId := Some (js "tt0000001");
                 g_tmdbId := None;
                 g_tvdbId := Some (js "4242") |} |}.

Definition world : World :=
  {| TMDB_API_KEY := Some (js "tmdb-key");
     TVDB_API_KEY := Some (js "tvdb-key");
     plexConfigured := true;
     genreCacheLoaded := false;
     genreCache := {[ 18%Z := js "Drama"; 28%Z := js "Action";
                      878%Z := js "Science Fiction" ]};
     search_movie := fun q _ =>
       if str_eqb q (js "Inception") then FetchData (Some [interception; inception])
       else if str_eqb q (js "Broken") then FetchData (Some [untitled])
       else FetchData (Some []);
     search_tv := fun q _ =>
       if str_eqb q (js "Breaking Bad") then FetchData (Some [breakingBad])
       else FetchData (Some []);
     movie_details := fun _ =>
       FetchData {| md_imdb_id := Some (js "tt1375666");
                    md_runtime := Some 148%Z;
                    md_crew := Some [{| job := js "Director";
                                        crew_name := js "Christopher Nolan" |}] |};
     tv_details := fun _ =>
       FetchData {| td_imdb_id := Some (js "tt0903747");
                    td_number_of_seasons := Some 5%Z;
                    td_status := Some (js "Ended");
                    td_networks := Some [js "AMC"];
                    td_created_by := Some [js "Vince Gilligan"] |};
     tvdb_login := Ok (js "token");
     tvdb_search := fun q _ _ =>
       if str_eqb q (js "Breaking Bad") then FetchData (Some [tvdbBreakingBad])
       else if str_eqb q (js "Inception") then FetchData (Some [tvdbUnrelated])
       else FetchData (Some []);
     tvdb_search_remote_id := fun id =>
       if str_eqb id (js "tt0903747") then FetchData (Some [tvdbBreakingBad])
       else FetchData (Some []);
     tvdb_remoteid_path := fun _ => FetchData (Some []);
     plex_items := Ok [abbeyRoad] |}.

Definition item (t : string) (k : ItemType) (y : option Z) : LLMIdentifiedItem :=
  {| llm_title := js t; llm_creator := []; llm_type := k; llm_year := y |}.

(** A JSON string literal. *)
Definition quoted (s : string) : jsstring := dquote :: js s ++ [dquote].

Definition newline : jsstring := [ascii_of_N 10].

(** The JSON text of an answer without items. *)
Definition empty_payload : jsstring := js "{" ++ quoted "items" ++ js ":[]}".

(** The JSON text of an answer with one item whose title is three
    backticks. *)
Definition backtick_payload : jsstring :=
  js "{" ++ quoted "items" ++ js ":[{" ++ quoted "title" ++ js ":"
     ++ quoted "```" ++ js "," ++ quoted "creator" ++ js ":" ++ quoted ""
     ++ js "," ++ quoted "type" ++ js ":" ++ quoted "movie" ++ js "}]}".

End Sample.


From Stdlib Require DecimalString DecimalZ.

(** ** More of JavaScript's strings *)

Module Text.

(** [Number.MAX_SAFE_INTEGER] *)
Definition MAX_SAFE_INTEGER : Z := 2 ^ 53 - 1.

(** [String(n)] for an integer [n] of absolute value at most
    [MAX_SAFE_INTEGER]: its decimal digits.  (From [10^21] on the source
    prints an exponent, and above [2^53] not every integer is a number.) *)
Definition String_of_int (n : Z) : jsstring :=
  js (DecimalString.NilZero.string_of_int (Z.to_int n)).

(** The line feed. *)
Definition LF : ascii := ascii_of_N 10.

(** [s.split(c)] for a one-character separator: the pieces between the
    separators, at least one. *)
Fixpoint split (sep : ascii) (s : jsstring) : list jsstring :=
  match s with
  | [] => [[]]
  | c :: s' =>
      if ascii_eqb c sep then [] :: split sep s'
      else
        match split sep s' with
        | piece :: rest => (c :: piece) :: rest
        | [] => [[c]]
        end
  end.

(** [s.replace(/c/g, r)] for a one-character pattern. *)
Definition replaceAll (c : ascii) (r : jsstring) (s : jsstring) : jsstring :=
  flat_map (fun x => if ascii_eqb x c then r else [x]) s.

(** [s.replace(p, r)] for a string pattern: the first occurrence only. *)
Fixpoint replace (p r : jsstring) (s : jsstring) : jsstring :=
  if startsWith p s then r ++ skipn (length p) s
  else
    match s with
    | [] => []
    | c :: s' => c :: replace p r s'
    end.

(** [l.join(sep)] *)
Fixpoint join_with (sep : jsstring) (l : list jsstring) : jsstring :=
  match l with
  | [] => []
  | [x] => x
  | x :: l' => x ++ sep ++ join_with sep l'
  end.

End Text.
Export Text.

(** ** The token cache of the TVDB adapter *)

Module TokenCache.

(** [cachedToken] and [tokenExpiresAt]: the module state. *)
Record TokenState := {
  cachedToken : option jsstring;
  tokenExpiresAt : Z
}.

Definition initial : TokenState :=
  {| cachedToken := None; tokenExpiresAt := 0 |}.

Definition TOKEN_LIFETIME_MS : Z := 27 * 24 * 60 * 60 * 1000.

(** What one call does: the login requests it made, how it ended, and
    the module state it left. *)
Record Call := {
  logins : nat;
  result : res jsstring;
  state : TokenState
}.

(** [getToken()] called at time [now] (milliseconds) in state [st].
    [login] is the answer to POST /login, holding the field
    [data.token] of the body. *)
Definition getToken (apiKey : option jsstring) (now : Z)
           (login : Fetch (option jsstring)) (st : TokenState) : Call :=
  if negb (truthy_ostr apiKey) then
    {| logins := 0;
       result := Throw "TVDB_API_KEY environment variable is not configured";
       state := st |}
  else if truthy_ostr (cachedToken st) && (now <? tokenExpiresAt st) then
    {| logins := 0; result := Ok (default [] (cachedToken st)); state := st |}
  else
    match login with
    | FetchError =>
        {| logins := 1; result := Throw "fetch failed"; state := st |}
    | FetchNotOk =>
        {| logins := 1; result := Throw "TVDB login failed"; state := st |}
    | FetchData token =>
        if negb (truthy_ostr token) then
          {| logins := 1; result := Throw "TVDB login returned no token";
             state := st |}
        else
          {| logins := 1; result := Ok (default [] token);
             state := {| cachedToken := token;
                         tokenExpiresAt := now + TOKEN_LIFETIME_MS |} |}
    end.

(** [testTVDBConnection]: the [ok] flag of its answer. *)
Definition testTVDBConnection (apiKey : option jsstring) (now : Z)
           (login : Fetch (option jsstring)) (st : TokenState) : bool :=
  match result (getToken apiKey now login st) with
  | Ok token => truthy_str token
  | Throw _ => false
  end.

End TokenCache.

(** ** Coercion and validation of the vision model's answer
    (src/lib/scan-orchestrator.ts) *)

Module Coerce.

(** JavaScript values as [coerceItemTypes] sees them: what [JSON.parse]
    returns, and [undefined], which the coercion can store. *)
#[warnings="-register-all"]
Inductive value :=
| VUndefined
| VNull
| VBool (b : bool)
| VNumber (q : Q)
| VString (s : jsstring)
| VArray (l : list value)
| VObject (fields : list (jsstring * value)).

Fixpoint of_json (j : json) : value :=
  match j with
  | JNull => VNull
  | JBool b => VBool b
  | JNumber q => VNumber q
  | JString s => VString s
  | JArray l => VArray (map of_json l)
  | JObject fields => VObject (map (fun '(k, v) => (k, of_json v)) fields)
  end.

(** Own properties of an object, in insertion order. *)
Definition object := list (jsstring * value).

(** [k in o] *)
Fixpoint has (k : jsstring) (o : object) : bool :=
  match o with
  | [] => false
  | (k', _) :: rest => str_eqb k k' || has k rest
  end.

(** [o.k]: [undefined] when there is no such property. *)
Fixpoint get (k : jsstring) (o : object) : value :=
  match o with
  | [] => VUndefined
  | (k', v) :: rest => if str_eqb k k' then v else get k rest
  end.

(** [o.k = v] *)
Fixpoint set (k : jsstring) (v : value) (o : object) : object :=
  match o with
  | [] => [(k, v)]
  | (k', v') :: rest =>
      if str_eqb k k' then (k', v) :: rest else (k', v') :: set k v rest
  end.

(** [delete o.k] *)
Fixpoint delete (k : jsstring) (o : object) : object :=
  match o with
  | [] => []
  | (k', v) :: rest =>
      if str_eqb k k' then delete k rest else (k', v) :: delete k rest
  end.

(** [typeof v === 'string' && v === s] *)
Definition is_string (s : jsstring) (v : value) : bool :=
  match v with
  | VString t => str_eqb t s
  | _ => false
  end.

(** The body of [obj.items.map(..)] for one item.  An array is an object
    to [typeof], but has none of the properties read here. *)
Definition coerceItem (item : value) : value :=
  match item with
  | VObject i =>
      let i :=
        match get (js "type") i with
        | VString type =>
            let i := set (js "type") (VString (toLowerCase type)) i in
            if is_string (js "book") (get (js "type") i)
            then set (js "type") (VString (js "other")) i
            else i
        | _ => i
        end in
      let i :=
        if has (js "author") i && negb (has (js "creator") i)
        then delete (js "author") (set (js "creator") (get (js "author") i) i)
        else i in
      let i :=
        match get (js "year") i with
        | VString year =>
            match parseInt year None with
            | NaN => set (js "year") VUndefined i
            | Num parsed => set (js "year") (VNumber (inject_Z parsed)) i
            end
        | _ => i
        end in
      VObject i
  | _ => item
  end.

Definition coerceItemTypes (data : value) : value :=
  match data with
  | VObject obj =>
      match get (js "items") obj with
      | VArray items =>
          VObject (set (js "items") (VArray (map coerceItem items)) obj)
      | _ => data
      end
  | _ => data
  end.

(** *** The zod schemas *)

(** An item that passed [LLMItemSchema]; [year] is any number. *)
Record ParsedItem := {
  p_title : jsstring;
  p_creator : jsstring;
  p_type : ItemType;
  p_year : option Q
}.

(** [z.enum(['movie', 'tv', 'dvd', 'vinyl', 'game', 'other'])] *)
Definition ItemTypeSchema (v : value) : option ItemType :=
  match v with
  | VString s =>
      if str_eqb s (js "movie") then Some movie
      else if str_eqb s (js "tv") then Some tv
      else if str_eqb s (js "dvd") then Some dvd
      else if str_eqb s (js "vinyl") then Some vinyl
      else if str_eqb s (js "game") then Some game
      else if str_eqb s (js "other") then Some other
      else None
  | _ => None
  end.

(** [z.number().optional()]: [Some None] for [undefined]. *)
Definition optional_number (v : value) : option (option Q) :=
  match v with
  | VUndefined => Some None
  | VNumber q => Some (Some q)
  | _ => None
  end.

(** [z.object({ title: z.string().min(1), creator: z.string(),
    type: ItemTypeSchema, year: z.number().optional() })] *)
Definition LLMItemSchema (v : value) : option ParsedItem :=
  match v with
  | VObject i =>
      match get (js "title") i, get (js "creator") i,
            ItemTypeSchema (get (js "type") i),
            optional_number (get (js "year") i) with
      | VString title, VString creator, Some type, Some year =>
          if (1 <=? length title)%nat
          then Some {| p_title := title; p_creator := creator;
                       p_type := type; p_year := year |}
          else None
      | _, _, _, _ => None
      end
  | _ => None
  end.

(** Every element must pass. *)
Fixpoint all_items (l : list value) : option (list ParsedItem) :=
  match l with
  | [] => Some []
  | v :: l' =>
      match LLMItemSchema v, all_items l' with
      | Some item, Some items => Some (item :: items)
      | _, _ => None
      end
  end.

(** [z.object({ items: z.array(LLMItemSchema) })]: the [data] of a
    successful [safeParse], [None] when it fails. *)
Definition LLMResponseSchema (v : value) : option (list ParsedItem) :=
  match v with
  | VObject obj =>
      match get (js "items") obj with
      | VArray items => all_items items
      | _ => None
      end
  | _ => None
  end.

(** [LLMResponseSchema.safeParse(coerceItemTypes(parsed))] *)
Definition coerceAndValidate (parsed : json) : option (list ParsedItem) :=
  LLMResponseSchema (coerceItemTypes (of_json parsed)).

End Coerce.

(** ** CSV export (src/lib/export.ts) *)

Module CsvExport.

Definition escapeCsvField (value : option jsstring) : jsstring :=
  match value with
  | None => []
  | Some value =>
      let str := replaceAll LF (js " ") value in
      if includes str (js ",") || includes str [dquote] || includes str [LF]
      then [dquote] ++ replaceAll dquote [dquote; dquote] str ++ [dquote]
      else str
  end.

(** The columns of a stored item that the export reads. *)
Record ScanItemRow := {
  title : jsstring;
  creator : jsstring;
  type : jsstring;
  year : option Q;
  rating : option Q;
  genres : option jsstring;
  releaseDate : option jsstring;
  tmdbId : option Q;
  imdbId : option jsstring;
  tvdbId : option Q;
  confidence : jsstring;
  source : jsstring;
  plexMatch : bool;
  director : option jsstring;
  runtime : option Q;
  network : option jsstring;
  seasons : option Q;
  showStatus : option jsstring
}.

Definition headers : list jsstring :=
  map js ["title"; "creator"; "type"; "year"; "rating"; "genres";
          "releaseDate"; "tmdbId"; "imdbId"; "tvdbId"; "confidence"; "source";
          "plexMatch"; "director"; "runtime"; "network"; "seasons";
          "showStatus"]%string.

Section CsvText.
(** [String(x)] for a number: the export does not depend on how
    numbers are printed. *)
Variable String : Q -> jsstring.

(** [x != null ? String(x) : null] *)
Definition shown (x : option Q) : option jsstring := option_map String x.

Definition fields (item : ScanItemRow) : list jsstring :=
  [escapeCsvField (Some (title item));
   escapeCsvField (Some (creator item));
   escapeCsvField (Some (type item));
   escapeCsvField (shown (year item));
   escapeCsvField (shown (rating item));
   escapeCsvField (genres item);
   escapeCsvField (releaseDate item);
   escapeCsvField (shown (tmdbId item));
   escapeCsvField (imdbId item);
   escapeCsvField (shown (tvdbId item));
   escapeCsvField (Some (confidence item));
   escapeCsvField (Some (source item));
   escapeCsvField (Some (if plexMatch item then js "Yes" else js "No"));
   escapeCsvField (director item);
   escapeCsvField (shown (runtime item));
   escapeCsvField (network item);
   escapeCsvField (shown (seasons item));
   escapeCsvField (showStatus item)].

(** The text [csv] of [exportToCsv]; the blob is this text after a
    byte-order mark. *)
Definition csv (items : list ScanItemRow) : jsstring :=
  let rows := map (fun item => join_with (js ",") (fields item)) items in
  join_with [LF] (join_with (js ",") headers :: rows).
End CsvText.

End CsvExport.

(** ** Server-sent events (src/lib/sse.ts and the stream reader of the
    client) *)

Module Sse.

(** What [send(event, data)] enqueues, given the text
    [JSON.stringify(data)]. *)
Definition payload (event json_text : jsstring) : jsstring :=
  js "event: " ++ event ++ [LF] ++ js "data: " ++ json_text ++ [LF; LF].

Record SSEEvent := { event : jsstring; data : jsstring }.

(** The [for (const line of lines)] loop of [parseSSE]: what it yields. *)
Fixpoint scan_lines (lines : list jsstring) (currentEvent currentData : jsstring)
  : list SSEEvent :=
  match lines with
  | [] => []
  | line :: rest =>
      if startsWith (js "event: ") line then
        scan_lines rest (trim (skipn 7 line)) currentData
      else if startsWith (js "data: ") line then
        scan_lines rest currentEvent (trim (skipn 6 line))
      else if is_nil line && truthy_str currentEvent && truthy_str currentData
      then {| event := currentEvent; data := currentData |}
             :: scan_lines rest [] []
      else scan_lines rest currentEvent currentData
  end.

(** [parseSSE] on the chunks read before the stream ends, starting with
    [buffer]: everything it yields, in order.  The chunks are the decoded
    text of the byte chunks. *)
Fixpoint parseSSE (chunks : list jsstring) (buffer : jsstring) : list SSEEvent :=
  match chunks with
  | [] => []
  | value :: more =>
      let buffer := buffer ++ value in
      let lines := split LF buffer in
      let buffer := List.last lines [] in
      let lines := removelast lines in
      scan_lines lines [] [] ++ parseSSE more buffer
  end.

End Sse.

(** ** Log levels (src/lib/logger.ts) *)

Module Logger.

Inductive LogLevel := debug | info | warn | error | silent.

(** [LOG_LEVEL_PRIORITY] *)
Definition priority (l : LogLevel) : Z :=
  match l with
  | debug => 0
  | info => 1
  | warn => 2
  | error => 3
  | silent => 4
  end.

Definition level_of (s : jsstring) : option LogLevel :=
  if str_eqb s (js "debug") then Some debug
  else if str_eqb s (js "info") then Some info
  else if str_eqb s (js "warn") then Some warn
  else if str_eqb s (js "error") then Some error
  else if str_eqb s (js "silent") then Some silent
  else None.

(** What [getConfiguredLevel] returns: one of the five levels, or a
    lower-case property name that every object inherits, for which the
    [in] test holds as well. *)
Inductive Configured := Level (l : LogLevel) | Inherited (name : jsstring).

Definition inherited (s : jsstring) : bool :=
  str_eqb s (js "constructor") || str_eqb s (js "__proto__").

Definition getConfiguredLevel (LOG_LEVEL : option jsstring) : Configured :=
  match LOG_LEVEL with
  | None => Level silent
  | Some v =>
      let envLevel := toLowerCase v in
      if truthy_str envLevel then
        match level_of envLevel with
        | Some l => Level l
        | None => if inherited envLevel then Inherited envLevel else Level silent
        end
      else Level silent
  end.

(** [LOG_LEVEL_PRIORITY[messageLevel] >= LOG_LEVEL_PRIORITY[configuredLevel]];
    the priority of an inherited name is not a number, and the comparison
    is false. *)
Definition shouldLog (LOG_LEVEL : option jsstring) (messageLevel : LogLevel)
  : bool :=
  match getConfiguredLevel LOG_LEVEL with
  | Level configuredLevel => priority configuredLevel <=? priority messageLevel
  | Inherited _ => false
  end.

End Logger.

(** ** Identifiers of a library item (parseGuids, src/lib/plex.ts) *)

Module PlexGuids.

(** [o.k] for a parsed JSON object. *)
Fixpoint field (k : jsstring) (o : list (jsstring * json)) : option json :=
  match o with
  | [] => None
  | (k', v) :: rest => if str_eqb k k' then Some v else field k rest
  end.

Definition set_imdb (v : jsstring) (g : PlexGuid) : PlexGuid :=
  {| g_imdbId := Some v; g_tmdbId := g_tmdbId g; g_tvdbId := g_tvdbId g |}.
Definition set_tmdb (v : jsstring) (g : PlexGuid) : PlexGuid :=
  {| g_imdbId := g_imdbId g; g_tmdbId := Some v; g_tvdbId := g_tvdbId g |}.
Definition set_tvdb (v : jsstring) (g : PlexGuid) : PlexGuid :=
  {| g_imdbId := g_imdbId g; g_tmdbId := g_tmdbId g; g_tvdbId := Some v |}.

(** One entry [g] of the [Guid] array; reading [g.id] of [null] is a
    TypeError, and a primitive or an array has no [id]. *)
Definition guid_entry (guids : PlexGuid) (g : json) : res PlexGuid :=
  match g with
  | JNull => Throw "TypeError: Cannot read properties of null (reading 'id')"
  | JObject o =>
      match field (js "id") o with
      | Some (JString id) =>
          if startsWith (js "imdb://") id
          then Ok (set_imdb (replace (js "imdb://") [] id) guids)
          else if startsWith (js "tmdb://") id
          then Ok (set_tmdb (replace (js "tmdb://") [] id) guids)
          else if startsWith (js "tvdb://") id
          then Ok (set_tvdb (replace (js "tvdb://") [] id) guids)
          else Ok guids
      | _ => Ok guids
      end
  | _ => Ok guids
  end.

Fixpoint guid_entries (guids : PlexGuid) (guidArray : list json) : res PlexGuid :=
  match guidArray with
  | [] => Ok guids
  | g :: rest =>
      match guid_entry guids g with
      | Ok guids' => guid_entries guids' rest
      | Throw e => Throw e
      end
  end.

(** [[^?]] *)
Definition not_question (c : ascii) : bool := negb (ascii_eqb c "?").

(** [/scheme:\/\/([^?]+)/] *)
Definition re_legacy (scheme : string) : regex :=
  seqs [lit scheme; lit "://"; Cap (Plus not_question)].

(** [legacyGuid.match(re)] followed by [if (match) .. = match[1]] *)
Definition legacy_id (scheme : string) (legacyGuid : jsstring) : option jsstring :=
  match search (re_legacy scheme) legacyGuid with
  | Some m => m_group1 m
  | None => None
  end.

Definition no_guids : PlexGuid :=
  {| g_imdbId := None; g_tmdbId := None; g_tvdbId := None |}.

Definition parseGuids (item : list (jsstring * json)) : res PlexGuid :=
  match
    match field (js "Guid") item with
    | Some (JArray guidArray) => guid_entries no_guids guidArray
    | _ => Ok no_guids
    end
  with
  | Throw e => Throw e
  | Ok guids =>
      if negb (truthy_ostr (g_imdbId guids)) && negb (truthy_ostr (g_tmdbId guids))
      then
        match field (js "guid") item with
        | Some (JString legacyGuid) =>
            if includes legacyGuid (js "imdb://") then
              match legacy_id "imdb" legacyGuid with
              | Some id => Ok (set_imdb id guids)
              | None => Ok guids
              end
            else if includes legacyGuid (js "themoviedb://") then
              match legacy_id "themoviedb" legacyGuid with
              | Some id => Ok (set_tmdb id guids)
              | None => Ok guids
              end
            else if includes legacyGuid (js "thetvdb://") then
              match legacy_id "thetvdb" legacyGuid with
              | Some id => Ok (set_tvdb id guids)
              | None => Ok guids
              end
            else Ok guids
        | _ => Ok guids
        end
      else Ok guids
  end.

End PlexGuids.


(** * Vocabulary of the specification

    The predicates and the reference formulas in which the properties
    below are stated. *)

(** ** Best-match selection *)

(** [s] bounds every candidate total, and [b] is a candidate that
    attains it ([None]: nothing beat the initial score 0). *)
Definition is_best {C : Type} (name date : C -> option jsstring)
           (item : LLMIdentifiedItem) (results : list C)
           (b : option C) (s : Q) : Prop :=
  (forall c t, In c results -> totalScore name date item c = Ok t -> (t <= s)%Q) /\
  match b with
  | Some c => In c results /\ totalScore name date item c = Ok s /\ (0 < s)%Q
  | None => s = 0%Q
  end.

Section TieredMatch.
Local Open Scope Q_scope.

(** What the claim says of one matching path: the enriched item [e]
    produced from the candidates [results] with accessors [name],
    [date] and identifier [ident]. *)
Definition tiered_match {C} (name date : C -> option jsstring) (ident : C -> Z)
           (item : LLMIdentifiedItem) (results : list C) (e : EnrichedItem)
  : Prop :=
  exists b s,
    is_best name date item results b s /\
    confidence e = scoreToConfidence s /\
    (confidence e = high <-> 85 # 100 <= s) /\
    (confidence e = low <-> 50 # 100 <= s /\ s < 85 # 100) /\
    (confidence e = unmatched <-> s < 50 # 100) /\
    (s < 50 # 100 -> e = buildUnmatched item) /\
    (50 # 100 <= s ->
     exists c, b = Some c /\ tmdbId e = Some (ident c) /\ source e = tmdb).

End TieredMatch.

(** ** Normalized titles and the year bonus *)

Section TitleScoreSpec.
Local Open Scope Q_scope.

(** A title as [computeTitleScore] compares it. *)
Definition normalized (x : jsstring) : jsstring := stripArticle (toLowerCase x).

Definition years_present_and_equal (queryYear candYear : option Z) : bool :=
  match queryYear, candYear with
  | Some a, Some b => (a =? b)%Z
  | _, _ => false
  end.

(** [0.10] when both years are present and equal. *)
Definition year_bonus_spec (queryYear candYear : option Z) : Q :=
  if years_present_and_equal queryYear candYear then 1 # 10 else 0.

End TitleScoreSpec.

(** ** Requests *)


Definition is_tv_request (r : request) : Prop :=
  match r with
  | TmdbSearchTV _ _ | TmdbTVDetails _ => True
  | _ => False
  end.

Definition is_tv_search (r : request) : Prop :=
  match r with
  | TmdbSearchTV _ _ => True
  | _ => False
  end.

(** The year parameter of a primary-catalog search is [y] or absent. *)
Definition year_is (y : option Z) (r : request) : Prop :=
  match r with
  | TmdbSearchMovie _ y' | TmdbSearchTV _ y' => y' = y \/ y' = None
  | _ => True
  end.


Definition is_title_search (r : request) : Prop :=
  match r with
  | TvdbSearch _ _ _ => True
  | _ => False
  end.

Definition is_remote_id_request (r : request) : Prop :=
  match r with
  | TvdbSearchRemoteId _ | TvdbRemoteIdPath _ => True
  | _ => False
  end.

(** ** Items *)



(** ** The enrichment of one input *)

Section PerItemSpec.
Variable resolveTVDBId :
World -> jsstring -> option jsnum -> option jsstring -> ItemType -> M (option Z).
Variable w : World.

(** What the first pass leaves at the position of [item]. *)
Definition settledOne (item : LLMIdentifiedItem) : EnrichedItem :=
  match outcome (enrichSingleItem w item) with
  | Ok value => value
  | Throw _ => buildUnmatched item
  end.

(** The settled supplemental lookup for one enriched item. *)
Definition lookupOne (e : EnrichedItem) : res (option Z) :=
  if is_unmatched (confidence e) then Ok None
  else outcome (resolveTVDBId w (title e) (year e) (imdbId e) (type e)).

Definition assignOne (e : EnrichedItem) : EnrichedItem :=
  match lookupOne e with
  | Ok (Some value) => set_tvdbId (Some value) e
  | _ => e
  end.

(** The enrichment of one input, alone. *)
Definition enrichedFor (tvdbApiKey : option jsstring) (item : LLMIdentifiedItem)
  : EnrichedItem :=
  if truthy_ostr tvdbApiKey || Tvdb.isTVDBConfigured w
  then assignOne (settledOne item)
  else settledOne item.

End PerItemSpec.

(** The sample world without the key of the primary catalog. *)
Definition world_without_tmdb_key : World :=
  {| TMDB_API_KEY := None;
     TVDB_API_KEY := TVDB_API_KEY Sample.world;
     plexConfigured := plexConfigured Sample.world;
     genreCacheLoaded := genreCacheLoaded Sample.world;
     genreCache := genreCache Sample.world;
     search_movie := search_movie Sample.world;
     search_tv := search_tv Sample.world;
     movie_details := movie_details Sample.world;
     tv_details := tv_details Sample.world;
     tvdb_login := tvdb_login Sample.world;
     tvdb_search := tvdb_search Sample.world;
     tvdb_search_remote_id := tvdb_search_remote_id Sample.world;
     tvdb_remoteid_path := tvdb_remoteid_path Sample.world;
     plex_items := plex_items Sample.world |}.

(** ** The unmatched invariant *)

Definition catalog_fields_null_but_ids (e : EnrichedItem) : Prop :=
  tmdbId e = None /\ posterUrl e = None /\ overview e = None /\
  rating e = None /\ releaseDate e = None /\ genres e = None /\
  director e = None /\ runtime e = None /\ network e = None /\
  seasons e = None /\ showStatus e = None.

Definition catalog_fields_null (e : EnrichedItem) : Prop :=
  imdbId e = None /\ tvdbId e = None /\ catalog_fields_null_but_ids e.

(** The invariant of the specification. *)
Definition unmatched_invariant (e : EnrichedItem) : Prop :=
  confidence e = unmatched -> catalog_fields_null e /\ source e = none.

(** What remains of it after the library cross-reference. *)
Definition unmatched_invariant_but_ids (e : EnrichedItem) : Prop :=
  confidence e = unmatched -> catalog_fields_null_but_ids e /\ source e = none.

(** ** Patterns and trimming *)

(** A lower bound on the length of what a pattern consumes. *)
Fixpoint minlen (r : regex) : nat :=
  match r with
  | Eps | Star _ | LazyStar _ | Eol => 0
  | Never => 1024
  | Cls _ => 1
  | Seq r1 r2 => minlen r1 + minlen r2
  | Alt r1 r2 => Nat.min (minlen r1) (minlen r2)
  | Cap r' => minlen r'
  end.


Definition starts_clean (s : jsstring) : Prop :=
  match s with
  | c :: _ => is_space c = false
  | [] => True
  end.

Definition strip_all (ps : list regex) (s : jsstring) : jsstring :=
  fold_left (fun acc p => remove_first p acc) ps s.

(** The titles listed in the documentation of the function are all
    stripped in one pass, so idempotence holds on them. *)
Definition documented_samples : list jsstring :=
  map js ["Show - Season 1"; "Show: Season 1"; "Show Season 1"; "Show - S01";
          "Show S01"; "Show - The Complete First Season";
          "Show - Complete Season 3"; "Show - The Complete Series";
          "Show: Complete Series"; "Show - Series 1"; "Show: Series 1";
          "Show (Season 1)"; "Show (2005) - Season 1";
          "Breaking Bad - Season 1"; "CSI: Crime Scene Investigation - Season 1"]%string.

(** ** Fenced responses *)

(** [```json], white space, a payload, white space, [```]; [tagged]
    tells whether the opening fence carries the language tag. *)
Definition fenced (tagged : bool) (ws1 p ws2 : jsstring) : jsstring :=
  js "```" ++ (if tagged then js "json" else []) ++ ws1 ++ p ++ ws2 ++ js "```".

Definition all_space (ws : jsstring) : Prop :=
  Forall (fun c => is_space c = true) ws.

(** No run of three backticks begins inside [s] when a closing fence
    follows it. *)
Definition fence_free (s : jsstring) : Prop :=
  includes (s ++ js "``") (js "```") = false.


(** * Vocabulary of the further properties *)

(** The distance by recursion on both strings: the recurrence that the
    table of [levenshtein] tabulates. *)
Fixpoint edit_distance (a b : jsstring) : nat :=
  match a with
  | [] => length b
  | x :: a' =>
      (fix inner (b : jsstring) : nat :=
         match b with
         | [] => S (length a')
         | y :: b' =>
             if ascii_eqb x y then edit_distance a' b'
             else S (Nat.min (edit_distance a' b)
                             (Nat.min (inner b') (edit_distance a' b')))
         end) b
  end.

(** [edits a b n]: [b] is obtained from [a] by [n] single-character
    insertions, deletions and substitutions. *)
Inductive edits : jsstring -> jsstring -> nat -> Prop :=
| edits_nil : edits [] [] 0
| edits_keep x a b n : edits a b n -> edits (x :: a) (x :: b) n
| edits_subst x y a b n : edits a b n -> edits (x :: a) (y :: b) (S n)
| edits_delete x a b n : edits a b n -> edits (x :: a) b (S n)
| edits_insert y a b n : edits a b n -> edits a (y :: b) (S n).

(** Cells [j+1..n] of the row of [acc], where [bacc] is the reversed
    prefix of length [j] and [b] what follows it. *)
Fixpoint cells (acc bacc b : jsstring) : list nat :=
  match b with
  | [] => []
  | y :: b' => edit_distance acc (y :: bacc) :: cells acc (y :: bacc) b'
  end.

Definition row (acc b : jsstring) : list nat :=
  edit_distance acc [] :: cells acc [] b.

(** A character class that does not tell a letter from its lower case. *)
Definition lower_inv (p : ascii -> bool) : Prop := forall x, p (lower x) = p x.

(** A pattern all of whose classes are such: a pattern under the [i]
    flag, or one without letters. *)
Fixpoint case_blind (r : regex) : Prop :=
  match r with
  | Eps | Never | Eol => True
  | Cls p | Star p | LazyStar p => lower_inv p
  | Seq r1 r2 | Alt r1 r2 => case_blind r1 /\ case_blind r2
  | Cap r' => case_blind r'
  end.

Definition lower_match (m : rmatch_result) : rmatch_result :=
  MatchAt (toLowerCase (m_before m)) (option_map toLowerCase (m_group1 m))
          (toLowerCase (m_after m)).

Ltac all_ascii x := destruct x as [[] [] [] [] [] [] [] []]; reflexivity.

(** Both are decidable: there are 256 characters. *)
Definition lower_inv_b (p : ascii -> bool) : bool :=
  forallb (fun n => Bool.eqb (p (lower (ascii_of_nat n))) (p (ascii_of_nat n)))
          (seq 0 256).

Fixpoint case_blind_b (r : regex) : bool :=
  match r with
  | Eps | Never | Eol => true
  | Cls p | Star p | LazyStar p => lower_inv_b p
  | Seq r1 r2 | Alt r1 r2 => case_blind_b r1 && case_blind_b r2
  | Cap r' => case_blind_b r'
  end.

(** A pattern that can only match up to the end of the input. *)
Fixpoint anchored (r : regex) : bool :=
  match r with
  | Eol => true
  | Seq r1 r2 =>
      anchored r2 || (anchored r1 && match r2 with Eps => true | _ => false end)
  | Alt r1 r2 => anchored r1 && anchored r2
  | Cap r' => anchored r'
  | _ => false
  end.

(** The sample world with a catalog that answers every search with the
    same candidates. *)
Definition generous_world : World :=
  {| TMDB_API_KEY := TMDB_API_KEY Sample.world;
     TVDB_API_KEY := TVDB_API_KEY Sample.world;
     plexConfigured := plexConfigured Sample.world;
     genreCacheLoaded := genreCacheLoaded Sample.world;
     genreCache := genreCache Sample.world;
     search_movie := fun _ _ =>
       FetchData (Some [Sample.interception; Sample.inception]);
     search_tv := fun _ _ => FetchData (Some [Sample.breakingBad]);
     movie_details := movie_details Sample.world;
     tv_details := tv_details Sample.world;
     tvdb_login := tvdb_login Sample.world;
     tvdb_search := tvdb_search Sample.world;
     tvdb_search_remote_id := tvdb_search_remote_id Sample.world;
     tvdb_remoteid_path := tvdb_remoteid_path Sample.world;
     plex_items := plex_items Sample.world |}.

(** [s] without leading white space and without some tail is [t]. *)
Definition inner_part (t s : jsstring) : Prop :=
  exists ws post,
    s = ws ++ t ++ post /\ Forall (fun c => is_space c = true) ws.

(** The type of a matched item, given the type the vision model gave. *)
Definition kind_agrees (given : ItemType) (result : ItemType) : Prop :=
  match given with
  | movie => result = movie
  | tv => result = tv
  | dvd => result = movie \/ result = tv
  | _ => False
  end.

Definition short_overview (e : EnrichedItem) : Prop :=
  match overview e with
  | Some o => (length o <= 500)%nat
  | None => True
  end.

(** The title is the one the vision model read; a matched item comes
    from the primary catalog, with its identifier. *)
Definition made_from (item : LLMIdentifiedItem) (e : EnrichedItem) : Prop :=
  title e = llm_title item /\
  source e <> plex /\
  short_overview e /\
  (confidence e <> unmatched ->
   source e = tmdb /\ is_Some (tmdbId e) /\ kind_agrees (llm_type item) (type e)).

(** The raw columns of a saved row. *)
Definition row_of (item : LLMIdentifiedItem) (row : ScanItemRow) : Prop :=
  rawTitle row = llm_title item /\ rawCreator row = llm_creator item /\
  rawType row = llm_type item /\ rawYear row = llm_year item /\
  title (row_item row) = llm_title item.


(** [details] is not the data of an ok response. *)
Definition failed {A} (answer : Fetch A) : Prop :=
  match answer with FetchData _ => False | _ => True end.

(** The alphabet of a normalized title: lower-case letters, digits and
    the space character. *)
Definition plain (c : ascii) : Prop :=
  keeps c = true /\ lower c = c /\ (is_space c = true -> c = " "%char).

(** No two white-space characters in a row. *)
Fixpoint tidy (s : jsstring) : Prop :=
  match s with
  | [] => True
  | c :: s' => (is_space c = true -> starts_clean s') /\ tidy s'
  end.

(** The test that makes [matchWithPlex] return a library item: one
    normalized title contains the other and the years do not conflict. *)
Definition accepts (normalizedQuery : jsstring) (year : option jsnum)
           (plexItem : PlexItem) : bool :=
  let normalizedPlex := normalizeTitle (plex_title plexItem) in
  (includes normalizedQuery normalizedPlex
   || includes normalizedPlex normalizedQuery)
  && negb (year_mismatch year (plex_year plexItem)).

(** What the library step may change in an item: the library flag and
    key, and identifiers that were missing. *)
Definition library_update (e e' : EnrichedItem) : Prop :=
  title e' = title e /\ creator e' = creator e /\ type e' = type e /\
  confidence e' = confidence e /\ source e' = source e /\
  tmdbId e' = tmdbId e /\ posterUrl e' = posterUrl e /\
  overview e' = overview e /\ rating e' = rating e /\
  releaseDate e' = releaseDate e /\ genres e' = genres e /\
  year e' = year e /\ director e' = director e /\ runtime e' = runtime e /\
  network e' = network e /\ seasons e' = seasons e /\
  showStatus e' = showStatus e /\
  (truthy_ostr (imdbId e) = true -> imdbId e' = imdbId e) /\
  (falsy_id (tvdbId e) = false -> tvdbId e' = tvdbId e) /\
  (plexMatch e = true -> plexMatch e' = true).

(** The sample world with a TVDB login that fails. *)
Definition world_without_login : World :=
  {| TMDB_API_KEY := TMDB_API_KEY Sample.world;
     TVDB_API_KEY := TVDB_API_KEY Sample.world;
     plexConfigured := plexConfigured Sample.world;
     genreCacheLoaded := genreCacheLoaded Sample.world;
     genreCache := genreCache Sample.world;
     search_movie := search_movie Sample.world;
     search_tv := search_tv Sample.world;
     movie_details := movie_details Sample.world;
     tv_details := tv_details Sample.world;
     tvdb_login := Throw "TVDB login failed: 401 Unauthorized";
     tvdb_search := tvdb_search Sample.world;
     tvdb_search_remote_id := tvdb_search_remote_id Sample.world;
     tvdb_remoteid_path := tvdb_remoteid_path Sample.world;
     plex_items := plex_items Sample.world |}.

Section CoercionFactsTerms.
Import Coerce.

(** The type names accepted: the six of the schema in any letter case,
    and [book], read as [other]. *)
Definition accepted_type (v : value) : option ItemType :=
  match v with
  | VString s =>
      if str_eqb (toLowerCase s) (js "book") then Some other
      else ItemTypeSchema (VString (toLowerCase s))
  | _ => None
  end.

(** The creator, or the author when there is no creator. *)
Definition creator_or_author (i : object) : value :=
  if has (js "creator") i then get (js "creator") i else get (js "author") i.

(** A year: absent, a number, or a string read by [parseInt] (absent
    when it does not start with a number). *)
Definition number_or_numeral (v : value) : option (option Q) :=
  match v with
  | VUndefined => Some None
  | VNumber q => Some (Some q)
  | VString year =>
      match parseInt year None with
      | NaN => Some None
      | Num parsed => Some (Some (inject_Z parsed))
      end
  | _ => None
  end.

Definition tolerantItemSchema (v : value) : option ParsedItem :=
  match v with
  | VObject i =>
      match get (js "title") i, creator_or_author i,
            accepted_type (get (js "type") i),
            number_or_numeral (get (js "year") i) with
      | VString title, VString creator, Some type, Some year =>
          if (1 <=? length title)%nat
          then Some {| p_title := title; p_creator := creator;
                       p_type := type; p_year := year |}
          else None
      | _, _, _, _ => None
      end
  | _ => None
  end.

Fixpoint all_tolerant (l : list value) : option (list ParsedItem) :=
  match l with
  | [] => Some []
  | v :: l' =>
      match tolerantItemSchema v, all_tolerant l' with
      | Some item, Some items => Some (item :: items)
      | _, _ => None
      end
  end.

Definition tolerantResponseSchema (v : value) : option (list ParsedItem) :=
  match v with
  | VObject obj =>
      match get (js "items") obj with
      | VArray items => all_tolerant items
      | _ => None
      end
  | _ => None
  end.

(** The three steps of [coerceItem]. *)
Definition step_type (i : object) : object :=
  match get (js "type") i with
  | VString type =>
      let i := set (js "type") (VString (toLowerCase type)) i in
      if is_string (js "book") (get (js "type") i)
      then set (js "type") (VString (js "other")) i
      else i
  | _ => i
  end.

Definition step_author (i : object) : object :=
  if has (js "author") i && negb (has (js "creator") i)
  then delete (js "author") (set (js "creator") (get (js "author") i) i)
  else i.

Definition step_year (i : object) : object :=
  match get (js "year") i with
  | VString year =>
      match parseInt year None with
      | NaN => set (js "year") VUndefined i
      | Num parsed => set (js "year") (VNumber (inject_Z parsed)) i
      end
  | _ => i
  end.

End CoercionFactsTerms.

Section CsvFactsTerms.
Import CsvExport.

(** No line feed in [s]. *)
Definition one_line (s : jsstring) : Prop :=
  Forall (fun c => ascii_eqb c LF = false) s.

End CsvFactsTerms.

Section EventStreamTerms.
Import Sse.

(** An event as [send] is given it: a name and the JSON text of the data,
    neither with a line feed, neither blank. *)
Definition sendable (e : jsstring * jsstring) : Prop :=
  one_line (fst e) /\ one_line (snd e) /\
  trim (fst e) <> [] /\ trim (snd e) <> [].

(** The event the reader yields for it. *)
Definition received (e : jsstring * jsstring) : SSEEvent :=
  {| event := trim (fst e); data := trim (snd e) |}.

(** The chunk that carries a batch of events. *)
Definition chunk_of (batch : list (jsstring * jsstring)) : jsstring :=
  concat (map (fun e => payload (fst e) (snd e)) batch).

(** The three lines of one event. *)
Definition lines_of (e : jsstring * jsstring) : list jsstring :=
  [js "event: " ++ fst e; js "data: " ++ snd e; []].

End EventStreamTerms.

(** The item the route submits for re-enrichment. *)
Definition resubmitted (title : jsstring) (creator : option jsstring)
           (item : ScanItemRow) : LLMIdentifiedItem :=
  {| llm_title := title;
     llm_creator := default (Metadata.creator (row_item item)) creator;
     llm_type := Metadata.type (row_item item);
     llm_year := rawYear item |}.

Section GuidParsingTerms.
Import PlexGuids.

(** One entry of the [Guid] array of a library item. *)
Definition guid_object (id : jsstring) : json := JObject [(js "id", JString id)].

(** No colon in [s]. *)
Definition colon_free (s : jsstring) : Prop :=
  Forall (fun c => ascii_eqb c ":" = false) s.

End GuidParsingTerms.


(** * The title score in the words of the specification

    Nothing in this part calls a function of the title normalizer or of
    the similarity scorer of the source: the similarity is defined over
    the edit-distance recurrence, the articles and the decorations are
    described as sets of strings. *)

(** *** Sets of strings *)

Definition language := jsstring -> Prop.

Definition l_eps : language := fun s => s = [].
Definition l_never : language := fun _ => False.
Definition l_cat (A B : language) : language :=
  fun s => exists a b, s = a ++ b /\ A a /\ B b.
Definition l_alt (A B : language) : language := fun s => A s \/ B s.
Definition l_seq (ls : list language) : language := foldr l_cat l_eps ls.
Definition l_any (ls : list language) : language := foldr l_alt l_never ls.
Definition l_opt (A : language) : language := l_alt A l_eps.

(** One character of a class; any number of them; at least one. *)
Definition l_one (p : ascii -> bool) : language :=
  fun s => exists c, s = [c] /\ p c = true.
Definition l_all (p : ascii -> bool) : language :=
  fun s => Forall (fun c => p c = true) s.
Definition l_some (p : ascii -> bool) : language := l_cat (l_one p) (l_all p).

(** The character [c]; the lower-case word [w] in any letter case. *)
Definition l_char (c : ascii) : language := fun s => s = [c].
Definition l_word (w : string) : language := fun s => toLowerCase s = js w.

(** [p] is [s] without its longest suffix in [D], and [s] itself when no
    suffix of [s] is in [D]. *)
Definition cut_spec (D : language) (s p : jsstring) : Prop :=
  (exists t, s = p ++ t /\ D t /\
             forall p' t', s = p' ++ t' -> D t' -> (length t' <= length t)%nat)
  \/ ((forall p' t', s = p' ++ t' -> ~ D t') /\ p = s).

Fixpoint cut_all_spec (Ds : list language) (s r : jsstring) : Prop :=
  match Ds with
  | [] => r = s
  | D :: Ds' => exists p, cut_spec D s p /\ cut_all_spec Ds' p r
  end.

(** *** The decorations that the suffix stripper removes *)

Definition spaces : language := l_all is_space.
Definition spaces1 : language := l_some is_space.
Definition number : language := l_some is_digit.
Definition separator : language := l_alt (l_char "-") (l_char ":").
Definition ordinal_word : language :=
  l_any (map l_word ["first"; "second"; "third"; "fourth"; "fifth"; "sixth";
                     "seventh"; "eighth"; "ninth"; "tenth"]%string).
Definition optional_the : language := l_opt (l_seq [l_word "the"; spaces1]).
Definition optional_complete : language :=
  l_opt (l_seq [l_word "complete"; spaces1]).
Definition season_or_series : language :=
  l_any [l_word "season"; l_word "series"].
Definition which_season : language := l_alt number ordinal_word.

(** "(Season 1)" *)
Definition decoration_paren : language :=
  l_seq [spaces; l_char "(";
         l_any [l_word "season"; l_word "series"; l_word "s"];
         spaces; number; l_char ")"; spaces].

(** "- Season 1", ": The Complete Series 2", "- season three" *)
Definition decoration_sep_season : language :=
  l_seq [spaces; separator; spaces; optional_the; optional_complete;
         season_or_series; spaces1; which_season; spaces].

(** " Season 1" *)
Definition decoration_bare_season : language :=
  l_seq [spaces1; optional_the; optional_complete;
         season_or_series; spaces1; which_season; spaces].

(** "- S01" *)
Definition decoration_short : language :=
  l_seq [spaces; separator; spaces; l_word "s"; number; spaces].

(** "- The Complete Series" *)
Definition decoration_complete_series : language :=
  l_seq [spaces; separator; spaces; optional_the;
         l_word "complete"; spaces1; l_word "series"; spaces].

(** "- The Complete First Season", ": Complete 3rd Season" *)
Definition decoration_complete_nth : language :=
  l_seq [spaces; separator; spaces; optional_the; l_word "complete"; spaces1;
         l_alt ordinal_word
               (l_seq [number;
                       l_opt (l_any [l_word "st"; l_word "nd"; l_word "rd";
                                     l_word "th"])]);
         spaces1; l_word "season"; spaces].

Definition decorations : list language :=
  [decoration_paren; decoration_sep_season; decoration_bare_season;
   decoration_short; decoration_complete_series; decoration_complete_nth].

(** The title without its decorations: each kind is cut once, in the
    order of the list, and the result is trimmed. *)
Definition suffix_stripped_spec (s r : jsstring) : Prop :=
  exists p, cut_all_spec decorations s p /\ r = trim p.

(** *** Articles *)

(** What follows the lower-case word [w] (in any letter case) and the white
    space after it, when [s] begins with them. *)
Definition after_article (w : string) (s : jsstring) : option jsstring :=
  let n := String.length w in
  match drop n s with
  | c :: rest =>
      if str_eqb (toLowerCase (take n s)) (js w) && is_space c
      then Some (trimStart rest) else None
  | [] => None
  end.

Definition article_stripped_spec (s : jsstring) : jsstring :=
  trim match after_article "the" s with
       | Some rest => rest
       | None =>
           match after_article "a" s with
           | Some rest => rest
           | None =>
               match after_article "an" s with
               | Some rest => rest
               | None => s
               end
           end
       end.

Definition normalized_spec (x : jsstring) : jsstring :=
  article_stripped_spec (toLowerCase x).

Section TitleScoreWords.
Local Open Scope Q_scope.

(** [similarity(a,b) = 1 - editDistance(a,b)/max(len(a),len(b))], and 1
    when both strings are empty.  [editDistance] is the textbook
    recurrence [edit_distance] with unit costs: the least number of
    single-character insertions, deletions and substitutions. *)
Definition similarity_spec (a b : jsstring) : Q :=
  match a, b with
  | [], [] => 1
  | _, _ =>
      1 - (Z.of_nat (edit_distance a b)
           # Pos.of_nat (Nat.max (length a) (length b)))
  end.

(** The score of [candidate] for [query], given the suffix-stripped
    query. *)
Definition titleScore_spec (query stripped candidate : jsstring)
           (queryYear candYear : option Z) : Q :=
  Qmin 1 (Qmax (similarity_spec (normalized_spec query)
                                (normalized_spec candidate))
               (similarity_spec (normalized_spec stripped)
                                (normalized_spec candidate))
          + year_bonus_spec queryYear candYear).

End TitleScoreWords.

(** *** The meaning of the patterns of the source

    Used to relate the backtracking matcher to the sets above; the
    specification itself does not mention patterns. *)

(** The set of strings that a pattern matches from its first to its last
    character ([Eol] consumes nothing). *)
Fixpoint lang_of (r : regex) : language :=
  match r with
  | Eps => l_eps
  | Never => l_never
  | Cls p => l_one p
  | Seq r1 r2 => l_cat (lang_of r1) (lang_of r2)
  | Alt r1 r2 => l_alt (lang_of r1) (lang_of r2)
  | Star p | LazyStar p => l_all p
  | Eol => l_eps
  | Cap r' => lang_of r'
  end.

(** [sem r s rest]: [r] matches [s] up to [rest], the remainder of [s]. *)
Fixpoint sem (r : regex) (s rest : jsstring) : Prop :=
  match r with
  | Eps => rest = s
  | Never => False
  | Cls p => exists c, s = c :: rest /\ p c = true
  | Seq r1 r2 => exists mid, sem r1 s mid /\ sem r2 mid rest
  | Alt r1 r2 => sem r1 s rest \/ sem r2 s rest
  | Star p | LazyStar p =>
      exists a, s = a ++ rest /\ Forall (fun c => p c = true) a
  | Eol => s = [] /\ rest = []
  | Cap r' => sem r' s rest
  end.

Fixpoint eol_free (r : regex) : bool :=
  match r with
  | Eol => false
  | Seq r1 r2 | Alt r1 r2 => eol_free r1 && eol_free r2
  | Cap r' => eol_free r'
  | _ => true
  end.
(** * Properties *)

(** ** Basic facts about strings and the effect monad *)

Lemma ascii_eqb_eq a b : ascii_eqb a b = true <-> a = b.
Proof.
  unfold ascii_eqb, code. rewrite N.eqb_eq. split; [|congruence].
  intros H. rewrite <- (ascii_N_embedding a), <- (ascii_N_embedding b).
  congruence.
Qed.

Lemma str_eqb_eq a b : str_eqb a b = true <-> a = b.
Proof.
  revert b. induction a as [|x a IH]; intros [|y b]; simpl; try easy.
  rewrite andb_true_iff, ascii_eqb_eq, IH. split.
  - intros [-> ->]. reflexivity.
  - intros [= -> ->]. tauto.
Qed.

Lemma str_eqb_refl a : str_eqb a a = true.
Proof. apply str_eqb_eq. reflexivity. Qed.

Lemma bind_ret_l {A B} (a : A) (f : A -> M B) : bind (ret a) f = f a.
Proof. unfold bind, ret. simpl. destruct (f a). reflexivity. Qed.

Lemma trace_bind_ok {A B} (m : M A) (f : A -> M B) a :
  outcome m = Ok a -> trace (bind m f) = trace m ++ trace (f a).
Proof. intros H. unfold bind. rewrite H. reflexivity. Qed.

Lemma outcome_bind_ok {A B} (m : M A) (f : A -> M B) a :
  outcome m = Ok a -> outcome (bind m f) = outcome (f a).
Proof. intros H. unfold bind. rewrite H. reflexivity. Qed.

Lemma bind_throw {A B} (m : M A) (f : A -> M B) e :
  outcome m = Throw e -> bind m f = MkM (trace m) (Throw e).
Proof. intros H. unfold bind. rewrite H. reflexivity. Qed.

Lemma outcome_bind {A B} (m : M A) (f : A -> M B) :
  outcome (bind m f) =
  match outcome m with Ok a => outcome (f a) | Throw e => Throw e end.
Proof. unfold bind. destruct (outcome m); reflexivity. Qed.

Lemma trace_bind {A B} (m : M A) (f : A -> M B) :
  trace (bind m f) =
  match outcome m with Ok a => trace m ++ trace (f a) | Throw _ => trace m end.
Proof. unfold bind. destruct (outcome m); reflexivity. Qed.

(** ** Sanity checks of the edit distance *)

Example lev_kitten : levenshtein (js "kitten") (js "sitting") = 3%nat.
Proof. reflexivity. Qed.
Example lev_empty : levenshtein [] (js "abc") = 3%nat.
Proof. reflexivity. Qed.
Example lev_empty_r : levenshtein (js "abc") [] = 3%nat.
Proof. reflexivity. Qed.


(** ** The requests issued by the primary-catalog match *)

Lemma trace_searchTMDBMovies w t y :
  trace (searchTMDBMovies w t y) = [TmdbSearchMovie t (year_filter y)].
Proof.
  unfold searchTMDBMovies, bind, fetch_soft. cbn.
  destruct (search_movie w t (year_filter y)) as [| |[l|]]; reflexivity.
Qed.

Lemma trace_searchTMDBTV w t y :
  trace (searchTMDBTV w t y) = [TmdbSearchTV t (year_filter y)].
Proof.
  unfold searchTMDBTV, bind, fetch_soft. cbn.
  destruct (search_tv w t (year_filter y)) as [| |[l|]]; reflexivity.
Qed.

Lemma searchTMDBMovies_ok w t y :
  exists rs, outcome (searchTMDBMovies w t y) = Ok rs.
Proof.
  unfold searchTMDBMovies, bind, fetch_soft. cbn.
  destruct (search_movie w t (year_filter y)) as [| |[l|]]; cbn; eauto.
Qed.

Lemma searchTMDBTV_ok w t y :
  exists rs, outcome (searchTMDBTV w t y) = Ok rs.
Proof.
  unfold searchTMDBTV, bind, fetch_soft. cbn.
  destruct (search_tv w t (year_filter y)) as [| |[l|]]; cbn; eauto.
Qed.

(** [enrichMovie] issues one movie search, then at most a details fetch. *)
Lemma enrichMovie_trace w item :
  exists rest,
    trace (enrichMovie w item)
    = TmdbSearchMovie (llm_title item) (year_filter (llm_year item)) :: rest /\
    Forall (fun r => exists id, r = TmdbMovieDetails id) rest.
Proof.
  unfold enrichMovie. rewrite trace_bind, trace_searchTMDBMovies.
  destruct (outcome (searchTMDBMovies w (llm_title item) (llm_year item)))
    as [[|c rs]|e]; cbn [app]; try (eexists; split; [reflexivity|constructor]).
  rewrite trace_bind. cbn [lift trace outcome app].
  destruct (scoreLoop mr_title mr_release_date item (c :: rs) None 0)
    as [[[b|] s]|e]; try (eexists; split; [reflexivity|constructor]).
  destruct (scoreToConfidence s);
    eexists; (split; [reflexivity|]); cbn; repeat constructor; eauto.
Qed.

Lemma searchTV_trace w item :
  exists q rest,
    trace (searchTV w item) = TmdbSearchTV q (year_filter (llm_year item)) :: rest /\
    Forall (fun r => is_tv_search r /\ year_is (year_filter (llm_year item)) r) rest.
Proof.
  unfold searchTV. rewrite trace_bind, trace_searchTMDBTV.
  destruct (searchTMDBTV_ok w
              (if negb (str_eqb (extractSeriesName (llm_title item)) (llm_title item))
               then extractSeriesName (llm_title item) else llm_title item)
              (llm_year item)) as [rs ->].
  cbn [app]. eexists _, _. split; [reflexivity|].
  rewrite trace_bind.
  destruct (is_nil rs && _).
  - rewrite trace_searchTMDBTV.
    destruct (searchTMDBTV_ok w (llm_title item) (llm_year item)) as [rs2 ->].
    constructor; [split; [exact I|left; reflexivity]|].
    destruct (is_nil rs2 && _); [|constructor].
    rewrite trace_searchTMDBTV.
    constructor; [split; [exact I|right; reflexivity]|constructor].
  - cbn [ret trace outcome app].
    destruct (is_nil rs && _); [|constructor].
    rewrite trace_searchTMDBTV.
    constructor; [split; [exact I|right; reflexivity]|constructor].
Qed.

Lemma searchTV_ok w item : exists rs, outcome (searchTV w item) = Ok rs.
Proof.
  unfold searchTV. rewrite outcome_bind.
  destruct (searchTMDBTV_ok w
              (if negb (str_eqb (extractSeriesName (llm_title item)) (llm_title item))
               then extractSeriesName (llm_title item) else llm_title item)
              (llm_year item)) as [rs ->].
  rewrite outcome_bind.
  destruct (_ && _).
  - destruct (searchTMDBTV_ok w (llm_title item) (llm_year item)) as [rs2 ->].
    destruct (_ && _); [apply searchTMDBTV_ok|cbn; eauto].
  - cbn [ret outcome]. destruct (_ && _); [apply searchTMDBTV_ok|cbn; eauto].
Qed.

(** [enrichTV] starts with a TV search and issues TV requests only. *)
Lemma enrichTV_trace w item :
  exists q rest,
    trace (enrichTV w item) = TmdbSearchTV q (year_filter (llm_year item)) :: rest /\
    Forall (fun r => is_tv_request r /\ year_is (year_filter (llm_year item)) r) rest.
Proof.
  unfold enrichTV. rewrite trace_bind.
  destruct (searchTV_trace w item) as (q & rest & -> & Hrest).
  assert (Forall (fun r => is_tv_request r /\ year_is (year_filter (llm_year item)) r)
                 rest) as Hrest'.
  { eapply Forall_impl; [exact Hrest|]. intros [] [H1 H2]; cbn in *; tauto. }
  destruct (searchTV_ok w item) as [[|c rs] ->]; cbn [app].
  - eexists _, _. split; [reflexivity|]. rewrite app_nil_r. exact Hrest'.
  - eexists _, _. split; [reflexivity|]. apply Forall_app. split; [exact Hrest'|].
    rewrite trace_bind. cbn [lift trace outcome app].
    destruct (scoreLoop tr_name tr_first_air_date item (c :: rs) None 0)
      as [[[b|] s]|e]; try constructor.
    destruct (scoreToConfidence s); cbn; repeat constructor.
Qed.

(** ** Best-match selection and confidence tiers *)

Section Selection.
Local Open Scope Q_scope.

Lemma q_lt_iff a b : q_lt a b = true <-> a < b.
Proof.
  unfold q_lt. rewrite negb_true_iff. split.
  - intros H. apply Qnot_le_lt. intros Hle.
    apply Qle_bool_iff in Hle. congruence.
  - intros H. destruct (Qle_bool b a) eqn:E; [|reflexivity].
    apply Qle_bool_iff in E. exfalso. exact (Qlt_not_le _ _ H E).
Qed.

Lemma q_lt_false a b : q_lt a b = false <-> b <= a.
Proof.
  unfold q_lt. rewrite negb_false_iff. apply Qle_bool_iff.
Qed.

(** The three tiers of [scoreToConfidence]. *)
Lemma scoreToConfidence_high s : scoreToConfidence s = high <-> 85 # 100 <= s.
Proof.
  unfold scoreToConfidence.
  destruct (Qle_bool (85 # 100) s) eqn:E.
  - apply Qle_bool_iff in E. tauto.
  - split; [destruct (Qle_bool (50 # 100) s); discriminate|].
    intros H. apply Qle_bool_iff in H. congruence.
Qed.

Lemma scoreToConfidence_unmatched s :
  scoreToConfidence s = unmatched <-> s < 50 # 100.
Proof.
  unfold scoreToConfidence.
  destruct (Qle_bool (85 # 100) s) eqn:E.
  - apply Qle_bool_iff in E. split; [discriminate|].
    intros H. exfalso. apply (Qlt_not_le _ _ H).
    apply Qle_trans with (85 # 100); [|exact E]. discriminate.
  - destruct (Qle_bool (50 # 100) s) eqn:E2.
    + apply Qle_bool_iff in E2. split; [discriminate|].
      intros H. exfalso. exact (Qlt_not_le _ _ H E2).
    + split; [|reflexivity]. intros _. apply Qnot_le_lt. intros H.
      apply Qle_bool_iff in H. congruence.
Qed.

Lemma scoreToConfidence_low s :
  scoreToConfidence s = low <-> 50 # 100 <= s /\ s < 85 # 100.
Proof.
  unfold scoreToConfidence.
  destruct (Qle_bool (85 # 100) s) eqn:E.
  - apply Qle_bool_iff in E. split; [discriminate|].
    intros [_ H]. exfalso. exact (Qlt_not_le _ _ H E).
  - assert (s < 85 # 100) as Hlt.
    { apply Qnot_le_lt. intros H. apply Qle_bool_iff in H. congruence. }
    destruct (Qle_bool (50 # 100) s) eqn:E2.
    + apply Qle_bool_iff in E2. tauto.
    + split; [discriminate|]. intros [H _].
      apply Qle_bool_iff in H. congruence.
Qed.

Context {C : Type} (name date : C -> option jsstring).


Lemma scoreLoop_total item results br bs :
  Forall (fun c => is_Some (name c)) results ->
  exists b s, scoreLoop name date item results br bs = Ok (b, s).
Proof.
  intros H. revert br bs.
  induction H as [|c results [n Hn] _ IH]; intros br bs; simpl.
  - eauto.
  - unfold totalScore, candidateScore. rewrite Hn.
    destruct (q_lt bs _); apply IH.
Qed.

Lemma scoreLoop_inv item results br bs b s :
  scoreLoop name date item results br bs = Ok (b, s) ->
  bs <= s /\
  (forall c t, In c results -> totalScore name date item c = Ok t -> t <= s) /\
  ((b = br /\ s = bs) \/
   (exists c, b = Some c /\ In c results /\
              totalScore name date item c = Ok s /\ bs < s)).
Proof.
  revert br bs. induction results as [|c results IH]; intros br bs; simpl.
  - intros [= <- <-]. split; [apply Qle_refl|]. split; [tauto|]. left. tauto.
  - destruct (totalScore name date item c) as [t|e] eqn:Ht; [|discriminate].
    destruct (q_lt bs t) eqn:Hlt; intros H; apply IH in H;
      destruct H as (Hle & Hall & Hsel).
    + apply q_lt_iff in Hlt.
      split; [apply Qlt_le_weak; eapply Qlt_le_trans; eauto|].
      split.
      * intros c' t' [<-|Hin] Ht'; [|eauto].
        rewrite Ht in Ht'. injection Ht' as <-. exact Hle.
      * right. destruct Hsel as [[-> ->]|(c' & -> & Hin & Hc' & Hlt')].
        -- exists c. tauto.
        -- exists c'. repeat split; auto.
           eapply Qlt_trans; eauto.
    + apply q_lt_false in Hlt.
      split; [exact Hle|]. split.
      * intros c' t' [<-|Hin] Ht'; [|eauto].
        rewrite Ht in Ht'. injection Ht' as <-.
        eapply Qle_trans; eauto.
      * destruct Hsel as [[-> ->]|(c' & -> & Hin & Hc' & Hlt')];
          [left; tauto|right].
        exists c'. repeat split; auto.
Qed.

Lemma scoreLoop_best item results b s :
  scoreLoop name date item results None 0 = Ok (b, s) ->
  is_best name date item results b s.
Proof.
  intros H. apply scoreLoop_inv in H. destruct H as (Hle & Hall & Hsel).
  split; [exact Hall|].
  destruct Hsel as [[-> ->]|(c & -> & Hin & Hc & Hlt)]; [reflexivity|].
  tauto.
Qed.
End Selection.

Section Tiering.
Local Open Scope Q_scope.


Lemma tiers_of_score e s :
  confidence e = scoreToConfidence s ->
  (confidence e = high <-> 85 # 100 <= s) /\
  (confidence e = low <-> 50 # 100 <= s /\ s < 85 # 100) /\
  (confidence e = unmatched <-> s < 50 # 100).
Proof.
  intros ->. split; [apply scoreToConfidence_high|].
  split; [apply scoreToConfidence_low|apply scoreToConfidence_unmatched].
Qed.

Lemma tiered_intro {C} (name date : C -> option jsstring) (ident : C -> Z)
      item results e b s :
  is_best name date item results b s ->
  confidence e = scoreToConfidence s ->
  (confidence e = unmatched -> e = buildUnmatched item) ->
  (confidence e <> unmatched ->
   exists c, b = Some c /\ tmdbId e = Some (ident c) /\ source e = tmdb) ->
  tiered_match name date ident item results e.
Proof.
  intros Hbest Hconf Hun Hm. exists b, s.
  destruct (tiers_of_score e s Hconf) as (Hh & Hl & Hu).
  split; [exact Hbest|]. split; [exact Hconf|]. split; [exact Hh|].
  split; [exact Hl|]. split; [exact Hu|]. split.
  - intros Hlt. apply Hun. apply Hu. exact Hlt.
  - intros Hge. apply Hm. intros Hc. apply Hu in Hc.
    exact (Qlt_not_le _ _ Hc Hge).
Qed.

Lemma enrichMovie_tiered w item results :
  outcome (searchTMDBMovies w (llm_title item) (llm_year item)) = Ok results ->
  results <> [] ->
  Forall (fun c => is_Some (mr_title c)) results ->
  exists e, outcome (enrichMovie w item) = Ok e /\
            tiered_match mr_title mr_release_date mr_id item results e.
Proof.
  intros Hs Hne Hall.
  destruct (scoreLoop_total mr_title mr_release_date item results None 0 Hall)
    as (b & s & Hloop).
  pose proof (scoreLoop_best _ _ _ _ _ _ Hloop) as Hbest.
  unfold enrichMovie. rewrite outcome_bind, Hs.
  destruct results as [|c0 rs]; [congruence|].
  rewrite outcome_bind. unfold lift at 1. cbn [outcome]. rewrite Hloop.
  destruct b as [c|].
  - destruct (scoreToConfidence s) eqn:Hconf.
    + rewrite outcome_bind. cbn [getMovieDetails fetch_soft outcome ret].
      eexists. split; [reflexivity|].
      apply (tiered_intro _ _ _ _ _ _ (Some c) s); cbn; try congruence; eauto.
    + rewrite outcome_bind. cbn [getMovieDetails fetch_soft outcome ret].
      eexists. split; [reflexivity|].
      apply (tiered_intro _ _ _ _ _ _ (Some c) s); cbn; try congruence; eauto.
    + cbn. eexists. split; [reflexivity|].
      apply (tiered_intro _ _ _ _ _ _ (Some c) s); cbn; try congruence; eauto.
  - destruct Hbest as [Hall' ->]. cbn.
    eexists. split; [reflexivity|].
    apply (tiered_intro _ _ _ _ _ _ None 0); cbn; try congruence; eauto.
    split; auto.
Qed.

Lemma enrichTV_tiered w item results :
  outcome (searchTV w item) = Ok results ->
  results <> [] ->
  Forall (fun c => is_Some (tr_name c)) results ->
  exists e, outcome (enrichTV w item) = Ok e /\
            tiered_match tr_name tr_first_air_date tr_id item results e.
Proof.
  intros Hs Hne Hall.
  destruct (scoreLoop_total tr_name tr_first_air_date item results None 0 Hall)
    as (b & s & Hloop).
  pose proof (scoreLoop_best _ _ _ _ _ _ Hloop) as Hbest.
  unfold enrichTV. rewrite outcome_bind, Hs.
  destruct results as [|c0 rs]; [congruence|].
  rewrite outcome_bind. unfold lift at 1. cbn [outcome]. rewrite Hloop.
  destruct b as [c|].
  - destruct (scoreToConfidence s) eqn:Hconf.
    + rewrite outcome_bind. cbn [getTVDetails fetch_soft outcome ret].
      eexists. split; [reflexivity|].
      apply (tiered_intro _ _ _ _ _ _ (Some c) s); cbn; try congruence; eauto.
    + rewrite outcome_bind. cbn [getTVDetails fetch_soft outcome ret].
      eexists. split; [reflexivity|].
      apply (tiered_intro _ _ _ _ _ _ (Some c) s); cbn; try congruence; eauto.
    + cbn. eexists. split; [reflexivity|].
      apply (tiered_intro _ _ _ _ _ _ (Some c) s); cbn; try congruence; eauto.
  - destruct Hbest as [Hall' ->]. cbn.
    eexists. split; [reflexivity|].
    apply (tiered_intro _ _ _ _ _ _ None 0); cbn; try congruence; eauto.
    split; auto.
Qed.
End Tiering.

(** C1: in the primary-catalog match (movie and TV paths), for every item
    and non-empty candidate list, the best candidate is accepted only if
    its total score is at least 0.50; the result is tagged [high] exactly
    when the best score is at least 0.85, [low] exactly when it lies in
    [0.50, 0.85), and is the unmatched record when it is below 0.50. *)
Theorem best_match_confidence_tiers (w : World) (item : LLMIdentifiedItem) :
  (forall results,
      outcome (searchTMDBMovies w (llm_title item) (llm_year item)) = Ok results ->
      results <> [] ->
      Forall (fun c => is_Some (mr_title c)) results ->
      exists e, outcome (enrichMovie w item) = Ok e /\
                tiered_match mr_title mr_release_date mr_id item results e) /\
  (forall results,
      outcome (searchTV w item) = Ok results ->
      results <> [] ->
      Forall (fun c => is_Some (tr_name c)) results ->
      exists e, outcome (enrichTV w item) = Ok e /\
                tiered_match tr_name tr_first_air_date tr_id item results e).
Proof.
  split; intros results Hs Hne Hall.
  - exact (enrichMovie_tiered w item results Hs Hne Hall).
  - exact (enrichTV_tiered w item results Hs Hne Hall).
Qed.

Lemma best_match_confidence_tiers_witness :
  exists e,
    outcome (enrichMovie Sample.world (Sample.item "Inception" movie (Some 2010))) = Ok e /\
    tiered_match mr_title mr_release_date mr_id
                 (Sample.item "Inception" movie (Some 2010))
                 [Sample.interception; Sample.inception] e.
Proof.
  apply (proj1 (best_match_confidence_tiers Sample.world
                  (Sample.item "Inception" movie (Some 2010)))).
  - vm_compute. reflexivity.
  - discriminate.
  - repeat constructor; eexists; reflexivity.
Defined.

(** The sample match is accepted as [high]. *)
Example inception_is_high :
  option_map confidence
    (match outcome (enrichMovie Sample.world (Sample.item "Inception" movie (Some 2010))) with
     | Ok e => Some e | Throw _ => None end) = Some high.
Proof. vm_compute. reflexivity. Qed.

(** ** Maximum, minimum and the year bonus *)

Section TitleScoreFormula.
Local Open Scope Q_scope.






End TitleScoreFormula.

(** A candidate whose date starts with the year 0000 has no year in the
    sense of the source ([resultYear || null]), and an item year of 0
    earns no bonus against it. *)
Example zero_year_candidate :
  candidateYear (Some (js "0000-01-01")) = None /\
  yearBonus (Some 0) (resultYearOf (Some (js "0000-01-01"))) = 0%Q.
Proof. split; reflexivity. Qed.

(** ** A year of 0 behaves like an absent year *)



Section YearZero.
Variable w : World.
Variable item : LLMIdentifiedItem.








End YearZero.




(** An unknown year: the search carries no filter and the match succeeds
    without the bonus. *)
Example year_zero_sample :
  trace (enrichSingleItem Sample.world (Sample.item "Inception" movie (Some 0)))
  = [TmdbSearchMovie (js "Inception") None; TmdbMovieDetails 27205].
Proof. vm_compute. reflexivity. Qed.

(** ** Dispatch by kind *)

Lemma bind_ret_r {A} (m : M A) : bind m ret = m.
Proof.
  destruct m as [tr [a|e]]; unfold bind, ret; cbn; [|reflexivity].
  rewrite app_nil_r. reflexivity.
Qed.

Lemma enrichMovie_no_tv_request w item :
  ~ Exists is_tv_request (trace (enrichMovie w item)).
Proof.
  destruct (enrichMovie_trace w item) as (rest & -> & Hrest).
  rewrite Exists_cons. intros [H|H]; [exact H|].
  apply Exists_exists in H. destruct H as (r & Hin & Hr).
  rewrite Forall_forall in Hrest. destruct (Hrest r Hin) as [id ->]. exact Hr.
Qed.

Lemma enrichTV_has_tv_request w item :
  Exists is_tv_request (trace (enrichTV w item)).
Proof.
  destruct (enrichTV_trace w item) as (q & rest & -> & _).
  apply Exists_cons_hd. exact I.
Qed.

(** C7: a [dvd] item is matched as a movie first; the TV match is
    attempted if and only if the movie match ended unmatched; two
    unmatched attempts give the unmatched record.  Vinyl, game and other
    items are unmatched and no request is made. *)
Theorem dispatch_by_kind (w : World) (item : LLMIdentifiedItem) :
  (llm_type item = dvd ->
   (forall m, outcome (enrichMovie w item) = Ok m ->
              confidence m <> unmatched ->
              enrichSingleItem w item = enrichMovie w item) /\
   (forall m, outcome (enrichMovie w item) = Ok m ->
              confidence m = unmatched ->
              trace (enrichSingleItem w item)
              = trace (enrichMovie w item) ++ trace (enrichTV w item) /\
              (forall t, outcome (enrichTV w item) = Ok t ->
                         confidence t <> unmatched ->
                         outcome (enrichSingleItem w item) = Ok t) /\
              (forall t, outcome (enrichTV w item) = Ok t ->
                         confidence t = unmatched ->
                         outcome (enrichSingleItem w item)
                         = Ok (buildUnmatched item))) /\
   (Exists is_tv_request (trace (enrichSingleItem w item)) <->
    exists m, outcome (enrichMovie w item) = Ok m /\ confidence m = unmatched)) /\
  (llm_type item = vinyl \/ llm_type item = game \/ llm_type item = other ->
   enrichSingleItem w item = ret (buildUnmatched item) /\
   trace (enrichSingleItem w item) = []).
Proof.
  split.
  - intros Hd. unfold enrichSingleItem. rewrite Hd.
    split; [|split].
    + intros m Hm Hc.
      rewrite <- (bind_ret_r (enrichMovie w item)) at 2.
      unfold bind. rewrite Hm.
      destruct (confidence m); cbn; congruence.
    + intros m Hm Hc. rewrite trace_bind, outcome_bind, Hm, Hc.
      cbn [is_unmatched negb].
      split; [|split].
      * rewrite trace_bind.
        destruct (outcome (enrichTV w item)) as [t|e]; [|reflexivity].
        destruct (is_unmatched (confidence t)); cbn; rewrite app_nil_r;
          reflexivity.
      * intros t Ht Hct. rewrite outcome_bind, Ht.
        destruct (confidence t); cbn; congruence.
      * intros t Ht Hct. rewrite outcome_bind, Ht, Hct. reflexivity.
    + rewrite trace_bind. split.
      * destruct (outcome (enrichMovie w item)) as [m|e] eqn:Hm.
        -- intros H. apply Exists_app in H. destruct H as [H|H].
           ++ exfalso. exact (enrichMovie_no_tv_request w item H).
           ++ exists m. split; [reflexivity|].
              destruct (confidence m); cbn in H;
                solve [reflexivity | inversion H].
        -- intros H. exfalso. exact (enrichMovie_no_tv_request w item H).
      * intros (m & Hm & Hc). rewrite Hm, Hc. cbn [is_unmatched negb].
        apply Exists_app. right. rewrite trace_bind.
        destruct (outcome (enrichTV w item)) as [t|e].
        -- apply Exists_app. left. apply enrichTV_has_tv_request.
        -- apply enrichTV_has_tv_request.
  - intros H. unfold enrichSingleItem.
    destruct H as [->|[->| ->]]; split; reflexivity.
Qed.

Lemma dispatch_by_kind_witness :
  Exists is_tv_request
         (trace (enrichSingleItem Sample.world
                   (Sample.item "Breaking Bad - Season 1" dvd (Some 2008)))) <->
  exists m,
    outcome (enrichMovie Sample.world
               (Sample.item "Breaking Bad - Season 1" dvd (Some 2008))) = Ok m /\
    confidence m = unmatched.
Proof.
  apply (proj1 (dispatch_by_kind Sample.world
                  (Sample.item "Breaking Bad - Season 1" dvd (Some 2008)))).
  reflexivity.
Defined.

(** Scenario D of the specification: a disc that fails the movie match
    and succeeds as TV ends as the TV match, [high], from the catalog. *)
Example disc_falls_back_to_tv :
  match outcome (enrichSingleItem Sample.world
                   (Sample.item "Breaking Bad - Season 1" dvd (Some 2008))) with
  | Ok e => (type e, confidence e, source e, tmdbId e)
            = (tv, high, tmdb, Some 1396)
  | Throw _ => False
  end.
Proof. vm_compute. reflexivity. Qed.

(** ** Supplemental catalog resolution *)

Lemma outcome_try_catch {A} (m h : M A) :
  outcome (try_catch m h)
  = match outcome m with Ok a => Ok a | Throw _ => outcome h end.
Proof. unfold try_catch. destruct (outcome m) eqn:E; cbn; congruence. Qed.

Lemma trace_try_catch {A} (m h : M A) :
  trace (try_catch m h)
  = match outcome m with Ok _ => trace m | Throw _ => trace m ++ trace h end.
Proof. unfold try_catch. destruct (outcome m); reflexivity. Qed.

Lemma getToken_unconfigured w :
  Tvdb.isTVDBConfigured w = false ->
  Tvdb.getToken w = throw "TVDB_API_KEY environment variable is not configured".
Proof.
  unfold Tvdb.isTVDBConfigured, Tvdb.getToken. intros ->. reflexivity.
Qed.

Lemma trace_getToken w : trace (Tvdb.getToken w) = [].
Proof. unfold Tvdb.getToken. destruct (configured _); reflexivity. Qed.

Lemma trace_http {A} req (answer : Fetch A) : trace (Tvdb.http req answer) = [req].
Proof. reflexivity. Qed.

(** The title searches never throw. *)
Lemma searchTVDB_ok kind w title year :
  exists o, outcome (Tvdb.searchTVDB kind w title year) = Ok o.
Proof.
  unfold Tvdb.searchTVDB. rewrite outcome_try_catch.
  destruct (outcome _); cbn; eauto.
Qed.

Lemma legacy_searchTVDB_ok kind w title year :
  exists o, outcome (TvdbLegacy.searchTVDB kind w title year) = Ok o.
Proof.
  unfold TvdbLegacy.searchTVDB. rewrite outcome_try_catch.
  destruct (outcome _); cbn; eauto.
Qed.

Lemma findTVDBByImdbId_ok w id :
  exists o, outcome (Tvdb.findTVDBByImdbId w id) = Ok o.
Proof.
  unfold Tvdb.findTVDBByImdbId. rewrite outcome_try_catch.
  destruct (outcome _); cbn; eauto.
Qed.

Lemma legacy_findTVDBByImdbId_ok w id :
  exists o, outcome (TvdbLegacy.findTVDBByImdbId w id) = Ok o.
Proof.
  unfold TvdbLegacy.findTVDBByImdbId. rewrite outcome_try_catch.
  destruct (outcome _); cbn; eauto.
Qed.

(** The direct lookup only talks to the remote-id endpoints. *)
Lemma findTVDBByImdbId_trace w id :
  Forall is_remote_id_request (trace (Tvdb.findTVDBByImdbId w id)).
Proof.
  unfold Tvdb.findTVDBByImdbId.
  rewrite trace_try_catch. cbn [ret trace]. 
  assert (Forall is_remote_id_request
            (trace (_token <- Tvdb.getToken w ;;
                    searchResponse <- Tvdb.http (TvdbSearchRemoteId id)
                                                (tvdb_search_remote_id w id) ;;
                    match
                      match searchResponse with
                      | Some searchData => Tvdb.by_search (default [] searchData)
                      | None => None
                      end
                    with
                    | Some hit => ret (Some hit)
                    | None =>
                        remoteIdResponse <- Tvdb.http (TvdbRemoteIdPath id)
                                                      (tvdb_remoteid_path w id) ;;
                        match remoteIdResponse with
                        | None => ret None
                        | Some remoteIdData =>
                            ret (Tvdb.first_nested (default [] remoteIdData))
                        end
                    end))) as H.
  { rewrite trace_bind, trace_getToken.
    destruct (outcome (Tvdb.getToken w)); [|constructor]. cbn [app].
    rewrite trace_bind, trace_http.
    destruct (outcome (Tvdb.http _ _)) as [resp|]; [|repeat constructor].
    constructor; [exact I|].
    destruct (match resp with Some _ => _ | None => _ end); [constructor|].
    rewrite trace_bind, trace_http.
    destruct (outcome (Tvdb.http _ _)) as [[r|]|]; repeat constructor. }
  destruct (outcome _); [exact H|]. rewrite app_nil_r. exact H.
Qed.

Lemma findTVDBByImdbId_some_configured w id hit :
  outcome (Tvdb.findTVDBByImdbId w id) = Ok (Some hit) ->
  Tvdb.isTVDBConfigured w = true.
Proof.
  destruct (Tvdb.isTVDBConfigured w) eqn:E; [reflexivity|].
  unfold Tvdb.findTVDBByImdbId.
  rewrite (getToken_unconfigured w E). cbn. discriminate.
Qed.

Lemma legacy_findTVDBByImdbId_some_configured w id hit :
  outcome (TvdbLegacy.findTVDBByImdbId w id) = Ok (Some hit) ->
  TvdbLegacy.isTVDBConfigured w = true.
Proof.
  unfold TvdbLegacy.isTVDBConfigured.
  destruct (Tvdb.isTVDBConfigured w) eqn:E; [reflexivity|].
  unfold TvdbLegacy.findTVDBByImdbId, TvdbLegacy.getToken.
  rewrite (getToken_unconfigured w E). cbn. discriminate.
Qed.

Lemma legacy_findTVDBByImdbId_trace w id :
  Forall is_remote_id_request (trace (TvdbLegacy.findTVDBByImdbId w id)).
Proof.
  unfold TvdbLegacy.findTVDBByImdbId, TvdbLegacy.getToken.
  rewrite trace_try_catch. cbn [ret trace].
  assert (Forall is_remote_id_request
            (trace (_token <- Tvdb.getToken w ;;
                    response <- Tvdb.http (TvdbRemoteIdPath id)
                                          (tvdb_remoteid_path w id) ;;
                    match response with
                    | None => ret None
                    | Some data => ret (TvdbLegacy.first_nested (default [] data))
                    end))) as H.
  { rewrite trace_bind, trace_getToken.
    destruct (outcome (Tvdb.getToken w)); [|constructor]. cbn [app].
    rewrite trace_bind, trace_http.
    destruct (outcome (Tvdb.http _ _)) as [[r|]|]; repeat constructor. }
  destruct (outcome _); [exact H|]. rewrite app_nil_r. exact H.
Qed.

Lemma no_title_search_of_remote (l : list request) :
  Forall is_remote_id_request l -> Forall (fun r => ~ is_title_search r) l.
Proof.
  intros H. eapply Forall_impl; [exact H|]. intros []; cbn; tauto.
Qed.

(** [resolveTVDBId] always returns, with at most one id. *)
Lemma resolveTVDBId_ok w title year imdbId type :
  exists o : option Z, outcome (Tvdb.resolveTVDBId w title year imdbId type) = Ok o.
Proof.
  unfold Tvdb.resolveTVDBId.
  destruct (negb (Tvdb.isTVDBConfigured w)); [cbn; eauto|].
  rewrite outcome_bind.
  assert (exists d, outcome (if truthy_ostr imdbId
                             then Tvdb.findTVDBByImdbId w (default [] imdbId)
                             else ret None) = Ok d) as [d ->].
  { destruct (truthy_ostr imdbId); [apply findTVDBByImdbId_ok|cbn; eauto]. }
  destruct d as [hit|]; [cbn; eauto|].
  destruct type; try apply searchTVDB_ok.
  - rewrite outcome_bind.
    destruct (searchTVDB_ok series w (extractSeriesName title) year) as [o Ho].
    unfold Tvdb.searchTVDBSeries. rewrite Ho.
    destruct o; [cbn; eauto|].
    destruct (negb _); [apply searchTVDB_ok|cbn; eauto].
  - rewrite outcome_bind.
    destruct (searchTVDB_ok movie_kind w title year) as [o Ho].
    unfold Tvdb.searchTVDBMovie. rewrite Ho.
    destruct o; [cbn; eauto|]. apply searchTVDB_ok.
  - rewrite outcome_bind.
    destruct (searchTVDB_ok movie_kind w title year) as [o Ho].
    unfold Tvdb.searchTVDBMovie. rewrite Ho.
    destruct o; [cbn; eauto|]. apply searchTVDB_ok.
  - rewrite outcome_bind.
    destruct (searchTVDB_ok movie_kind w title year) as [o Ho].
    unfold Tvdb.searchTVDBMovie. rewrite Ho.
    destruct o; [cbn; eauto|]. apply searchTVDB_ok.
  - rewrite outcome_bind.
    destruct (searchTVDB_ok movie_kind w title year) as [o Ho].
    unfold Tvdb.searchTVDBMovie. rewrite Ho.
    destruct o; [cbn; eauto|]. apply searchTVDB_ok.
Qed.

(** C6: when an IMDB id is available and the direct lookup returns a
    result, [resolveTVDBId] returns that result's id and issues exactly
    the requests of the direct lookup, none of them a title search; and
    every resolution returns at most one id.  Both versions of the
    adapter behave so. *)
Theorem direct_lookup_wins (w : World) (title : jsstring) (year : option jsnum)
        (id : jsstring) (type : ItemType) :
  (forall hit,
      truthy_str id = true ->
      outcome (Tvdb.findTVDBByImdbId w id) = Ok (Some hit) ->
      outcome (Tvdb.resolveTVDBId w title year (Some id) type) = Ok (Some (fst hit)) /\
      trace (Tvdb.resolveTVDBId w title year (Some id) type)
      = trace (Tvdb.findTVDBByImdbId w id) /\
      Forall (fun r => ~ is_title_search r)
             (trace (Tvdb.resolveTVDBId w title year (Some id) type))) /\
  (forall hit,
      truthy_str id = true ->
      outcome (TvdbLegacy.findTVDBByImdbId w id) = Ok (Some hit) ->
      outcome (TvdbLegacy.resolveTVDBId w title year (Some id) type)
      = Ok (Some (fst hit)) /\
      trace (TvdbLegacy.resolveTVDBId w title year (Some id) type)
      = trace (TvdbLegacy.findTVDBByImdbId w id) /\
      Forall (fun r => ~ is_title_search r)
             (trace (TvdbLegacy.resolveTVDBId w title year (Some id) type))) /\
  (forall imdbId,
      exists o : option Z,
        outcome (Tvdb.resolveTVDBId w title year imdbId type) = Ok o).
Proof.
  split; [|split].
  - intros hit Hid Hfind.
    assert (trace (Tvdb.resolveTVDBId w title year (Some id) type)
            = trace (Tvdb.findTVDBByImdbId w id)) as Htr.
    { unfold Tvdb.resolveTVDBId.
      rewrite (findTVDBByImdbId_some_configured w id hit Hfind).
      cbn [negb truthy_ostr]. rewrite Hid. cbv iota.
      change (default [] (Some id)) with id.
      rewrite trace_bind, Hfind. apply app_nil_r. }
    split; [|split; [exact Htr|]].
    + unfold Tvdb.resolveTVDBId.
      rewrite (findTVDBByImdbId_some_configured w id hit Hfind).
      cbn [negb truthy_ostr]. rewrite Hid. cbv iota.
      change (default [] (Some id)) with id.
      rewrite outcome_bind, Hfind. reflexivity.
    + rewrite Htr. apply no_title_search_of_remote, findTVDBByImdbId_trace.
  - intros hit Hid Hfind.
    assert (trace (TvdbLegacy.resolveTVDBId w title year (Some id) type)
            = trace (TvdbLegacy.findTVDBByImdbId w id)) as Htr.
    { unfold TvdbLegacy.resolveTVDBId.
      rewrite (legacy_findTVDBByImdbId_some_configured w id hit Hfind).
      cbn [negb truthy_ostr]. rewrite Hid. cbv iota.
      change (default [] (Some id)) with id.
      rewrite trace_bind, Hfind. apply app_nil_r. }
    split; [|split; [exact Htr|]].
    + unfold TvdbLegacy.resolveTVDBId.
      rewrite (legacy_findTVDBByImdbId_some_configured w id hit Hfind).
      cbn [negb truthy_ostr]. rewrite Hid. cbv iota.
      change (default [] (Some id)) with id.
      rewrite outcome_bind, Hfind. reflexivity.
    + rewrite Htr. apply no_title_search_of_remote, legacy_findTVDBByImdbId_trace.
  - intros imdbId. apply resolveTVDBId_ok.
Qed.

Lemma direct_lookup_wins_witness :
  outcome (Tvdb.resolveTVDBId Sample.world (js "Some Other Title") None
             (Some (js "tt0903747")) tv) = Ok (Some 81189) /\
  trace (Tvdb.resolveTVDBId Sample.world (js "Some Other Title") None
           (Some (js "tt0903747")) tv)
  = trace (Tvdb.findTVDBByImdbId Sample.world (js "tt0903747")) /\
  Forall (fun r => ~ is_title_search r)
         (trace (Tvdb.resolveTVDBId Sample.world (js "Some Other Title") None
                   (Some (js "tt0903747")) tv)).
Proof.
  apply (proj1 (direct_lookup_wins Sample.world (js "Some Other Title") None
                  (js "tt0903747") tv) (81189, series)).
  - reflexivity.
  - vm_compute. reflexivity.
Defined.

(** ** The acceptance threshold of the supplemental title search *)

Section ScoredSearch.
Local Open Scope Q_scope.
Variables (title : jsstring) (year : option jsnum).

Let score := Tvdb.scoreTVDBResult title year.

Lemma pick_fold_inv results b0 s0 b s :
  fold_left (Tvdb.pick_step title year) results (b0, s0) = (b, s) ->
  s0 <= s /\
  (forall r, In r results -> score r <= s) /\
  ((b = b0 /\ s = s0) \/
   (exists r, In r results /\ b = Some r /\ score r = s)).
Proof.
  revert b0 s0. induction results as [|r rs IH]; intros b0 s0; cbn [fold_left].
  - intros [= <- <-]. split; [apply Qle_refl|]. split; [intros r []|].
    left. tauto.
  - unfold Tvdb.pick_step at 2. cbn [snd]. fold score.
    destruct (q_lt s0 (score r)) eqn:Hlt; intros H; apply IH in H;
      destruct H as (Hle & Hall & Hsel).
    + apply q_lt_iff in Hlt.
      split; [apply Qlt_le_weak; eapply Qlt_le_trans; eauto|].
      split.
      * intros r' [<-|Hin]; [exact Hle|auto].
      * right. destruct Hsel as [[-> ->]|(r' & Hin & -> & Hr')].
        -- exists r. cbn. tauto.
        -- exists r'. cbn. tauto.
    + apply q_lt_false in Hlt. split; [exact Hle|]. split.
      * intros r' [<-|Hin]; [eapply Qle_trans; eauto|auto].
      * destruct Hsel as [?|(r' & Hin & -> & Hr')]; [left; assumption|].
        right. exists r'. cbn. tauto.
Qed.

(** The adapter with scoring accepts a candidate only at 0.50 or more,
    and the accepted candidate has the highest score. *)
Lemma pickBestResult_threshold results r :
  Tvdb.pickBestResult title year results = Some r ->
  In r results /\ 5 # 10 <= score r /\
  (forall r', In r' results -> score r' <= score r).
Proof.
  unfold Tvdb.pickBestResult. destruct results as [|r0 rs]; [discriminate|].
  destruct (fold_left _ _ _) as [b s] eqn:Hfold.
  apply pick_fold_inv in Hfold. destruct Hfold as (_ & Hall & Hsel).
  destruct (q_lt s (5 # 10)) eqn:Hlt; [discriminate|].
  apply q_lt_false in Hlt. intros ->.
  destruct Hsel as [[? _]|(r' & Hin & [= <-] & Hr')]; [discriminate|].
  rewrite Hr'. auto.
Qed.

Lemma scored_search_threshold kind w id :
  outcome (Tvdb.searchTVDB kind w title year) = Ok (Some id) ->
  exists results r,
    tvdb_search w title kind (Tvdb.year_param year) = FetchData (Some results) /\
    In r results /\ Tvdb.extractTVDBId r = Some id /\
    5 # 10 <= score r /\
    (forall r', In r' results -> score r' <= score r).
Proof.
  unfold Tvdb.searchTVDB. rewrite outcome_try_catch, outcome_bind.
  destruct (outcome (Tvdb.getToken w)); [|discriminate].
  rewrite outcome_bind. unfold Tvdb.http at 1. cbn [outcome].
  destruct (tvdb_search w title kind (Tvdb.year_param year))
    as [| |[results|]]; cbn; try discriminate.
  destruct results as [|r0 rs]; [discriminate|]. cbn [default].
  destruct (Tvdb.pickBestResult title year (r0 :: rs)) as [best|] eqn:Hpick;
    cbn; [|discriminate].
  intros [= Hid]. apply pickBestResult_threshold in Hpick.
  exists (r0 :: rs), best. tauto.
Qed.
End ScoredSearch.

(** C8: the title search of src/lib/tvdb.ts returns the first result's
    id although that candidate scores below 0.50; the scored adapter
    rejects the same answer. *)
Theorem legacy_title_search_skips_threshold :
  tvdb_search Sample.world (js "Inception") series None
  = FetchData (Some [Sample.tvdbUnrelated]) /\
  (Tvdb.scoreTVDBResult (js "Inception") None Sample.tvdbUnrelated < 5 # 10)%Q /\
  outcome (TvdbLegacy.searchTVDBSeries Sample.world (js "Inception") None)
  = Ok (Some 999) /\
  outcome (Tvdb.searchTVDBSeries Sample.world (js "Inception") None) = Ok None.
Proof. repeat split; vm_compute; reflexivity. Qed.

(** ** [enrichItems] position by position *)

Section PerItem.
Variable resolveTVDBId :
  World -> jsstring -> option jsnum -> option jsstring -> ItemType -> M (option Z).
Variable w : World.

Local Abbreviation settledOne := (settledOne w).
Local Abbreviation lookupOne := (lookupOne resolveTVDBId w).
Local Abbreviation assignOne := (assignOne resolveTVDBId w).
Local Abbreviation enrichedFor := (enrichedFor resolveTVDBId w).





Lemma mapM_ok {A B} (f : A -> M B) (g : A -> B) (l : list A) :
  (forall x, outcome (f x) = Ok (g x)) ->
  outcome (mapM f l) = Ok (map g l).
Proof.
  intros H. induction l as [|x l IH]; [reflexivity|].
  cbn [mapM map]. rewrite outcome_bind, H, outcome_bind, IH. reflexivity.
Qed.

Lemma collect_settled (pre items : list LLMIdentifiedItem) :
  collect (imap (fun i => settled_item (pre ++ items) (length pre + i))
                (map (fun item => outcome (enrichSingleItem w item)) items))
  = Ok (map settledOne items).
Proof.
  revert pre. induction items as [|x items IH]; intros pre; [reflexivity|].
  cbn [map imap].
  assert (settled_item (pre ++ x :: items) (length pre + 0)
                       (outcome (enrichSingleItem w x)) = Ok (settledOne x)) as ->.
  { unfold settled_item, settledOne.
    destruct (outcome (enrichSingleItem w x)); [reflexivity|].
    rewrite Nat.add_0_r, list_lookup_middle; reflexivity. }
  cbn [collect].
  rewrite (imap_ext _ (fun i => settled_item ((pre ++ [x]) ++ items)
                                             (length (pre ++ [x]) + i))).
  - rewrite IH. reflexivity.
  - intros i r _. cbn. rewrite <- app_assoc, length_app. cbn.
    f_equal. lia.
Qed.

Lemma tvdb_lookup_ok e :
  outcome (tvdb_lookup resolveTVDBId w e) = Ok (lookupOne e).
Proof.
  unfold tvdb_lookup, lookupOne.
  destruct (is_unmatched (confidence e)); reflexivity.
Qed.

(** The assignment loop from index [k] on. *)
Lemma tvdb_assign_from (l : list EnrichedItem) n k :
  (k + n = length l)%nat ->
  tvdb_assign (map lookupOne l) (seq k n) (map assignOne (take k l) ++ drop k l)
  = Ok (map assignOne l).
Proof.
  revert k. induction n as [|n IH]; intros k Hk.
  - cbn. rewrite take_ge, drop_ge by lia. rewrite app_nil_r. reflexivity.
  - cbn [seq tvdb_assign].
    destruct (lookup_lt_is_Some_2 l k) as [e He]; [lia|].
    rewrite list_lookup_fmap, He. cbn [fmap option_fmap option_map].
    assert ((map assignOne (take k l) ++ drop k l) !! k = Some e) as Hcur.
    { rewrite lookup_app_r; rewrite length_map, length_take; [|lia].
      replace (k - k `min` length l)%nat with 0%nat by lia.
      rewrite lookup_drop, Nat.add_0_r. exact He. }
    rewrite Hcur.
    assert (map assignOne (take (S k) l) ++ drop (S k) l
            = <[k := assignOne e]> (map assignOne (take k l) ++ drop k l)) as Hstep.
    { rewrite (take_S_r _ _ _ He), map_app. cbn [map].
      rewrite (drop_S _ _ _ He), <- app_assoc. cbn [app].
      rewrite insert_app_r_alt; rewrite length_map, length_take; [|lia].
      replace (k - k `min` length l)%nat with 0%nat by lia. reflexivity. }
    specialize (IH (S k) ltac:(lia)).
    destruct (lookupOne e) as [[value|]|msg] eqn:Hl.
    + replace (set_tvdbId (Some value) e) with (assignOne e)
        by (unfold assignOne; rewrite Hl; reflexivity).
      rewrite <- Hstep. exact IH.
    + replace (assignOne e) with e in Hstep
        by (unfold assignOne; rewrite Hl; reflexivity).
      rewrite list_insert_id in Hstep by exact Hcur.
      rewrite <- Hstep. exact IH.
    + replace (assignOne e) with e in Hstep
        by (unfold assignOne; rewrite Hl; reflexivity).
      rewrite list_insert_id in Hstep by exact Hcur.
      rewrite <- Hstep. exact IH.
Qed.

Lemma tvdb_assign_all (l : list EnrichedItem) :
  tvdb_assign (map lookupOne l) (seq 0 (length l)) l = Ok (map assignOne l).
Proof.
  pose proof (tvdb_assign_from l (length l) 0 eq_refl) as H.
  rewrite take_0, drop_0 in H. exact H.
Qed.

Lemma outcome_loadGenreCache : outcome (loadGenreCache w) = Ok tt.
Proof. unfold loadGenreCache. destruct (genreCacheLoaded w); reflexivity. Qed.

(** With the API key configured, [enrichItems] returns the enrichment
    of every input, in order. *)
Lemma enrichItems_map items tvdbApiKey :
  isTMDBConfigured w = true ->
  outcome (enrichItems resolveTVDBId w items tvdbApiKey)
  = Ok (map (enrichedFor tvdbApiKey) items).
Proof.
  intros Hkey. unfold enrichItems, getTmdbApiKey.
  unfold isTMDBConfigured in Hkey. rewrite Hkey.
  rewrite outcome_bind. cbn [ret outcome].
  rewrite outcome_bind, outcome_loadGenreCache.
  rewrite outcome_bind.
  rewrite (mapM_ok _ (fun item => outcome (enrichSingleItem w item)))
    by reflexivity.
  rewrite outcome_bind. unfold lift at 1. cbn [outcome].
  assert (collect (imap (settled_item items)
                        (map (fun item => outcome (enrichSingleItem w item)) items))
          = Ok (map settledOne items)) as Hc
      by exact (collect_settled [] items).
  rewrite Hc.
  unfold enrichedFor.
  destruct (truthy_ostr tvdbApiKey || Tvdb.isTVDBConfigured w).
  - rewrite outcome_bind.
    rewrite (mapM_ok _ lookupOne) by apply tvdb_lookup_ok.
    unfold lift. cbn [outcome]. rewrite length_map.
    replace (length items) with (length (map settledOne items))
      by apply length_map.
    rewrite tvdb_assign_all, map_map. reflexivity.
  - reflexivity.
Qed.

Lemma enrichItems_unconfigured items tvdbApiKey :
  isTMDBConfigured w = false ->
  exists msg, outcome (enrichItems resolveTVDBId w items tvdbApiKey) = Throw msg.
Proof.
  intros Hkey. unfold enrichItems, getTmdbApiKey.
  unfold isTMDBConfigured in Hkey. rewrite Hkey. cbn. eauto.
Qed.

(** An unmatched record stays as [buildUnmatched] made it. *)
Lemma enrichMovie_unmatched item e :
  outcome (enrichMovie w item) = Ok e ->
  confidence e = unmatched -> e = buildUnmatched item.
Proof.
  unfold enrichMovie. rewrite outcome_bind.
  destruct (outcome (searchTMDBMovies _ _ _)) as [[|c rs]|]; try discriminate.
  - cbn. congruence.
  - rewrite outcome_bind. unfold lift at 1. cbn [outcome].
    destruct (scoreLoop _ _ _ _ _ _) as [[[b|] s]|]; try discriminate.
    + destruct (scoreToConfidence s) eqn:Hc; cbn; try congruence;
        intros [= <-]; cbn; congruence.
    + cbn. congruence.
Qed.

Lemma enrichTV_unmatched item e :
  outcome (enrichTV w item) = Ok e ->
  confidence e = unmatched -> e = buildUnmatched item.
Proof.
  unfold enrichTV. rewrite outcome_bind.
  destruct (outcome (searchTV _ _)) as [[|c rs]|]; try discriminate.
  - cbn. congruence.
  - rewrite outcome_bind. unfold lift at 1. cbn [outcome].
    destruct (scoreLoop _ _ _ _ _ _) as [[[b|] s]|]; try discriminate.
    + destruct (scoreToConfidence s) eqn:Hc; cbn; try congruence;
        intros [= <-]; cbn; congruence.
    + cbn. congruence.
Qed.

Lemma is_unmatched_iff c : is_unmatched c = true <-> c = unmatched.
Proof. destruct c; cbn; split; congruence. Qed.

Lemma enrichSingleItem_unmatched item e :
  outcome (enrichSingleItem w item) = Ok e ->
  confidence e = unmatched -> e = buildUnmatched item.
Proof.
  unfold enrichSingleItem. destruct (llm_type item);
    try (cbn; congruence).
  - apply enrichMovie_unmatched.
  - apply enrichTV_unmatched.
  - rewrite outcome_bind.
    destruct (outcome (enrichMovie w item)) as [m|]; [|discriminate].
    destruct (is_unmatched (confidence m)) eqn:Hm; cbn [negb].
    + rewrite outcome_bind.
      destruct (outcome (enrichTV w item)) as [t|]; [|discriminate].
      destruct (is_unmatched (confidence t)) eqn:Ht; cbn; [congruence|].
      intros [= <-] Hc. apply is_unmatched_iff in Hc. congruence.
    + cbn. intros [= <-] Hc. apply is_unmatched_iff in Hc. congruence.
Qed.

Lemma settledOne_unmatched item :
  confidence (settledOne item) = unmatched ->
  settledOne item = buildUnmatched item.
Proof.
  unfold settledOne.
  destruct (outcome (enrichSingleItem w item)) eqn:H; [|reflexivity].
  apply enrichSingleItem_unmatched. exact H.
Qed.

Lemma confidence_assignOne e : confidence (assignOne e) = confidence e.
Proof.
  unfold assignOne. destruct (lookupOne e) as [[v|]|]; reflexivity.
Qed.

Lemma assignOne_unmatched e : confidence e = unmatched -> assignOne e = e.
Proof.
  intros H. unfold assignOne, lookupOne. rewrite H. reflexivity.
Qed.

Lemma enrichedFor_unmatched key item :
  confidence (enrichedFor key item) = unmatched ->
  enrichedFor key item = buildUnmatched item.
Proof.
  unfold enrichedFor. destruct (_ || _).
  - rewrite confidence_assignOne. intros H.
    rewrite assignOne_unmatched by exact H. apply settledOne_unmatched, H.
  - apply settledOne_unmatched.
Qed.

Lemma enrichedFor_thrown key item msg :
  outcome (enrichSingleItem w item) = Throw msg ->
  enrichedFor key item = buildUnmatched item.
Proof.
  intros H. apply enrichedFor_unmatched.
  unfold enrichedFor, settledOne. rewrite H.
  destruct (_ || _); [rewrite confidence_assignOne|]; reflexivity.
Qed.
End PerItem.

(** C3: with the key of the primary catalog configured, [enrichItems]
    returns, for every input list, the list of the enrichments of its
    inputs: one item per input, in input order, the item at position [i]
    being the enrichment of input [i] ([enrichedFor]: the result of
    [enrichSingleItem], or the unmatched record when it throws, with the
    supplemental id assigned), which no other input takes part in; when
    the resolution of input [i] throws, position [i] holds the unmatched
    record built from it.  Without the key the call throws and returns
    no item. *)
Theorem enrichItems_index_aligned
        (resolveTVDBId : World -> jsstring -> option jsnum -> option jsstring ->
                         ItemType -> M (option Z))
        (w : World) (items : list LLMIdentifiedItem) (tvdbApiKey : option jsstring) :
  (isTMDBConfigured w = false ->
   outcome (enrichItems resolveTVDBId w items tvdbApiKey)
   = Throw "TMDB_API_KEY environment variable is not configured") /\
  (isTMDBConfigured w = true ->
   exists out,
     outcome (enrichItems resolveTVDBId w items tvdbApiKey) = Ok out /\
     out = map (enrichedFor resolveTVDBId w tvdbApiKey) items /\
     length out = length items /\
     (forall i item,
         items !! i = Some item ->
         out !! i = Some (enrichedFor resolveTVDBId w tvdbApiKey item) /\
         outcome (enrichItems resolveTVDBId w [item] tvdbApiKey)
         = Ok [enrichedFor resolveTVDBId w tvdbApiKey item]) /\
     (forall i item msg,
         items !! i = Some item ->
         outcome (enrichSingleItem w item) = Throw msg ->
         out !! i = Some (buildUnmatched item)) /\
     (forall items' out',
         outcome (enrichItems resolveTVDBId w items' tvdbApiKey) = Ok out' ->
         forall i, items' !! i = items !! i -> out' !! i = out !! i)).
Proof.
  split.
  { intros Hkey. unfold enrichItems, getTmdbApiKey.
    unfold isTMDBConfigured in Hkey. rewrite Hkey. reflexivity. }
  intros Hkey. exists (map (enrichedFor resolveTVDBId w tvdbApiKey) items).
  split; [apply enrichItems_map, Hkey|].
  split; [reflexivity|].
  split; [apply length_map|].
  split; [|split].
  - intros i item Hi. split.
    + rewrite list_lookup_fmap, Hi. reflexivity.
    + rewrite enrichItems_map by exact Hkey. reflexivity.
  - intros i item msg Hi Hthrow.
    rewrite list_lookup_fmap, Hi. cbn.
    rewrite (enrichedFor_thrown _ _ _ _ _ Hthrow). reflexivity.
  - intros items' out' Hout' i Hi.
    rewrite enrichItems_map in Hout' by exact Hkey. injection Hout' as <-.
    rewrite !list_lookup_fmap, Hi. reflexivity.
Qed.

Lemma enrichItems_index_aligned_witness :
  exists out,
    outcome (enrichItems Tvdb.resolveTVDBId Sample.world
               [Sample.item "Inception" movie (Some 2010);
                Sample.item "Broken" movie None;
                Sample.item "Abbey Road" vinyl None] None) = Ok out /\
    map confidence out = [high; unmatched; unmatched] /\
    map tmdbId out = [Some 27205%Z; None; None].
Proof.
  destruct (proj2 (enrichItems_index_aligned Tvdb.resolveTVDBId Sample.world
                     [Sample.item "Inception" movie (Some 2010);
                      Sample.item "Broken" movie None;
                      Sample.item "Abbey Road" vinyl None] None) eq_refl)
    as (out & Hout & -> & _).
  eexists. split; [exact Hout|]. split; vm_compute; reflexivity.
Defined.

(** Index alignment needs the key: called without it, as the single-item
    edit may call it, [enrichItems] returns no item for three inputs. *)
Lemma enrichItems_throws_without_key :
  isTMDBConfigured world_without_tmdb_key = false /\
  outcome (enrichItems Tvdb.resolveTVDBId world_without_tmdb_key
             [Sample.item "Inception" movie (Some 2010);
              Sample.item "Broken" movie None;
              Sample.item "Abbey Road" vinyl None] None)
  = Throw "TMDB_API_KEY environment variable is not configured" /\
  ~ exists out,
      outcome (enrichItems Tvdb.resolveTVDBId world_without_tmdb_key
                 [Sample.item "Inception" movie (Some 2010);
                  Sample.item "Broken" movie None;
                  Sample.item "Abbey Road" vinyl None] None) = Ok out.
Proof.
  split; [reflexivity|]. split; [reflexivity|].
  intros [out H]. vm_compute in H. discriminate.
Qed.

(** The second sample item throws (its only candidate has no title) and
    is degraded to unmatched; its neighbours are resolved as usual. *)
Example one_item_throws :
  (exists msg, outcome (enrichSingleItem Sample.world (Sample.item "Broken" movie None))
               = Throw msg) /\
  match outcome (enrichItems Tvdb.resolveTVDBId Sample.world
                   [Sample.item "Inception" movie (Some 2010);
                    Sample.item "Broken" movie None;
                    Sample.item "Abbey Road" vinyl None] None) with
  | Ok out => map confidence out = [high; unmatched; unmatched]
  | Throw _ => False
  end.
Proof. split; [eexists|]; vm_compute; reflexivity. Qed.

(** Without the API key the call itself throws. *)
Lemma enrichItems_needs_key resolveTVDBId w items tvdbApiKey :
  isTMDBConfigured w = false ->
  exists msg, outcome (enrichItems resolveTVDBId w items tvdbApiKey) = Throw msg.
Proof. apply enrichItems_unconfigured. Qed.

(** An unmatched item is not looked up in the supplemental catalog. *)
Lemma unmatched_skips_supplemental resolveTVDBId w item :
  tvdb_lookup resolveTVDBId w (buildUnmatched item) = ret (Ok None).
Proof. reflexivity. Qed.

(** ** The unmatched invariant *)

Lemma buildUnmatched_null item :
  catalog_fields_null (buildUnmatched item) /\ source (buildUnmatched item) = none.
Proof. repeat split. Qed.

Lemma collect_imap_proj {A B} (f : nat -> A -> res B) (g : B -> A) l rows :
  (forall i a b, f i a = Ok b -> g b = a) ->
  collect (imap f l) = Ok rows -> map g rows = l.
Proof.
  revert f rows. induction l as [|a l IH]; intros f rows Hf; cbn.
  - intros [= <-]. reflexivity.
  - destruct (f 0%nat a) as [b|] eqn:Hb; [|discriminate].
    destruct (collect (imap (f ∘ S) l)) as [rest|] eqn:Hrest; [|discriminate].
    intros [= <-]. cbn. rewrite (Hf _ _ _ Hb). f_equal.
    apply (IH (f ∘ S)); [|exact Hrest]. intros i x y. apply Hf.
Qed.

Section Invariant.
Variable resolveTVDBId :
  World -> jsstring -> option jsnum -> option jsstring -> ItemType -> M (option Z).
Variable w : World.

Lemma enrichItems_invariant items key out :
  outcome (enrichItems resolveTVDBId w items key) = Ok out ->
  Forall unmatched_invariant out.
Proof.
  intros Hout.
  destruct (isTMDBConfigured w) eqn:Hkey.
  - rewrite enrichItems_map in Hout by exact Hkey. injection Hout as <-.
    apply Forall_forall. intros e He.
    apply list_elem_of_In, in_map_iff in He. destruct He as (item & <- & _).
    intros Hc. rewrite (enrichedFor_unmatched _ _ _ _ Hc).
    apply buildUnmatched_null.
  - destruct (enrichItems_unconfigured resolveTVDBId w items key Hkey)
      as [msg Hm]. congruence.
Qed.

Lemma enrichItems_length items key out :
  outcome (enrichItems resolveTVDBId w items key) = Ok out ->
  length out = length items.
Proof.
  intros Hout.
  destruct (isTMDBConfigured w) eqn:Hkey.
  - rewrite enrichItems_map in Hout by exact Hkey. injection Hout as <-.
    apply length_map.
  - destruct (enrichItems_unconfigured resolveTVDBId w items key Hkey)
      as [msg Hm]. congruence.
Qed.

Lemma plexMerge_invariant plexItems e :
  unmatched_invariant e ->
  unmatched_invariant_but_ids (plexMerge plexItems e).
Proof.
  intros He. unfold plexMerge.
  destruct (matched _).
  - destruct (_ && _); destruct (_ && _); cbn;
      intros Hc; destruct (He Hc) as [(_ & _ & H) Hs]; split; assumption.
  - intros Hc. destruct (He Hc) as [(_ & _ & H) Hs]. split; assumption.
Qed.

Lemma weaken_invariant e :
  unmatched_invariant e -> unmatched_invariant_but_ids e.
Proof. intros He Hc. destruct (He Hc) as [(_ & _ & H) Hs]. split; assumption. Qed.

Lemma crossReference_invariant enriched out :
  Forall unmatched_invariant enriched ->
  outcome (crossReference w enriched) = Ok out ->
  Forall unmatched_invariant_but_ids out.
Proof.
  intros Hall. unfold crossReference.
  assert (Forall unmatched_invariant_but_ids enriched) as Hweak.
  { eapply Forall_impl; [exact Hall|]. apply weaken_invariant. }
  destruct (isPlexConfigured w); [|cbn; congruence].
  rewrite outcome_try_catch, outcome_bind.
  unfold fetchAllPlexItems. cbn [outcome].
  destruct (plex_items w) as [plexItems|]; cbn; [|congruence].
  intros [= <-]. apply Forall_forall. intros e He.
  apply list_elem_of_In, in_map_iff in He. destruct He as (e0 & <- & He0).
  apply plexMerge_invariant.
  rewrite Forall_forall in Hall. apply Hall, list_elem_of_In, He0.
Qed.

Lemma crossReferenceOne_invariant e e' :
  unmatched_invariant e ->
  outcome (crossReferenceOne w e) = Ok e' ->
  unmatched_invariant_but_ids e'.
Proof.
  intros He. unfold crossReferenceOne.
  destruct (isPlexConfigured w);
    [|cbn; intros [= <-]; apply weaken_invariant, He].
  rewrite outcome_try_catch, outcome_bind.
  unfold fetchAllPlexItems. cbn [outcome].
  destruct (plex_items w) as [plexItems|]; cbn; intros [= <-].
  - apply plexMerge_invariant, He.
  - apply weaken_invariant, He.
Qed.
End Invariant.

(** C2, as amended: every item returned by [enrichItems] satisfies the
    invariant (unmatched: all catalog fields null, source none).  After
    the library cross-reference, in a scan and in a single-item edit, an
    unmatched item still has source none and null catalog fields other
    than [imdbId] and [tvdbId]. *)
Theorem unmatched_invariant_holds
        (resolveTVDBId : World -> jsstring -> option jsnum -> option jsstring ->
                         ItemType -> M (option Z))
        (w : World) (items : list LLMIdentifiedItem) :
  (forall key out,
      outcome (enrichItems resolveTVDBId w items key) = Ok out ->
      Forall unmatched_invariant out) /\
  (forall out,
      outcome (enrichAndCrossReference resolveTVDBId w items) = Ok out ->
      Forall unmatched_invariant_but_ids out) /\
  (forall rows,
      outcome (enrichAndSaveItems resolveTVDBId w items) = Ok rows ->
      Forall (fun row => unmatched_invariant_but_ids (row_item row)) rows) /\
  (forall title creator existing row,
      outcome (editItem resolveTVDBId w title creator existing) = Ok (Updated row) ->
      unmatched_invariant_but_ids (row_item row)).
Proof.
  assert (forall out,
             outcome (enrichAndCrossReference resolveTVDBId w items) = Ok out ->
             Forall unmatched_invariant_but_ids out) as Hcross.
  { intros out. unfold enrichAndCrossReference. rewrite outcome_bind.
    destruct (outcome (enrichItems resolveTVDBId w items None)) as [enriched|] eqn:He;
      [|discriminate].
    apply crossReference_invariant.
    exact (enrichItems_invariant resolveTVDBId w items None enriched He). }
  split; [intros key out; apply enrichItems_invariant|].
  split; [exact Hcross|].
  split.
  - intros rows. unfold enrichAndSaveItems. rewrite outcome_bind.
    pose proof Hcross as Hc.
    destruct (outcome (enrichAndCrossReference resolveTVDBId w items))
      as [enriched|]; [|discriminate].
    specialize (Hc enriched eq_refl). unfold lift. cbn [outcome].
    intros Hrows.
    apply (collect_imap_proj _ row_item) in Hrows.
    + rewrite <- Hrows in Hc. rewrite Forall_forall in Hc.
      apply Forall_forall. intros row Hrow. apply Hc.
      apply list_elem_of_In, in_map, list_elem_of_In, Hrow.
    + intros i e r. unfold save_row.
      destruct (items !! i); [|discriminate]. intros [= <-]. reflexivity.
  - intros ttl crt existing row. unfold editItem.
    destruct (negb (truthy_ostr ttl)); [discriminate|].
    destruct existing as [item|]; [|discriminate].
    rewrite outcome_try_catch, outcome_bind.
    set (llmItem := {| llm_title := default [] ttl;
                       llm_creator := default (Metadata.creator (row_item item)) crt;
                       llm_type := Metadata.type (row_item item);
                       llm_year := rawYear item |}).
    destruct (outcome (enrichItems resolveTVDBId w [llmItem] None))
      as [enriched|] eqn:He; [|discriminate].
    pose proof (enrichItems_invariant resolveTVDBId w [llmItem] None enriched He)
      as Hinv.
    rewrite outcome_bind.
    destruct enriched as [|e rest]; cbn [lookup list_lookup].
    + apply enrichItems_length in He. discriminate.
    + rewrite outcome_bind.
      destruct (outcome (crossReferenceOne w e)) as [e'|] eqn:Hx; cbn;
        [|discriminate].
      intros [= <-]. cbn [row_item updates].
      apply (crossReferenceOne_invariant w e e'); [|exact Hx].
      inversion Hinv. assumption.
Qed.

Lemma unmatched_invariant_holds_witness :
  Forall unmatched_invariant_but_ids
         match outcome (enrichAndCrossReference Tvdb.resolveTVDBId Sample.world
                          [Sample.item "Inception" movie (Some 2010);
                           Sample.item "Abbey Road" vinyl None]) with
         | Ok out => out
         | Throw _ => []
         end.
Proof.
  apply (proj1 (proj2 (unmatched_invariant_holds Tvdb.resolveTVDBId Sample.world
                         [Sample.item "Inception" movie (Some 2010);
                          Sample.item "Abbey Road" vinyl None]))).
  vm_compute. reflexivity.
Defined.

(** The invariant as the specification states it fails after the library
    cross-reference: an unmatched vinyl record that matches a library
    entry receives that entry's IMDB and TVDB ids. *)
Lemma unmatched_invariant_broken_by_library :
  exists e,
    outcome (enrichAndCrossReference Tvdb.resolveTVDBId Sample.world
               [Sample.item "Abbey Road" vinyl None]) = Ok [e] /\
    confidence e = unmatched /\
    imdbId e = Some (js "tt0000001") /\
    tvdbId e = Some 4242 /\
    ~ unmatched_invariant e.
Proof.
  eexists. split; [vm_compute; reflexivity|].
  split; [reflexivity|]. split; [reflexivity|]. split; [reflexivity|].
  intros H. destruct (H eq_refl) as [(Himdb & _) _]. discriminate Himdb.
Qed.

(** The same happens in the single-item edit. *)
Example edit_keeps_library_ids :
  match outcome (editItem Tvdb.resolveTVDBId Sample.world
                   (Some (js "Abbey Road")) None
                   (Some {| row_item := buildUnmatched (Sample.item "Abey Rd" vinyl None);
                            rawTitle := js "Abey Rd"; rawCreator := [];
                            rawType := vinyl; rawYear := None |})) with
  | Ok (Updated row) =>
      confidence (row_item row) = unmatched /\
      imdbId (row_item row) = Some (js "tt0000001")
  | _ => False
  end.
Proof. vm_compute. split; reflexivity. Qed.

(** ** The suffix stripper *)

Section MatcherFacts.
Context {A : Type}.

Lemma star_m_suffix p s (k : jsstring -> option A) a :
  star_m p s k = Some a ->
  exists s', k s' = Some a /\ (length s' <= length s)%nat.
Proof.
  induction s as [|x s IH]; cbn.
  - intros H. exists []. auto.
  - destruct (p x).
    + destruct (star_m p s k) as [a'|] eqn:E.
      * intros [= <-]. destruct (IH eq_refl) as (s' & Hk & Hl).
        exists s'. split; [exact Hk|lia].
      * intros H. exists (x :: s). auto.
    + intros H. exists (x :: s). auto.
Qed.

Lemma lazy_m_suffix p s (k : jsstring -> option A) a :
  lazy_m p s k = Some a ->
  exists s', k s' = Some a /\ (length s' <= length s)%nat.
Proof.
  induction s as [|x s IH]; cbn.
  - destruct (k []) eqn:E; [|discriminate]. intros [= <-]. exists []. auto.
  - destruct (k (x :: s)) eqn:E.
    + intros [= <-]. exists (x :: s). auto.
    + destruct (p x); [|discriminate]. intros H.
      destruct (IH H) as (s' & Hk & Hl). exists s'. split; [exact Hk|lia].
Qed.

(** Whatever [rmatch] hands to its continuation is shorter than the
    input by at least [minlen]. *)
Lemma rmatch_suffix r :
  forall s c (k : jsstring -> option jsstring -> option A) a,
    rmatch r s c k = Some a ->
    exists s' c', k s' c' = Some a /\ (length s' + minlen r <= length s)%nat.
Proof.
  induction r as [| |p|r1 IH1 r2 IH2|r1 IH1 r2 IH2|p|p| |r IH];
    intros s c k a; cbn [rmatch minlen].
  - intros H. exists s, c. split; [exact H|lia].
  - discriminate.
  - destruct s as [|x s]; [discriminate|]. destruct (p x); [|discriminate].
    intros H. exists s, c. split; [exact H|cbn; lia].
  - intros H. apply IH1 in H. destruct H as (s1 & c1 & H & Hl1).
    apply IH2 in H. destruct H as (s2 & c2 & H & Hl2).
    exists s2, c2. split; [exact H|lia].
  - destruct (rmatch r1 s c k) as [a'|] eqn:E.
    + intros [= <-]. apply IH1 in E. destruct E as (s1 & c1 & H & Hl).
      exists s1, c1. split; [exact H|lia].
    + intros H. apply IH2 in H. destruct H as (s2 & c2 & H & Hl).
      exists s2, c2. split; [exact H|lia].
  - intros H. apply star_m_suffix in H. destruct H as (s' & H & Hl).
    exists s', c. split; [exact H|lia].
  - intros H. apply lazy_m_suffix in H. destruct H as (s' & H & Hl).
    exists s', c. split; [exact H|lia].
  - destruct s; [|discriminate]. intros H. exists [], c. split; [exact H|cbn; lia].
  - intros H. apply IH in H. destruct H as (s' & c' & H & Hl). eauto.
Qed.
End MatcherFacts.




Lemma remove_first_none r s : search r s = None -> remove_first r s = s.
Proof. unfold remove_first. intros ->. reflexivity. Qed.

(** *** Trimming *)

Lemma trimStart_length s : (length (trimStart s) <= length s)%nat.
Proof.
  induction s as [|c s IH]; cbn; [lia|]. destruct (is_space c); cbn; lia.
Qed.

Lemma trimStart_clean s : starts_clean (trimStart s).
Proof.
  induction s as [|c s IH]; cbn; [exact I|].
  destruct (is_space c) eqn:E; [exact IH|exact E].
Qed.

Lemma trimStart_fixed s : starts_clean s -> trimStart s = s.
Proof. destruct s as [|c s]; cbn; [reflexivity|]. intros ->. reflexivity. Qed.

Lemma trimStart_same_length s :
  length (trimStart s) = length s -> trimStart s = s.
Proof.
  destruct s as [|c s]; cbn; [reflexivity|].
  destruct (is_space c); [|reflexivity].
  pose proof (trimStart_length s). cbn. lia.
Qed.

Lemma trimStart_spaces ws s :
  Forall (fun c => is_space c = true) ws -> trimStart (ws ++ s) = trimStart s.
Proof.
  induction 1 as [|c ws Hc _ IH]; [reflexivity|]. cbn. rewrite Hc. exact IH.
Qed.

Lemma trimStart_app_clean l c :
  is_space c = false -> exists u, trimStart (l ++ [c]) = u ++ [c].
Proof.
  intros Hc. induction l as [|x l IH]; cbn.
  - rewrite Hc. exists []. reflexivity.
  - destruct (is_space x); [exact IH|]. exists (x :: l). reflexivity.
Qed.

Lemma trimEnd_length s : (length (trimEnd s) <= length s)%nat.
Proof.
  unfold trimEnd. rewrite length_rev.
  pose proof (trimStart_length (rev s)). rewrite length_rev in H. exact H.
Qed.

Lemma trimEnd_same_length s : length (trimEnd s) = length s -> trimEnd s = s.
Proof.
  unfold trimEnd. rewrite length_rev. intros H.
  rewrite trimStart_same_length; [apply rev_involutive|].
  rewrite length_rev. exact H.
Qed.

Lemma trimEnd_idem s : trimEnd (trimEnd s) = trimEnd s.
Proof.
  unfold trimEnd. rewrite rev_involutive.
  rewrite (trimStart_fixed _ (trimStart_clean _)). reflexivity.
Qed.

Lemma trimEnd_keeps_start s : starts_clean s -> starts_clean (trimEnd s).
Proof.
  destruct s as [|c s]; [intros _; exact I|]. cbn [starts_clean]. intros Hc.
  unfold trimEnd. cbn [rev].
  destruct (trimStart_app_clean (rev s) c Hc) as [u ->].
  rewrite rev_app_distr. cbn. exact Hc.
Qed.

Lemma trimEnd_spaces s ws :
  Forall (fun c => is_space c = true) ws -> trimEnd (s ++ ws) = trimEnd s.
Proof.
  intros H. unfold trimEnd. rewrite rev_app_distr, trimStart_spaces; [reflexivity|].
  apply Forall_rev. exact H.
Qed.


Lemma trim_idem s : trim (trim s) = trim s.
Proof.
  unfold trim.
  rewrite (trimStart_fixed (trimEnd (trimStart s))).
  - apply trimEnd_idem.
  - apply trimEnd_keeps_start, trimStart_clean.
Qed.

Lemma trim_same_length s : length (trim s) = length s -> trim s = s.
Proof.
  unfold trim. intros H.
  pose proof (trimEnd_length (trimStart s)). pose proof (trimStart_length s).
  assert (trimStart s = s) as Hs by (apply trimStart_same_length; lia).
  rewrite Hs in *. apply trimEnd_same_length. exact H.
Qed.

Lemma trim_fixed s : trim s = s -> trimStart s = s /\ trimEnd s = s.
Proof.
  intros H. pose proof (trimEnd_length (trimStart s)).
  pose proof (trimStart_length s).
  assert (length (trim s) = length s) as Hl by (rewrite H; reflexivity).
  unfold trim in *.
  assert (trimStart s = s) as Hs by (apply trimStart_same_length; lia).
  rewrite Hs in *. split; [reflexivity|exact H].
Qed.

(** *** One pass over the patterns *)

Lemma stripSeasonSuffix_fold s :
  stripSeasonSuffix s = trim (strip_all seasonPatterns s).
Proof. reflexivity. Qed.








Example strip_twice_decorated :
  stripSeasonSuffix (js "Show (Season 1) - Season 2") = js "Show (Season 1)" /\
  stripSeasonSuffix (js "Show (Season 1)") = js "Show".
Proof. split; vm_compute; reflexivity. Qed.

Example documented_samples_idempotent :
  Forall (fun x => stripSeasonSuffix (stripSeasonSuffix x) = stripSeasonSuffix x)
         documented_samples.
Proof. repeat constructor. Qed.

(** ** Parsing the vision-model response *)

Lemma lit_fence_miss {A} s c (k : jsstring -> option jsstring -> option A) :
  startsWith (js "```") s = false -> rmatch (lit "```") s c k = None.
Proof.
  destruct s as [|x [|y [|z s]]]; cbn; try reflexivity.
  - destruct (ascii_eqb "`" x); reflexivity.
  - destruct (ascii_eqb "`" x); [|reflexivity].
    destruct (ascii_eqb "`" y); reflexivity.
  - destruct (ascii_eqb "`" x); [|reflexivity].
    destruct (ascii_eqb "`" y); [|reflexivity].
    destruct (ascii_eqb "`" z); [discriminate|reflexivity].
Qed.

Lemma startsWith_fence_cons x s :
  startsWith (js "```") (x :: s ++ js "```")
  = startsWith (js "```") (x :: s ++ js "``").
Proof. destruct s as [|y [|z s]]; cbn; reflexivity. Qed.

Lemma star_m_spaces {A} ws rest (k : jsstring -> option A) a :
  all_space ws -> starts_clean rest -> k rest = Some a ->
  star_m is_space (ws ++ rest) k = Some a.
Proof.
  intros Hws Hrest Hk. induction Hws as [|c ws Hc _ IH]; cbn.
  - destruct rest as [|x rest]; cbn; [exact Hk|].
    cbn in Hrest. rewrite Hrest. exact Hk.
  - rewrite Hc, IH. reflexivity.
Qed.

Lemma lazy_m_to_fence {A} s (k : jsstring -> option A) a :
  fence_free s ->
  (forall s', startsWith (js "```") s' = false -> k s' = None) ->
  k (js "```") = Some a ->
  lazy_m any_char (s ++ js "```") k = Some a.
Proof.
  intros Hfree Hmiss Hk. induction s as [|x s IH].
  - cbn [app]. change (js "```") with ["`"; "`"; "`"]%char in *.
    cbn [lazy_m]. rewrite Hk. reflexivity.
  - unfold fence_free in Hfree. cbn [app includes] in Hfree.
    apply orb_false_iff in Hfree. destruct Hfree as [Hhead Htail].
    cbn [app lazy_m].
    rewrite Hmiss by (rewrite startsWith_fence_cons; exact Hhead).
    cbn [any_char]. apply IH. exact Htail.
Qed.

Lemma ascii_eqb_refl c : ascii_eqb c c = true.
Proof. apply ascii_eqb_eq. reflexivity. Qed.

Lemma rmatch_lit_app {A} (w rest : jsstring) c
      (k : jsstring -> option jsstring -> option A) :
  rmatch (seqs (map chr w)) (w ++ rest) c k = k rest c.
Proof.
  induction w as [|x w IH]; [reflexivity|].
  cbn [map seqs foldr rmatch chr app]. rewrite ascii_eqb_refl. exact IH.
Qed.

Lemma search_here r s m : match_here r s = Some m -> search r s = Some m.
Proof. destruct s; cbn [search]; intros ->; reflexivity. Qed.

(** The fence pattern finds the payload and its trailing white space. *)
Lemma search_fenced tagged ws1 p ws2 :
  all_space ws1 -> starts_clean p -> p <> [] ->
  fence_free (p ++ ws2) ->
  (tagged = false -> startsWith (js "j") (ws1 ++ p) = false) ->
  search re_fence (fenced tagged ws1 p ws2)
  = Some (MatchAt [] (Some (p ++ ws2)) []).
Proof.
  intros Hws1 Hp Hne Hfree Htag.
  assert (forall c : option jsstring,
             rmatch (seqs [Star is_space; Cap (LazyStar any_char); lit "```"])
                    (ws1 ++ p ++ ws2 ++ js "```") c
                    (fun s' c' => Some (MatchAt [] c' s'))
             = Some (MatchAt [] (Some (p ++ ws2)) [])) as Hrest.
  { intros c. cbn [seqs foldr rmatch].
    apply star_m_spaces; [exact Hws1| |].
    - destruct p; [congruence|exact Hp].
    - rewrite (app_assoc p ws2). apply lazy_m_to_fence; [exact Hfree| |].
      + intros s' Hs'. apply lit_fence_miss. exact Hs'.
      + cbn. rewrite length_app. cbn.
        replace (length (p ++ ws2) + 3 - 0)%nat with (length (p ++ ws2) + 3)%nat by lia.
        rewrite Nat.add_sub, take_app_length. reflexivity. }
  apply search_here. unfold match_here, fenced, re_fence.
  change (seqs [lit "```"; Opt (lit "json"); Star is_space;
                Cap (LazyStar any_char); lit "```"])
    with (Seq (seqs (map chr (js "```")))
              (Seq (Alt (seqs (map chr (js "json"))) Eps)
                   (seqs [Star is_space; Cap (LazyStar any_char); lit "```"]))).
  cbn [rmatch]. rewrite rmatch_lit_app.
  destruct tagged.
  - rewrite rmatch_lit_app, Hrest. reflexivity.
  - specialize (Htag eq_refl). cbn [app].
    assert (rmatch (seqs (map chr (js "json"))) (ws1 ++ p ++ ws2 ++ js "```") None
              (fun s' c' =>
                 rmatch (seqs [Star is_space; Cap (LazyStar any_char); lit "```"])
                        s' c' (fun s'' c'' => Some (MatchAt [] c'' s'')))
            = None) as ->.
    { rewrite app_assoc. destruct (ws1 ++ p) as [|x t] eqn:E;
        [destruct ws1, p; cbn in E; congruence|].
      cbn in Htag. rewrite andb_true_r in Htag. cbn. rewrite Htag. reflexivity. }
    apply Hrest.
Qed.

Lemma JSON_parse_nil : JSON_parse [] = None.
Proof. reflexivity. Qed.

Lemma JSON_parse_backtick s : JSON_parse ("`"%char :: s) = None.
Proof.
  unfold JSON_parse.
  replace (2 * length ("`"%char :: s) + 2)%nat
    with (S (2 * length ("`"%char :: s) + 1))%nat by lia.
  reflexivity.
Qed.

Lemma JSON_parse_j s : JSON_parse ("j"%char :: s) = None.
Proof.
  unfold JSON_parse.
  replace (2 * length ("j"%char :: s) + 2)%nat
    with (S (2 * length ("j"%char :: s) + 1))%nat by lia.
  reflexivity.
Qed.

Lemma json_head_not_j p v x t :
  JSON_parse p = Some v -> p = x :: t -> ascii_eqb "j" x = false.
Proof.
  intros Hp ->. destruct (ascii_eqb "j" x) eqn:E; [|reflexivity].
  apply ascii_eqb_eq in E. subst x. rewrite JSON_parse_j in Hp. discriminate.
Qed.

Lemma space_not_j x : is_space x = true -> ascii_eqb "j" x = false.
Proof.
  intros Hx. destruct (ascii_eqb "j" x) eqn:E; [|reflexivity].
  apply ascii_eqb_eq in E. subst x. discriminate.
Qed.

Lemma tryParseJson_fenced tagged ws1 p ws2 v :
  all_space ws1 -> all_space ws2 -> trim p = p -> fence_free (p ++ ws2) ->
  JSON_parse p = Some v ->
  tryParseJson (fenced tagged ws1 p ws2) = v.
Proof.
  intros Hws1 Hws2 Htrim Hfree Hp.
  destruct (trim_fixed p Htrim) as [Hs He].
  assert (starts_clean p) as Hclean by (rewrite <- Hs; apply trimStart_clean).
  assert (p <> []) as Hne by (intros ->; discriminate).
  unfold tryParseJson.
  assert (JSON_parse (fenced tagged ws1 p ws2) = None) as ->
      by apply JSON_parse_backtick.
  rewrite search_fenced; try assumption.
  - change (default [] (m_group1 (MatchAt [] (Some (p ++ ws2)) [])))
      with (p ++ ws2).
    unfold trim. rewrite (trimStart_fixed (p ++ ws2)).
    + rewrite trimEnd_spaces by exact Hws2. rewrite He, Hp. reflexivity.
    + destruct p; [congruence|exact Hclean].
  - intros _. destruct ws1 as [|x ws1]; cbn [app].
    + destruct p as [|x t]; [congruence|]. cbn. rewrite andb_true_r.
      exact (json_head_not_j _ _ _ _ Hp eq_refl).
    + cbn. rewrite andb_true_r. apply space_not_j.
      inversion Hws1. assumption.
Qed.

Lemma fenced_truthy tagged ws1 p ws2 : truthy_str (fenced tagged ws1 p ws2) = true.
Proof. reflexivity. Qed.

(** C9, as amended: [tryParseJson] returns the direct parse when it
    succeeds, otherwise the parse of the trimmed contents of the first
    fenced block, otherwise [null], and [null] fails the attempt.  A
    response made of an opening fence, white space, a JSON payload without
    surrounding white space, white space and a closing fence, in which no
    run of three backticks begins before the closing fence, parses to what
    the bare payload parses to, and is accepted at the first attempt
    whenever the bare payload is. *)
Theorem tryParseJson_policy :
  (forall content v, JSON_parse content = Some v -> tryParseJson content = v) /\
  (forall content m,
      JSON_parse content = None -> search re_fence content = Some m ->
      tryParseJson content
      = default JNull (JSON_parse (trim (default [] (m_group1 m))))) /\
  (forall content,
      JSON_parse content = None -> search re_fence content = None ->
      tryParseJson content = JNull) /\
  (forall validate content,
      tryParseJson content = JNull ->
      parseAttempt validate (Some content) = None) /\
  (forall tagged ws1 p ws2 v,
      all_space ws1 -> all_space ws2 -> trim p = p -> fence_free (p ++ ws2) ->
      JSON_parse p = Some v ->
      tryParseJson (fenced tagged ws1 p ws2) = v /\
      tryParseJson p = v /\
      (forall validate,
          parseAttempt validate (Some (fenced tagged ws1 p ws2))
          = parseAttempt validate (Some p)) /\
      (forall validate call items,
          call 0%nat = Ok (Some (fenced tagged ws1 p ws2)) ->
          parseAttempt validate (Some p) = Some items ->
          analyze validate call = Ok (items, 1%nat))).
Proof.
  split; [|split; [|split; [|split]]].
  - intros content v H. unfold tryParseJson. rewrite H. reflexivity.
  - intros content m H Hm. unfold tryParseJson. rewrite H, Hm.
    destruct (JSON_parse _); reflexivity.
  - intros content H Hm. unfold tryParseJson. rewrite H, Hm. reflexivity.
  - intros validate content H. unfold parseAttempt.
    change (default [] (Some content)) with content. rewrite H.
    destruct (negb _); reflexivity.
  - intros tagged ws1 p ws2 v Hws1 Hws2 Htrim Hfree Hp.
    pose proof (tryParseJson_fenced tagged ws1 p ws2 v Hws1 Hws2 Htrim Hfree Hp)
      as Hf.
    assert (tryParseJson p = v) as Hbare
        by (unfold tryParseJson; rewrite Hp; reflexivity).
    assert (truthy_str p = true) as Hne
        by (destruct p; [discriminate Hp|reflexivity]).
    assert (forall validate,
               parseAttempt validate (Some (fenced tagged ws1 p ws2))
               = parseAttempt validate (Some p)) as Hsame.
    { intros validate. unfold parseAttempt.
      change (default [] (Some (fenced tagged ws1 p ws2)))
        with (fenced tagged ws1 p ws2).
      change (default [] (Some p)) with p. cbn [truthy_ostr].
      rewrite fenced_truthy, Hne, Hf, Hbare. reflexivity. }
    split; [exact Hf|]. split; [exact Hbare|]. split; [exact Hsame|].
    intros validate call items Hcall Hitems.
    unfold analyze. cbn [attemptLoop]. rewrite Hcall, Hsame, Hitems.
    reflexivity.
Qed.

Lemma tryParseJson_policy_witness :
  tryParseJson (fenced true Sample.newline Sample.empty_payload Sample.newline)
  = JObject [(js "items", JArray [])] /\
  tryParseJson Sample.empty_payload = JObject [(js "items", JArray [])] /\
  (forall validate,
      parseAttempt validate
        (Some (fenced true Sample.newline Sample.empty_payload Sample.newline))
      = parseAttempt validate (Some Sample.empty_payload)) /\
  (forall validate call items,
      call 0%nat
      = Ok (Some (fenced true Sample.newline Sample.empty_payload Sample.newline)) ->
      parseAttempt validate (Some Sample.empty_payload) = Some items ->
      analyze validate call = Ok (items, 1%nat)).
Proof.
  apply (proj2 (proj2 (proj2 (proj2 tryParseJson_policy)))).
  - repeat constructor.
  - repeat constructor.
  - vm_compute. reflexivity.
  - vm_compute. reflexivity.
  - vm_compute. reflexivity.
Defined.

(** A valid payload that contains three backticks inside a string: the
    fenced response is cut at them, both parses fail and the attempt is
    lost, although the bare payload parses. *)
Lemma fenced_payload_with_backticks_fails :
  exists v,
    JSON_parse Sample.backtick_payload = Some v /\
    truthy v = true /\
    tryParseJson Sample.backtick_payload = v /\
    tryParseJson (fenced true Sample.newline Sample.backtick_payload Sample.newline)
    = JNull /\
    (forall validate,
        parseAttempt validate
          (Some (fenced true Sample.newline Sample.backtick_payload Sample.newline))
        = None) /\
    (forall validate call,
        call 0%nat
        = Ok (Some (fenced true Sample.newline Sample.backtick_payload
                           Sample.newline)) ->
        attemptLoop validate call 0 2 = attemptLoop validate call 1 1).
Proof.
  eexists. split; [vm_compute; reflexivity|].
  split; [reflexivity|]. split; [vm_compute; reflexivity|].
  assert (tryParseJson
            (fenced true Sample.newline Sample.backtick_payload Sample.newline)
          = JNull) as H by (vm_compute; reflexivity).
  split; [exact H|].
  assert (forall validate,
             parseAttempt validate
               (Some (fenced true Sample.newline Sample.backtick_payload
                             Sample.newline)) = None) as Hp.
  { intros validate. unfold parseAttempt.
    change (default [] (Some ?x)) with x. cbn [truthy_ostr].
    rewrite fenced_truthy, H. reflexivity. }
  split; [exact Hp|].
  intros validate call Hcall. cbn [attemptLoop]. rewrite Hcall, Hp. reflexivity.
Qed.

(** ** Levenshtein distance *)

Section EditDistance.

Local Open Scope nat_scope.

Lemma edit_distance_nil_r a : edit_distance a [] = length a.
Proof. destruct a; reflexivity. Qed.

Lemma edit_distance_cons x a y b :
  edit_distance (x :: a) (y :: b) =
  if ascii_eqb x y then edit_distance a b
  else S (Nat.min (edit_distance a (y :: b))
                  (Nat.min (edit_distance (x :: a) b) (edit_distance a b))).
Proof. reflexivity. Qed.

Lemma edit_distance_cons_nil x a : edit_distance (x :: a) [] = S (length a).
Proof. reflexivity. Qed.

Lemma lev_cells_spec ai acc b bacc :
  lev_cells ai b (cells acc bacc b) (edit_distance acc bacc)
            (edit_distance (ai :: acc) bacc)
  = cells (ai :: acc) bacc b.
Proof.
  revert bacc. induction b as [|y b IH]; intros bacc; [reflexivity|].
  cbn [cells lev_cells]. cbv zeta. rewrite <- (IH (y :: bacc)).
  rewrite (edit_distance_cons ai acc y bacc). reflexivity.
Qed.

Lemma lev_row_spec ai acc b :
  lev_row (S (length acc)) ai b (row acc b) = row (ai :: acc) b.
Proof.
  unfold lev_row, row. rewrite edit_distance_cons_nil. f_equal.
  rewrite <- lev_cells_spec. reflexivity.
Qed.

Lemma lev_rows_spec a acc b :
  lev_rows (length acc) a b (row acc b) = row (rev a ++ acc) b.
Proof.
  revert acc. induction a as [|x a IH]; intros acc; [reflexivity|].
  cbn [lev_rows]. rewrite lev_row_spec.
  change (S (length acc)) with (length (x :: acc)). rewrite IH.
  cbn [rev]. rewrite <- app_assoc. reflexivity.
Qed.

Lemma cells_nil bacc b : cells [] bacc b = seq (S (length bacc)) (length b).
Proof.
  revert bacc. induction b as [|y b IH]; intros bacc; [reflexivity|].
  cbn [cells]. rewrite IH. reflexivity.
Qed.

Lemma last_cells acc bacc b :
  List.last (edit_distance acc bacc :: cells acc bacc b) 0
  = edit_distance acc (rev b ++ bacc).
Proof.
  revert bacc. induction b as [|y b IH]; intros bacc; [reflexivity|].
  cbn [cells rev]. rewrite <- app_assoc. cbn [app]. rewrite <- IH.
  reflexivity.
Qed.

Lemma levenshtein_rec a b : levenshtein a b = edit_distance (rev a) (rev b).
Proof.
  unfold levenshtein.
  replace (seq 0 (S (length b))) with (row [] b)
    by (unfold row; rewrite cells_nil; reflexivity).
  pose proof (lev_rows_spec a [] b) as H. cbn [length] in H. rewrite H.
  unfold row. rewrite last_cells.
  rewrite !app_nil_r. reflexivity.
Qed.

(** *** The recurrence is the edit distance *)

Lemma edit_distance_sym a b : edit_distance a b = edit_distance b a.
Proof.
  revert b. induction a as [|x a IHa]; intros b.
  - rewrite edit_distance_nil_r. reflexivity.
  - induction b as [|y b IHb]; [reflexivity|].
    rewrite !edit_distance_cons.
    rewrite (IHa (y :: b)), (IHa b), IHb.
    replace (ascii_eqb y x) with (ascii_eqb x y)
      by (unfold ascii_eqb; apply N.eqb_sym).
    destruct (ascii_eqb x y); lia.
Qed.

(** Adding or removing one character changes the distance by at most one. *)
Lemma edit_distance_step n : forall a b x,
  length a + length b <= n ->
  edit_distance (x :: a) b <= S (edit_distance a b) /\
  edit_distance a b <= S (edit_distance (x :: a) b).
Proof.
  induction n as [|n IH]; intros a b x Hn.
  - destruct a, b; cbn in Hn; try lia. cbn. lia.
  - destruct b as [|y b].
    + rewrite edit_distance_cons_nil, edit_distance_nil_r. lia.
    + cbn [length] in Hn. rewrite edit_distance_cons.
      assert (edit_distance a (y :: b) <= S (edit_distance a b)) as HB.
      { rewrite (edit_distance_sym a (y :: b)), (edit_distance_sym a b).
        apply (IH b a y). lia. }
      assert (edit_distance a b <= S (edit_distance a (y :: b))) as HD.
      { rewrite (edit_distance_sym a (y :: b)), (edit_distance_sym a b).
        apply (IH b a y). lia. }
      assert (edit_distance a b <= S (edit_distance (x :: a) b)) as HC.
      { apply (IH a b x). lia. }
      destruct (ascii_eqb x y); lia.
Qed.

Lemma edit_distance_delete x a b :
  edit_distance (x :: a) b <= S (edit_distance a b).
Proof. apply (edit_distance_step (length a + length b)); lia. Qed.

Lemma edit_distance_insert y a b :
  edit_distance a (y :: b) <= S (edit_distance a b).
Proof.
  rewrite (edit_distance_sym a (y :: b)), (edit_distance_sym a b).
  apply edit_distance_delete.
Qed.

Lemma edits_inserts b : edits [] b (length b).
Proof. induction b; cbn; constructor; assumption. Qed.

Lemma edits_deletes a : edits a [] (length a).
Proof. induction a; cbn; constructor; assumption. Qed.

Lemma edit_distance_edits a b : edits a b (edit_distance a b).
Proof.
  revert b. induction a as [|x a IHa]; intros b; [apply edits_inserts|].
  induction b as [|y b IHb].
  - rewrite edit_distance_cons_nil. apply edits_delete, edits_deletes.
  - rewrite edit_distance_cons. destruct (ascii_eqb x y) eqn:E.
    + apply ascii_eqb_eq in E. subst y. apply edits_keep, IHa.
    + destruct (Nat.min_spec (edit_distance a (y :: b))
                  (Nat.min (edit_distance (x :: a) b) (edit_distance a b)))
        as [[_ ->]|[_ ->]].
      * apply edits_delete, IHa.
      * destruct (Nat.min_spec (edit_distance (x :: a) b) (edit_distance a b))
          as [[_ ->]|[_ ->]].
        -- apply edits_insert, IHb.
        -- apply edits_subst, IHa.
Qed.

Lemma edit_distance_least a b n : edits a b n -> edit_distance a b <= n.
Proof.
  induction 1 as [|x a b n _ IH|x y a b n _ IH|x a b n _ IH|y a b n _ IH].
  - reflexivity.
  - rewrite edit_distance_cons, ascii_eqb_refl. exact IH.
  - rewrite edit_distance_cons. destruct (ascii_eqb x y); lia.
  - pose proof (edit_distance_delete x a b). lia.
  - pose proof (edit_distance_insert y a b). lia.
Qed.

Lemma edits_app a b n a' b' m :
  edits a b n -> edits a' b' m -> edits (a ++ a') (b ++ b') (n + m).
Proof.
  intros H H'. induction H; cbn; try (constructor; assumption). exact H'.
Qed.

Lemma edits_rev a b n : edits a b n -> edits (rev a) (rev b) n.
Proof.
  induction 1 as [|x a b n _ IH|x y a b n _ IH|x a b n _ IH|y a b n _ IH];
    cbn [rev].
  - constructor.
  - replace n with (n + 0) by lia. apply edits_app; [exact IH|].
    repeat constructor.
  - replace (S n) with (n + 1) by lia. apply edits_app; [exact IH|].
    repeat constructor.
  - replace (S n) with (n + 1) by lia. rewrite <- (app_nil_r (rev b)).
    apply edits_app; [exact IH|]. repeat constructor.
  - replace (S n) with (n + 1) by lia. rewrite <- (app_nil_r (rev a)).
    apply edits_app; [exact IH|]. repeat constructor.
Qed.

Lemma edit_distance_rev a b :
  edit_distance (rev a) (rev b) = edit_distance a b.
Proof.
  apply Nat.le_antisymm.
  - apply edit_distance_least, edits_rev, edit_distance_edits.
  - rewrite <- (rev_involutive a) at 1. rewrite <- (rev_involutive b) at 1.
    apply edit_distance_least, edits_rev, edit_distance_edits.
Qed.

Lemma levenshtein_edit_distance a b : levenshtein a b = edit_distance a b.
Proof. rewrite levenshtein_rec. apply edit_distance_rev. Qed.

Lemma edits_length a b n :
  edits a b n -> length a <= length b + n /\ length b <= length a + n.
Proof. induction 1; cbn; lia. Qed.

Lemma edits_zero a b : edits a b 0 -> a = b.
Proof.
  intros H. remember 0 as n eqn:Hn.
  induction H; try discriminate; [reflexivity|].
  f_equal. auto.
Qed.

Lemma edits_refl a : edits a a 0.
Proof. induction a; constructor; assumption. Qed.

(** Scripts compose. *)
Lemma edits_trans b c m :
  edits b c m -> forall a n, edits a b n ->
  exists k, k <= n + m /\ edits a c k.
Proof.
  induction 1 as [|y b c m _ IH|y z b c m _ IH|y b c m _ IH|z b c m _ IH];
    intros a n H1.
  - exists n. split; [lia|exact H1].
  - remember (y :: b) as yb eqn:E.
    induction H1 as [|x a b0 n H1 _|x y0 a b0 n H1 _|x a b0 n H1 IH1|y0 a b0 n H1 _].
    + discriminate.
    + injection E as -> ->. destruct (IH _ _ H1) as (k & Hk & He).
      exists k. split; [lia|]. constructor. exact He.
    + injection E as -> ->. destruct (IH _ _ H1) as (k & Hk & He).
      exists (S k). split; [lia|]. apply edits_subst. exact He.
    + destruct (IH1 E) as (k & Hk & He).
      exists (S k). split; [lia|]. apply edits_delete. exact He.
    + injection E as -> ->. destruct (IH _ _ H1) as (k & Hk & He).
      exists (S k). split; [lia|]. apply edits_insert. exact He.
  - remember (y :: b) as yb eqn:E.
    induction H1 as [|x a b0 n H1 _|x y0 a b0 n H1 _|x a b0 n H1 IH1|y0 a b0 n H1 _].
    + discriminate.
    + injection E as -> ->. destruct (IH _ _ H1) as (k & Hk & He).
      exists (S k). split; [lia|]. apply edits_subst. exact He.
    + injection E as -> ->. destruct (IH _ _ H1) as (k & Hk & He).
      exists (S k). split; [lia|]. apply edits_subst. exact He.
    + destruct (IH1 E) as (k & Hk & He).
      exists (S k). split; [lia|]. apply edits_delete. exact He.
    + injection E as -> ->. destruct (IH _ _ H1) as (k & Hk & He).
      exists (S k). split; [lia|]. apply edits_insert. exact He.
  - remember (y :: b) as yb eqn:E.
    induction H1 as [|x a b0 n H1 _|x y0 a b0 n H1 _|x a b0 n H1 IH1|y0 a b0 n H1 _].
    + discriminate.
    + injection E as -> ->. destruct (IH _ _ H1) as (k & Hk & He).
      exists (S k). split; [lia|]. apply edits_delete. exact He.
    + injection E as -> ->. destruct (IH _ _ H1) as (k & Hk & He).
      exists (S k). split; [lia|]. apply edits_delete. exact He.
    + destruct (IH1 E) as (k & Hk & He).
      exists (S k). split; [lia|]. apply edits_delete. exact He.
    + injection E as -> ->. destruct (IH _ _ H1) as (k & Hk & He).
      exists k. split; [lia|]. exact He.
  - destruct (IH _ _ H1) as (k & Hk & He).
    exists (S k). split; [lia|]. apply edits_insert. exact He.
Qed.

(** X1: [levenshtein a b] is the least number of single-character insertions,
    deletions and substitutions that turn [a] into [b]: an edit script of
    that length exists and none is shorter. *)
Theorem levenshtein_minimal_edits (a b : jsstring) :
  edits a b (levenshtein a b) /\
  forall n, edits a b n -> levenshtein a b <= n.
Proof.
  rewrite levenshtein_edit_distance. split; [apply edit_distance_edits|].
  apply edit_distance_least.
Qed.

Lemma levenshtein_zero (a b : jsstring) : levenshtein a b = 0 <-> a = b.
Proof.
  rewrite levenshtein_edit_distance. split.
  - intros H. apply edits_zero. rewrite <- H. apply edit_distance_edits.
  - intros ->. apply Nat.le_antisymm; [|lia].
    apply edit_distance_least, edits_refl.
Qed.

Lemma levenshtein_sym (a b : jsstring) : levenshtein a b = levenshtein b a.
Proof. rewrite !levenshtein_edit_distance. apply edit_distance_sym. Qed.

Lemma levenshtein_triangle (a b c : jsstring) :
  levenshtein a c <= levenshtein a b + levenshtein b c.
Proof.
  rewrite !levenshtein_edit_distance.
  destruct (edits_trans b c _ (edit_distance_edits b c) a _
              (edit_distance_edits a b)) as (k & Hk & He).
  apply edit_distance_least in He. lia.
Qed.

(** X2: [levenshtein] is a metric: the distance is 0 exactly for equal
    strings, it is symmetric, and it obeys the triangle inequality. *)
Theorem levenshtein_metric (a b c : jsstring) :
  (levenshtein a b = 0 <-> a = b) /\
  levenshtein a b = levenshtein b a /\
  levenshtein a c <= levenshtein a b + levenshtein b c.
Proof.
  split; [apply levenshtein_zero|].
  split; [apply levenshtein_sym|apply levenshtein_triangle].
Qed.

Lemma levenshtein_le_max (a b : jsstring) :
  levenshtein a b <= Nat.max (length a) (length b).
Proof.
  rewrite levenshtein_edit_distance.
  revert b. induction a as [|x a IH]; intros b; [cbn; lia|].
  destruct b as [|y b]; [cbn; lia|].
  rewrite edit_distance_cons. specialize (IH b). cbn [length].
  destruct (ascii_eqb x y); lia.
Qed.

(** X3: [levenshtein a b] is at most the length of the longer string and at
    least the difference of the two lengths. *)
Theorem levenshtein_bounds (a b : jsstring) :
  levenshtein a b <= Nat.max (length a) (length b) /\
  length a - length b <= levenshtein a b /\
  length b - length a <= levenshtein a b.
Proof.
  split; [apply levenshtein_le_max|].
  rewrite levenshtein_edit_distance.
  pose proof (edits_length _ _ _ (edit_distance_edits a b)). lia.
Qed.

End EditDistance.

(** ** Similarity and scores *)

Section SimilarityRange.

Section Similarity.

Local Open Scope Q_scope.

Lemma Zpos_of_nat n : (0 < n)%nat -> Z.pos (Pos.of_nat n) = Z.of_nat n.
Proof.
  intros H. rewrite <- (Nat2Pos.id n) at 2 by lia. symmetry.
  apply positive_nat_Z.
Qed.

(** The similarity of two strings that are not both empty. *)
Lemma normalizedSimilarity_eq a b :
  (0 < Nat.max (length a) (length b))%nat ->
  normalizedSimilarity a b =
  1 - (Z.of_nat (levenshtein a b) # Pos.of_nat (Nat.max (length a) (length b))).
Proof.
  intros H. unfold normalizedSimilarity.
  destruct ((length a =? 0)%nat && (length b =? 0)%nat) eqn:E.
  - apply andb_true_iff in E. destruct E as [Ea Eb].
    apply Nat.eqb_eq in Ea, Eb. lia.
  - destruct (Nat.max (length a) (length b) =? 0)%nat eqn:E2; [|reflexivity].
    apply Nat.eqb_eq in E2. lia.
Qed.

Lemma normalizedSimilarity_nil : normalizedSimilarity [] [] = 1.
Proof. reflexivity. Qed.

Lemma both_empty (a b : jsstring) :
  Nat.max (length a) (length b) = 0%nat -> a = [] /\ b = [].
Proof. destruct a, b; cbn; try lia. auto. Qed.

Lemma normalizedSimilarity_cases a b :
  (a = [] /\ b = [] /\ normalizedSimilarity a b = 1) \/
  ((0 < Nat.max (length a) (length b))%nat /\
   normalizedSimilarity a b =
   1 - (Z.of_nat (levenshtein a b) # Pos.of_nat (Nat.max (length a) (length b)))).
Proof.
  destruct (Nat.eq_dec (Nat.max (length a) (length b)) 0%nat) as [E|E].
  - left. apply both_empty in E. destruct E as [-> ->]. auto.
  - right. split; [lia|]. apply normalizedSimilarity_eq. lia.
Qed.

Lemma normalizedSimilarity_bounds (a b : jsstring) :
  0 <= normalizedSimilarity a b <= 1.
Proof.
  destruct (normalizedSimilarity_cases a b) as [(_ & _ & ->)|[Hm ->]].
  - split; discriminate.
  - pose proof (levenshtein_le_max a b) as Hle.
    pose proof (Zpos_of_nat _ Hm) as Hp.
    unfold Qle, Qminus, Qplus, Qopp; cbn. rewrite Hp. split; nia.
Qed.

(** X4: [normalizedSimilarity a b] lies between 0 and 1 for all strings,
    the empty ones included. *)
Theorem normalizedSimilarity_range (a b : jsstring) :
  0 <= normalizedSimilarity a b <= 1.
Proof. apply normalizedSimilarity_bounds. Qed.

Lemma normalizedSimilarity_one (a b : jsstring) :
  normalizedSimilarity a b == 1 <-> a = b.
Proof.
  destruct (normalizedSimilarity_cases a b) as [(-> & -> & ->)|[Hm ->]].
  - split; reflexivity.
  - pose proof (Zpos_of_nat _ Hm) as Hp.
    pose proof (levenshtein_zero a b) as Hz.
    unfold Qeq, Qminus, Qplus, Qopp; cbn. rewrite Hp.
    rewrite <- Hz. split; intros H; nia.
Qed.

(** X5: [normalizedSimilarity a b] is 1 exactly when [a] and [b] are the
    same string. *)
Theorem normalizedSimilarity_one_iff (a b : jsstring) :
  normalizedSimilarity a b == 1 <-> a = b.
Proof. apply normalizedSimilarity_one. Qed.

(** X6: [normalizedSimilarity] does not depend on the order of its
    arguments. *)
Theorem normalizedSimilarity_symmetric (a b : jsstring) :
  normalizedSimilarity a b = normalizedSimilarity b a.
Proof.
  unfold normalizedSimilarity.
  rewrite (levenshtein_sym a b).
  rewrite (Nat.max_comm (length a)), (andb_comm (length a =? 0)%nat).
  reflexivity.
Qed.

Lemma q_max_range a b : 0 <= a <= 1 -> 0 <= b <= 1 -> 0 <= q_max a b <= 1.
Proof. unfold q_max. destruct (Qle_bool b a); tauto. Qed.

Lemma q_max_ge_l a b : a <= q_max a b.
Proof.
  unfold q_max. destruct (Qle_bool b a) eqn:E; [apply Qle_refl|].
  apply Qlt_le_weak, Qnot_le_lt. intros H. apply Qle_bool_iff in H. congruence.
Qed.

Lemma q_max_ge_r a b : b <= q_max a b.
Proof.
  unfold q_max. destruct (Qle_bool b a) eqn:E; [|apply Qle_refl].
  apply Qle_bool_iff. exact E.
Qed.

Lemma computeTitleScore_range queryTitle resultTitle :
  0 <= computeTitleScore queryTitle resultTitle <= 1.
Proof.
  unfold computeTitleScore. apply q_max_range; apply normalizedSimilarity_bounds.
Qed.

Lemma q_min_one_range a : 0 <= a -> 0 <= q_min a 1 <= 1.
Proof.
  intros H. unfold q_min. destruct (Qle_bool a 1) eqn:E.
  - apply Qle_bool_iff in E. tauto.
  - split; discriminate.
Qed.

Lemma yearBonus_nonneg y r : 0 <= yearBonus y r.
Proof.
  unfold yearBonus. destruct y, r; try apply Qle_refl.
  destruct (_ && _); [discriminate|apply Qle_refl].
Qed.

(** X7: the total score of a candidate (title score plus year bonus,
    capped at 1), whenever it is computed, lies between 0 and 1. *)
Theorem totalScore_range {C : Type} (name date : C -> option jsstring)
        (item : LLMIdentifiedItem) (result : C) (t : Q) :
  totalScore name date item result = Ok t -> 0 <= t <= 1.
Proof.
  unfold totalScore, candidateScore.
  destruct (name result) as [n|]; [|discriminate].
  intros [= <-]. apply q_min_one_range.
  pose proof (computeTitleScore_range (llm_title item) n) as [H _].
  pose proof (yearBonus_nonneg (llm_year item) (resultYearOf (date result))).
  replace 0 with (0 + 0) by reflexivity. apply Qplus_le_compat; assumption.
Qed.

Lemma totalScore_range_witness :
  exists t,
    totalScore mr_title mr_release_date
      (Sample.item "Inception" movie None) Sample.interception = Ok t /\
    0 <= t <= 1.
Proof.
  eexists. split; [vm_compute; reflexivity|].
  apply (totalScore_range mr_title mr_release_date
           (Sample.item "Inception" movie None) Sample.interception).
  vm_compute. reflexivity.
Defined.

End Similarity.

End SimilarityRange.

(** ** Letter case *)

Section LetterCase.

Lemma lower_idem x : lower (lower x) = lower x.
Proof. all_ascii x. Qed.

Lemma toLowerCase_idem s : toLowerCase (toLowerCase s) = toLowerCase s.
Proof.
  unfold toLowerCase. rewrite map_map. apply map_ext. intros x. apply lower_idem.
Qed.

Lemma lower_inv_b_sound p : lower_inv_b p = true -> lower_inv p.
Proof.
  unfold lower_inv_b. rewrite forallb_forall. intros H x.
  specialize (H (nat_of_ascii x)). rewrite ascii_nat_embedding in H.
  apply eqb_prop, H, in_seq. pose proof (nat_ascii_bounded x). lia.
Qed.

Lemma case_blind_b_sound r : case_blind_b r = true -> case_blind r.
Proof.
  induction r as [| |p|r1 IH1 r2 IH2|r1 IH1 r2 IH2|p|p| |r IH]; cbn;
    try (rewrite andb_true_iff; intros [H1 H2]; split; auto);
    auto using lower_inv_b_sound.
Qed.

Lemma lower_inv_space : lower_inv is_space.
Proof. apply lower_inv_b_sound. vm_compute. reflexivity. Qed.

Lemma case_blind_article : case_blind re_article.
Proof. apply case_blind_b_sound. vm_compute. reflexivity. Qed.

Lemma case_blind_seasonPatterns : Forall case_blind seasonPatterns.
Proof.
  unfold seasonPatterns.
  repeat (apply List.Forall_cons;
          [apply case_blind_b_sound; vm_compute; reflexivity|]).
  apply List.Forall_nil.
Qed.

Section Lowering.

Context {A B : Type} (f : A -> B).

Lemma star_m_lower p s (K : jsstring -> option A) (K' : jsstring -> option B) :
  lower_inv p ->
  (forall s', K' (toLowerCase s') = option_map f (K s')) ->
  star_m p (toLowerCase s) K' = option_map f (star_m p s K).
Proof.
  intros Hp HK. induction s as [|x s IH]; cbn; [apply (HK [])|].
  rewrite Hp. destruct (p x); [|apply (HK (x :: s))].
  fold (toLowerCase s). rewrite IH.
  destruct (star_m p s K); [reflexivity|]. apply (HK (x :: s)).
Qed.

Lemma lazy_m_lower p s (K : jsstring -> option A) (K' : jsstring -> option B) :
  lower_inv p ->
  (forall s', K' (toLowerCase s') = option_map f (K s')) ->
  lazy_m p (toLowerCase s) K' = option_map f (lazy_m p s K).
Proof.
  intros Hp HK. induction s as [|x s IH]; cbn.
  - pose proof (HK []) as H. cbn in H. rewrite H.
    destruct (K []); reflexivity.
  - pose proof (HK (x :: s)) as H. cbn in H. rewrite H.
    destruct (K (x :: s)); [reflexivity|]. cbn.
    rewrite Hp. destruct (p x); [|reflexivity]. apply IH.
Qed.

End Lowering.

Lemma rmatch_lower {A B} (f : A -> B) r :
  case_blind r ->
  forall s c (K : jsstring -> option jsstring -> option A)
         (K' : jsstring -> option jsstring -> option B),
    (forall s' c', K' (toLowerCase s') (option_map toLowerCase c')
                   = option_map f (K s' c')) ->
    rmatch r (toLowerCase s) (option_map toLowerCase c) K'
    = option_map f (rmatch r s c K).
Proof.
  induction r as [| |p|r1 IH1 r2 IH2|r1 IH1 r2 IH2|p|p| |r IH];
    intros Hr s c K K' HK; cbn [rmatch].
  - apply HK.
  - reflexivity.
  - destruct s as [|x s]; [reflexivity|]. cbn. rewrite Hr.
    destruct (p x); [|reflexivity]. apply (HK s c).
  - destruct Hr as [H1 H2]. apply (IH1 H1). intros s' c'. apply (IH2 H2), HK.
  - destruct Hr as [H1 H2]. rewrite (IH1 H1 s c K K' HK).
    destruct (rmatch r1 s c K); [reflexivity|]. apply (IH2 H2), HK.
  - apply star_m_lower; [exact Hr|]. intros s'. apply HK.
  - apply lazy_m_lower; [exact Hr|]. intros s'. apply HK.
  - destruct s; [|reflexivity]. apply (HK [] c).
  - apply (IH Hr s c
             (fun s' _ => K s' (Some (take (length s - length s') s)))).
    intros s' _. unfold toLowerCase at 2 3. rewrite !length_map.
    rewrite <- (HK s' (Some (take (length s - length s') s))).
    cbn [option_map]. unfold toLowerCase. rewrite <- fmap_take. reflexivity.
Qed.

Lemma match_here_lower r s :
  case_blind r ->
  match_here r (toLowerCase s) = option_map lower_match (match_here r s).
Proof.
  intros Hr. unfold match_here.
  apply (rmatch_lower lower_match r Hr s None). reflexivity.
Qed.

Lemma search_lower r s :
  case_blind r ->
  search r (toLowerCase s) = option_map lower_match (search r s).
Proof.
  intros Hr. induction s as [|x s IH].
  - pose proof (match_here_lower r [] Hr) as H.
    change (toLowerCase []) with (@nil ascii) in *. cbn [search].
    destruct (match_here r []) as [m|]; cbn in *; [exact H|reflexivity].
  - cbn [search]. pose proof (match_here_lower r (x :: s) Hr) as H.
    change (toLowerCase (x :: s)) with (lower x :: toLowerCase s) in *.
    cbn [search]. rewrite H.
    destruct (match_here r (x :: s)); [reflexivity|]. cbn [option_map].
    rewrite IH. destruct (search r s); reflexivity.
Qed.

Lemma remove_first_lower r s :
  case_blind r ->
  remove_first r (toLowerCase s) = toLowerCase (remove_first r s).
Proof.
  intros Hr. unfold remove_first. rewrite (search_lower r s Hr).
  destruct (search r s) as [m|]; [|reflexivity]. cbn.
  unfold toLowerCase. rewrite map_app. reflexivity.
Qed.

Lemma remove_prefix_lower r s :
  case_blind r ->
  remove_prefix r (toLowerCase s) = toLowerCase (remove_prefix r s).
Proof.
  intros Hr. unfold remove_prefix. rewrite (match_here_lower r s Hr).
  destruct (match_here r s); reflexivity.
Qed.

Lemma trimStart_lower s : trimStart (toLowerCase s) = toLowerCase (trimStart s).
Proof.
  induction s as [|x s IH]; [reflexivity|]. cbn.
  rewrite lower_inv_space. destruct (is_space x); [exact IH|reflexivity].
Qed.

Lemma trim_lower s : trim (toLowerCase s) = toLowerCase (trim s).
Proof.
  unfold trim, trimEnd. rewrite trimStart_lower.
  unfold toLowerCase at 1. rewrite <- map_rev. fold (toLowerCase (rev (trimStart s))).
  rewrite trimStart_lower. unfold toLowerCase. rewrite map_rev. reflexivity.
Qed.

Lemma stripArticle_lower s :
  stripArticle (toLowerCase s) = toLowerCase (stripArticle s).
Proof.
  unfold stripArticle.
  rewrite (remove_prefix_lower _ _ case_blind_article). apply trim_lower.
Qed.

Lemma stripSeasonSuffix_lower s :
  stripSeasonSuffix (toLowerCase s) = toLowerCase (stripSeasonSuffix s).
Proof.
  pose proof case_blind_seasonPatterns as H. unfold seasonPatterns in H.
  repeat match type of H with
         | Forall _ (_ :: _) =>
             let H1 := fresh "P" in
             apply Forall_cons in H; destruct H as [H1 H]
         end.
  unfold stripSeasonSuffix.
  rewrite (remove_first_lower _ _ P), (remove_first_lower _ _ P0),
    (remove_first_lower _ _ P1), (remove_first_lower _ _ P2),
    (remove_first_lower _ _ P3), (remove_first_lower _ _ P4).
  apply trim_lower.
Qed.

(** The score is a function of the lower-case forms. *)
Lemma computeTitleScore_lower queryTitle resultTitle :
  computeTitleScore queryTitle resultTitle =
  computeTitleScore (toLowerCase queryTitle) (toLowerCase resultTitle).
Proof.
  unfold computeTitleScore.
  rewrite (stripSeasonSuffix_lower queryTitle), !toLowerCase_idem.
  reflexivity.
Qed.

(** X8: [computeTitleScore] ignores letter case: titles that agree after
    [toLowerCase] get the same score. *)
Theorem computeTitleScore_case_insensitive (q q' r r' : jsstring) :
  toLowerCase q = toLowerCase q' ->
  toLowerCase r = toLowerCase r' ->
  computeTitleScore q r = computeTitleScore q' r'.
Proof.
  intros Hq Hr.
  rewrite (computeTitleScore_lower q r), (computeTitleScore_lower q' r').
  rewrite Hq, Hr. reflexivity.
Qed.

Lemma computeTitleScore_case_insensitive_witness :
  computeTitleScore (js "BREAKING BAD - Season 1") (js "breaking bad")
  = computeTitleScore (js "Breaking Bad - SEASON 1") (js "Breaking Bad").
Proof.
  apply computeTitleScore_case_insensitive; reflexivity.
Defined.

End LetterCase.

(** ** Titles that agree after normalization *)

Section ExactTitles.

Section ExactTitle.

Local Open Scope Q_scope.

Lemma computeTitleScore_exact q r :
  normalized q = normalized r -> computeTitleScore q r == 1.
Proof.
  intros H. apply Qle_antisym; [apply computeTitleScore_range|].
  unfold computeTitleScore.
  eapply Qle_trans; [|apply q_max_ge_l].
  fold (normalized q) (normalized r).
  apply (normalizedSimilarity_one (normalized q) (normalized r)) in H.
  rewrite H. apply Qle_refl.
Qed.

Lemma totalScore_exact {C} (name date : C -> option jsstring) item c t :
  name c = Some t -> normalized t = normalized (llm_title item) ->
  exists s, totalScore name date item c = Ok s /\ 1 <= s.
Proof.
  intros Hn Ht. unfold totalScore, candidateScore. rewrite Hn.
  eexists. split; [reflexivity|].
  pose proof (computeTitleScore_exact (llm_title item) t (eq_sym Ht)) as Hs.
  pose proof (yearBonus_nonneg (llm_year item) (resultYearOf (date c))) as Hb.
  unfold q_min.
  destruct (Qle_bool _ 1) eqn:E; [|apply Qle_refl].
  rewrite Hs. rewrite <- (Qplus_0_r 1) at 1.
  apply Qplus_le_compat; [apply Qle_refl|exact Hb].
Qed.

Lemma tiered_exact {C} (name date : C -> option jsstring) (ident : C -> Z)
      item results e c t :
  tiered_match name date ident item results e ->
  In c results -> name c = Some t ->
  normalized t = normalized (llm_title item) ->
  confidence e = high.
Proof.
  intros (b & s & [Hall _] & _ & Hh & _) Hin Hn Ht.
  destruct (totalScore_exact name date item c t Hn Ht) as (s1 & Hs1 & Hge).
  apply Hh. specialize (Hall c s1 Hin Hs1).
  apply Qle_trans with 1; [discriminate|].
  eapply Qle_trans; eauto.
Qed.

End ExactTitle.

(** X9: when every candidate of the search has a title and one of them
    equals the item's title after lower-casing and removal of a leading
    article, [enrichMovie] (resp. [enrichTV]) returns a match of confidence
    [high]. *)
Theorem exact_title_is_high (w : World) (item : LLMIdentifiedItem) :
  (forall results c t,
     outcome (searchTMDBMovies w (llm_title item) (llm_year item)) = Ok results ->
     Forall (fun c => is_Some (mr_title c)) results ->
     In c results -> mr_title c = Some t ->
     normalized t = normalized (llm_title item) ->
     exists e, outcome (enrichMovie w item) = Ok e /\ confidence e = high) /\
  (forall results c t,
     outcome (searchTV w item) = Ok results ->
     Forall (fun c => is_Some (tr_name c)) results ->
     In c results -> tr_name c = Some t ->
     normalized t = normalized (llm_title item) ->
     exists e, outcome (enrichTV w item) = Ok e /\ confidence e = high).
Proof.
  split; intros results c t Hs Hall Hin Hn Ht.
  - assert (results <> []) as Hne by (intros ->; destruct Hin).
    destruct (enrichMovie_tiered w item results Hs Hne Hall) as (e & He & Htier).
    exists e. split; [exact He|]. eapply tiered_exact; eauto.
  - assert (results <> []) as Hne by (intros ->; destruct Hin).
    destruct (enrichTV_tiered w item results Hs Hne Hall) as (e & He & Htier).
    exists e. split; [exact He|]. eapply tiered_exact; eauto.
Qed.

Lemma exact_title_is_high_witness :
  exists e,
    outcome (enrichMovie generous_world (Sample.item "the INCEPTION" movie None))
    = Ok e /\ confidence e = high.
Proof.
  apply (proj1 (exact_title_is_high generous_world
                  (Sample.item "the INCEPTION" movie None))
               [Sample.interception; Sample.inception] Sample.inception
               (js "Inception")).
  - vm_compute. reflexivity.
  - repeat constructor; eexists; reflexivity.
  - right. left. reflexivity.
  - reflexivity.
  - vm_compute. reflexivity.
Defined.

End ExactTitles.

(** ** What the suffix strippers keep *)

Section Strippers.

Section Anchored.

Context {A : Type}.

Lemma rmatch_anchored r :
  anchored r = true ->
  forall s c (k : jsstring -> option jsstring -> option A) a,
    rmatch r s c k = Some a -> exists c', k [] c' = Some a.
Proof.
  induction r as [| |p|r1 IH1 r2 IH2|r1 IH1 r2 IH2|p|p| |r IH];
    cbn [anchored]; try discriminate; intros Hr s c k a; cbn [rmatch].
  - apply orb_true_iff in Hr. destruct Hr as [H2|H1].
    + intros H. apply rmatch_suffix in H. destruct H as (s' & c' & H & _).
      eapply IH2; eauto.
    + apply andb_true_iff in H1. destruct H1 as [H1 He].
      destruct r2; try discriminate. intros H.
      apply (IH1 H1) in H. exact H.
  - apply andb_true_iff in Hr. destruct Hr as [H1 H2].
    destruct (rmatch r1 s c k) eqn:E.
    + intros [= <-]. eapply IH1; eauto.
    + intros H. eapply IH2; eauto.
  - destruct s; [|discriminate]. eauto.
  - intros H. apply (IH Hr) in H. destruct H as (c' & H). eauto.
Qed.

End Anchored.

Lemma search_anchored r s m :
  anchored r = true -> search r s = Some m ->
  m_after m = [] /\ exists n, m_before m = take n s.
Proof.
  intros Hr. revert m. induction s as [|x s IH]; intros m; cbn [search].
  - destruct (match_here r []) as [m'|] eqn:E; [|discriminate].
    intros [= <-]. unfold match_here in E.
    apply (rmatch_anchored r Hr) in E. destruct E as (c' & [= <-]).
    split; [reflexivity|]. exists 0%nat. reflexivity.
  - destruct (match_here r (x :: s)) as [m'|] eqn:E.
    + intros [= <-]. unfold match_here in E.
      apply (rmatch_anchored r Hr) in E. destruct E as (c' & [= <-]).
      split; [reflexivity|]. exists 0%nat. reflexivity.
    + destruct (search r s) as [m'|]; [|discriminate].
      intros [= <-]. destruct (IH m' eq_refl) as (Ha & n & Hb).
      split; [exact Ha|]. exists (S n). cbn. rewrite Hb. reflexivity.
Qed.

Lemma remove_first_anchored r s :
  anchored r = true -> exists n, remove_first r s = take n s.
Proof.
  intros Hr. unfold remove_first. destruct (search r s) as [m|] eqn:E.
  - destruct (search_anchored r s m Hr E) as (-> & n & ->).
    exists n. apply app_nil_r.
  - exists (length s). rewrite firstn_all. reflexivity.
Qed.

Lemma trimStart_split s :
  exists ws, s = ws ++ trimStart s /\ Forall (fun c => is_space c = true) ws.
Proof.
  induction s as [|x s (ws & Hs & Hws)]; [exists []; auto|]. cbn.
  destruct (is_space x) eqn:E.
  - exists (x :: ws). split; [cbn; congruence|]. constructor; assumption.
  - exists []. auto.
Qed.

Lemma trimEnd_prefix s : exists n, trimEnd s = take n s.
Proof.
  unfold trimEnd. destruct (trimStart_split (rev s)) as (ws & Hs & _).
  remember (trimStart (rev s)) as t eqn:Et. clear Et.
  exists (length t).
  apply (f_equal (@rev ascii)) in Hs. rewrite rev_involutive, rev_app_distr in Hs.
  subst s. rewrite take_app_length'; [reflexivity|].
  rewrite length_rev. reflexivity.
Qed.

Lemma trim_inner s : inner_part (trim s) s.
Proof.
  unfold trim. destruct (trimStart_split s) as (ws & Hs & Hws).
  destruct (trimEnd_prefix (trimStart s)) as (n & Hn).
  exists ws, (drop n (trimStart s)). split; [|exact Hws].
  rewrite Hn, take_drop. exact Hs.
Qed.

Lemma inner_part_take t n s : inner_part t (take n s) -> inner_part t s.
Proof.
  intros (ws & post & H & Hws). exists ws, (post ++ drop n s).
  split; [|exact Hws]. rewrite <- (take_drop n s) at 1. rewrite H.
  rewrite <- !app_assoc. reflexivity.
Qed.

Lemma inner_part_trans t u s : inner_part t u -> inner_part u s -> inner_part t s.
Proof.
  intros (ws & post & -> & Hws) (ws' & post' & -> & Hws').
  exists (ws' ++ ws), (post ++ post'). split.
  - rewrite <- !app_assoc. reflexivity.
  - apply Forall_app. auto.
Qed.

Lemma anchored_patterns :
  Forall (fun r => anchored r = true) (re_year_paren :: seasonPatterns).
Proof. repeat constructor. Qed.

Lemma strip_all_prefix ps s :
  Forall (fun r => anchored r = true) ps -> exists n, strip_all ps s = take n s.
Proof.
  intros H. revert s. induction H as [|r ps Hr _ IH]; intros s.
  - exists (length s). cbn. rewrite firstn_all. reflexivity.
  - change (strip_all (r :: ps) s) with (strip_all ps (remove_first r s)).
    destruct (remove_first_anchored r s Hr) as (n & ->).
    destruct (IH (take n s)) as (k & ->). exists (Nat.min k n).
    apply take_take.
Qed.

(** X10: [stripSeasonSuffix] and [extractSeriesName] only cut: the result is
    a contiguous part of the title that begins after leading white space
    only. *)
Theorem strippers_keep_inner_part (title : jsstring) :
  inner_part (stripSeasonSuffix title) title /\
  inner_part (extractSeriesName title) title.
Proof.
  assert (inner_part (stripSeasonSuffix title) title) as H.
  { rewrite stripSeasonSuffix_fold.
    destruct (strip_all_prefix seasonPatterns title) as (n & ->).
    - pose proof anchored_patterns as Ha. apply Forall_cons in Ha. tauto.
    - apply inner_part_take with n. apply trim_inner. }
  split; [exact H|]. unfold extractSeriesName.
  eapply inner_part_trans; [|exact H].
  destruct (remove_first_anchored re_year_paren (stripSeasonSuffix title))
    as (n & ->); [reflexivity|].
  apply inner_part_take with n. apply trim_inner.
Qed.

End Strippers.

(** ** What an enriched item owes to its input *)

Section EnrichedItems.

Lemma made_from_unmatched item : made_from item (buildUnmatched item).
Proof.
  split; [reflexivity|]. split; [discriminate|]. split; [exact I|].
  intros H. exfalso. apply H. reflexivity.
Qed.

Lemma firstn_500 (o : jsstring) : (length (firstn 500 o) <= 500)%nat.
Proof. apply firstn_le_length. Qed.

Lemma facts_unmatched item k :
  title (buildUnmatched item) = llm_title item /\
  source (buildUnmatched item) <> plex /\
  short_overview (buildUnmatched item) /\
  (confidence (buildUnmatched item) <> unmatched ->
   source (buildUnmatched item) = tmdb /\ is_Some (tmdbId (buildUnmatched item)) /\
   type (buildUnmatched item) = k).
Proof.
  split; [reflexivity|]. split; [discriminate|]. split; [exact I|].
  intros H. exfalso. apply H. reflexivity.
Qed.

Lemma enrichMovie_facts w item e :
  outcome (enrichMovie w item) = Ok e ->
  title e = llm_title item /\ source e <> plex /\ short_overview e /\
  (confidence e <> unmatched ->
   source e = tmdb /\ is_Some (tmdbId e) /\ type e = movie).
Proof.
  unfold enrichMovie. rewrite outcome_bind.
  destruct (outcome (searchTMDBMovies _ _ _)) as [[|c rs]|]; try discriminate.
  - cbn. intros [= <-]. apply facts_unmatched.
  - rewrite outcome_bind. unfold lift at 1. cbn [outcome].
    destruct (scoreLoop _ _ _ _ _ _) as [[[b|] s]|]; try discriminate;
      [|cbn; intros [= <-]; apply facts_unmatched].
    destruct (scoreToConfidence s) eqn:Hc; cbn; intros [= <-];
      try apply facts_unmatched;
      (split; [reflexivity|]); (split; [discriminate|]);
      (split; [unfold short_overview; cbn;
               destruct (mr_overview b); cbn; [apply firstn_500|exact I]|]);
      intros _; cbn; eauto.
Qed.

Lemma enrichTV_facts w item e :
  outcome (enrichTV w item) = Ok e ->
  title e = llm_title item /\ source e <> plex /\ short_overview e /\
  (confidence e <> unmatched ->
   source e = tmdb /\ is_Some (tmdbId e) /\ type e = tv).
Proof.
  unfold enrichTV. rewrite outcome_bind.
  destruct (outcome (searchTV _ _)) as [[|c rs]|]; try discriminate.
  - cbn. intros [= <-]. apply facts_unmatched.
  - rewrite outcome_bind. unfold lift at 1. cbn [outcome].
    destruct (scoreLoop _ _ _ _ _ _) as [[[b|] s]|]; try discriminate;
      [|cbn; intros [= <-]; apply facts_unmatched].
    destruct (scoreToConfidence s) eqn:Hc; cbn; intros [= <-];
      try apply facts_unmatched;
      (split; [reflexivity|]); (split; [discriminate|]);
      (split; [unfold short_overview; cbn;
               destruct (tr_overview b); cbn; [apply firstn_500|exact I]|]);
      intros _; cbn; eauto.
Qed.

Lemma made_from_intro item e k :
  title e = llm_title item /\ source e <> plex /\ short_overview e /\
  (confidence e <> unmatched ->
   source e = tmdb /\ is_Some (tmdbId e) /\ type e = k) ->
  kind_agrees (llm_type item) k ->
  made_from item e.
Proof.
  intros (H1 & H2 & H3 & H4) Hk. split; [exact H1|]. split; [exact H2|].
  split; [exact H3|]. intros Hc. destruct (H4 Hc) as (Hs & Hi & ->). auto.
Qed.

Lemma enrichSingleItem_made_from w item e :
  outcome (enrichSingleItem w item) = Ok e -> made_from item e.
Proof.
  unfold enrichSingleItem. destruct (llm_type item) eqn:Hk;
    try (cbn; intros [= <-]; apply made_from_unmatched).
  - intros H. apply enrichMovie_facts in H.
    apply (made_from_intro item e movie H). rewrite Hk. reflexivity.
  - intros H. apply enrichTV_facts in H.
    apply (made_from_intro item e tv H). rewrite Hk. reflexivity.
  - rewrite outcome_bind.
    destruct (outcome (enrichMovie w item)) as [m|] eqn:Em; [|discriminate].
    apply enrichMovie_facts in Em.
    destruct (is_unmatched (confidence m)) eqn:Hmu; cbn [negb].
    + rewrite outcome_bind.
      destruct (outcome (enrichTV w item)) as [t|] eqn:Et; [|discriminate].
      apply enrichTV_facts in Et.
      destruct (is_unmatched (confidence t)) eqn:Htu; cbn; intros [= <-].
      * apply made_from_unmatched.
      * apply (made_from_intro item t tv Et). rewrite Hk. right. reflexivity.
    + cbn. intros [= <-].
      apply (made_from_intro item m movie Em). rewrite Hk. left. reflexivity.
Qed.

Section Rows.

Variable resolveTVDBId :
  World -> jsstring -> option jsnum -> option jsstring -> ItemType -> M (option Z).

Variable w : World.

Lemma settledOne_made_from item : made_from item (settledOne w item).
Proof.
  unfold settledOne.
  destruct (outcome (enrichSingleItem w item)) eqn:E.
  - apply enrichSingleItem_made_from in E. exact E.
  - apply made_from_unmatched.
Qed.

Lemma enrichedFor_made_from key item :
  made_from item (enrichedFor resolveTVDBId w key item).
Proof.
  unfold enrichedFor, assignOne.
  destruct (_ || _); [|apply settledOne_made_from].
  destruct (lookupOne _ _ _) as [[v|]|]; apply settledOne_made_from.
Qed.

Lemma plexMerge_made_from plexItems item e :
  made_from item e -> made_from item (plexMerge plexItems e).
Proof.
  intros H. unfold plexMerge. destruct (matched _); [|exact H].
  destruct (_ && _); destruct (_ && _); exact H.
Qed.

(** The enriched items as they are saved: one function of each input. *)
Lemma enrichAndCrossReference_map items :
  isTMDBConfigured w = true ->
  exists g : LLMIdentifiedItem -> EnrichedItem,
    outcome (enrichAndCrossReference resolveTVDBId w items) = Ok (map g items) /\
    forall item, made_from item (g item).
Proof.
  intros Hkey. unfold enrichAndCrossReference. rewrite outcome_bind.
  rewrite (enrichItems_map resolveTVDBId w items None Hkey).
  unfold crossReference. destruct (isPlexConfigured w).
  - rewrite outcome_try_catch, outcome_bind.
    unfold fetchAllPlexItems. cbn [outcome].
    destruct (plex_items w) as [plexItems|].
    + cbn [ret outcome].
      exists (fun item => plexMerge plexItems (enrichedFor resolveTVDBId w None item)).
      split; [rewrite map_map; reflexivity|].
      intros item. apply plexMerge_made_from, enrichedFor_made_from.
    + cbn [ret outcome]. eexists. split; [reflexivity|].
      apply enrichedFor_made_from.
  - cbn [ret outcome]. eexists. split; [reflexivity|].
    apply enrichedFor_made_from.
Qed.

Lemma Forall2_map_r_intro {A B} (P : A -> B -> Prop) (g : A -> B) l :
  (forall a, P a (g a)) -> Forall2 P l (map g l).
Proof. intros H. induction l; cbn; constructor; auto. Qed.

Lemma collect_save_rows (pre items : list LLMIdentifiedItem)
      (g : LLMIdentifiedItem -> EnrichedItem) :
  exists rows,
    collect (imap (fun i => save_row (pre ++ items) (length pre + i))
                  (map g items)) = Ok rows /\
    Forall2 (fun item row =>
               row_item row = g item /\ rawTitle row = llm_title item /\
               rawCreator row = llm_creator item /\
               rawType row = llm_type item /\ rawYear row = llm_year item)
            items rows.
Proof.
  revert pre. induction items as [|x items IH]; intros pre.
  - exists []. split; [reflexivity|constructor].
  - cbn [map imap collect]. unfold save_row at 1.
    rewrite Nat.add_0_r, list_lookup_middle by reflexivity.
    destruct (IH (pre ++ [x])) as (rows & Hrows & Hall).
    rewrite (imap_ext _ (fun i => save_row ((pre ++ [x]) ++ items)
                                           (length (pre ++ [x]) + i))).
    + rewrite Hrows. eexists. split; [reflexivity|].
      constructor; [cbn; auto|exact Hall].
    + intros i r _. cbn. rewrite <- app_assoc, length_app. cbn.
      f_equal. lia.
Qed.

End Rows.

(** X11: every item returned by enrichment and the library cross-reference
    keeps the title that was read, never has source [plex], has an overview
    of at most 500 characters and, when it is not [unmatched], has source
    [tmdb], a TMDB id and a type allowed for the input type (movie for
    movie, tv for tv, either for dvd, none for the other types). *)
Theorem matched_items_come_from_catalog
        (resolveTVDBId : World -> jsstring -> option jsnum -> option jsstring ->
                         ItemType -> M (option Z))
        (w : World) (items : list LLMIdentifiedItem) (out : list EnrichedItem) :
  outcome (enrichAndCrossReference resolveTVDBId w items) = Ok out ->
  Forall2 made_from items out.
Proof.
  intros Hout. destruct (isTMDBConfigured w) eqn:Hkey.
  - destruct (enrichAndCrossReference_map resolveTVDBId w items Hkey)
      as (g & Hg & Hall).
    rewrite Hg in Hout. injection Hout as <-.
    apply Forall2_map_r_intro, Hall.
  - unfold enrichAndCrossReference in Hout. rewrite outcome_bind in Hout.
    destruct (enrichItems_unconfigured resolveTVDBId w items None Hkey)
      as [msg Hm].
    rewrite Hm in Hout. discriminate.
Qed.

Lemma matched_items_come_from_catalog_witness :
  exists out,
    outcome (enrichAndCrossReference Tvdb.resolveTVDBId Sample.world
               [Sample.item "Inception" dvd None; Sample.item "Abbey Road" vinyl None])
    = Ok out /\
    Forall2 made_from
      [Sample.item "Inception" dvd None; Sample.item "Abbey Road" vinyl None] out.
Proof.
  eexists. split; [vm_compute; reflexivity|].
  apply (matched_items_come_from_catalog Tvdb.resolveTVDBId Sample.world).
  vm_compute. reflexivity.
Defined.

(** X12: with the TMDB key configured, [enrichAndSaveItems] always succeeds
    and writes one row per item, in order, whose raw title, creator, type
    and year are the item's and whose title is the item's title. *)
Theorem saved_rows_mirror_items
        (resolveTVDBId : World -> jsstring -> option jsnum -> option jsstring ->
                         ItemType -> M (option Z))
        (w : World) (items : list LLMIdentifiedItem) :
  isTMDBConfigured w = true ->
  exists rows,
    outcome (enrichAndSaveItems resolveTVDBId w items) = Ok rows /\
    Forall2 row_of items rows.
Proof.
  intros Hkey. unfold enrichAndSaveItems. rewrite outcome_bind.
  destruct (enrichAndCrossReference_map resolveTVDBId w items Hkey)
    as (g & -> & Hall).
  unfold lift. cbn [outcome].
  destruct (collect_save_rows [] items g) as (rows & Hrows & Hr).
  exists rows. split; [exact Hrows|].
  eapply Forall2_impl; [exact Hr|].
  intros item row (Hi & H1 & H2 & H3 & H4). repeat split; auto.
  rewrite Hi. apply Hall.
Qed.

Lemma saved_rows_mirror_items_witness :
  exists rows,
    outcome (enrichAndSaveItems Tvdb.resolveTVDBId Sample.world
               [Sample.item "Broken" movie None; Sample.item "Inception" movie None])
    = Ok rows /\
    Forall2 row_of
      [Sample.item "Broken" movie None; Sample.item "Inception" movie None] rows.
Proof.
  apply (saved_rows_mirror_items Tvdb.resolveTVDBId Sample.world). reflexivity.
Defined.

End EnrichedItems.

(** ** Number of requests *)

Section RequestBudget.

Section Cost.

Local Open Scope nat_scope.




















End Cost.


(** On a cold genre cache the sample scan of one movie issues seven
    requests: the two genre lists, the search and the details of the
    primary catalog, and three lookups of the supplemental catalog. *)
Example cold_start_requests :
  trace (enrichItems Tvdb.resolveTVDBId Sample.world
           [Sample.item "Inception" movie None] None)
  = [TmdbMovieGenres; TmdbTVGenres;
     TmdbSearchMovie (js "Inception") None; TmdbMovieDetails 27205;
     TvdbSearchRemoteId (js "tt1375666"); TvdbRemoteIdPath (js "tt1375666");
     TvdbSearch (js "Inception") movie_kind (Some 2010%Z)].
Proof. vm_compute. reflexivity. Qed.

End RequestBudget.

(** ** Library matching *)

Section LibraryMatching.

Lemma tidy_collapse_from b s : tidy (collapse_from b s).
Proof.
  revert b. induction s as [|c s IH]; intros b; cbn; [exact I|].
  destruct (is_space c) eqn:E.
  - destruct b; [apply IH|]. cbn. split; [|apply IH].
    intros _. clear IH. induction s as [|d s IH]; cbn; [exact I|].
    destruct (is_space d) eqn:Ed; [exact IH|exact Ed].
  - cbn. split; [congruence|apply IH].
Qed.

Lemma collapse_from_spaces b s :
  Forall (fun c => is_space c = true -> c = " "%char) (collapse_from b s).
Proof.
  revert b. induction s as [|c s IH]; intros b; cbn; [constructor|].
  destruct (is_space c) eqn:E.
  - destruct b; [apply IH|]. constructor; [reflexivity|apply IH].
  - constructor; [congruence|apply IH].
Qed.

Lemma collapse_from_elems (P : ascii -> Prop) b s :
  P " "%char -> Forall P s -> Forall P (collapse_from b s).
Proof.
  intros Hsp H. revert b. induction H as [|c s Hc _ IH]; intros b; cbn;
    [constructor|].
  destruct (is_space c); [destruct b|]; try constructor; auto.
Qed.

Lemma collapse_tidy s :
  tidy s -> Forall (fun c => is_space c = true -> c = " "%char) s ->
  collapse_from false s = s.
Proof.
  induction s as [|c s IH]; [reflexivity|].
  intros [Hc Ht] Hall. apply Forall_cons in Hall. destruct Hall as [Hsp Hall].
  cbn. destruct (is_space c) eqn:E.
  - rewrite (Hsp eq_refl). f_equal.
    specialize (Hc eq_refl). specialize (IH Ht Hall).
    destruct s as [|d s]; [reflexivity|]. cbn in Hc. cbn in *.
    rewrite Hc in *. exact IH.
  - f_equal. apply IH; assumption.
Qed.

Lemma starts_clean_take n s : starts_clean s -> starts_clean (take n s).
Proof. destruct n, s; cbn; auto. Qed.

Lemma tidy_take n s : tidy s -> tidy (take n s).
Proof.
  revert n. induction s as [|c s IH]; intros [|n]; cbn; auto.
  intros [Hc Ht]. split; [|apply IH, Ht].
  intros E. apply starts_clean_take, Hc, E.
Qed.

Lemma tidy_drop n s : tidy s -> tidy (drop n s).
Proof.
  revert n. induction s as [|c s IH]; intros [|n]; cbn; auto.
  intros [_ Ht]. apply IH, Ht.
Qed.

Lemma trimStart_drop s : exists n, trimStart s = drop n s.
Proof.
  destruct (trimStart_split s) as (ws & Hs & _).
  exists (length ws). rewrite Hs at 2. rewrite drop_app_length. reflexivity.
Qed.

Lemma trim_sub (P : jsstring -> Prop) s :
  (forall n u, P u -> P (take n u)) -> (forall n u, P u -> P (drop n u)) ->
  P s -> P (trim s).
Proof.
  intros Htake Hdrop Hs. unfold trim.
  destruct (trimEnd_prefix (trimStart s)) as (n & ->).
  destruct (trimStart_drop s) as (k & ->). auto.
Qed.

Lemma plain_filtered title :
  Forall (fun c => keeps c = true /\ lower c = c)
         (filter (fun c => keeps c = true) (toLowerCase title)).
Proof.
  apply Forall_forall. intros c Hc. apply list_elem_of_In in Hc.
  apply list_elem_of_In, list_elem_of_filter in Hc. destruct Hc as [Hk Hc].
  split; [exact Hk|].
  apply list_elem_of_In, in_map_iff in Hc. destruct Hc as (x & <- & _).
  apply lower_idem.
Qed.

Lemma normalizeTitle_plain title : Forall plain (normalizeTitle title).
Proof.
  unfold normalizeTitle, collapse.
  apply (trim_sub (Forall plain)).
  - intros n u. apply Forall_take.
  - intros n u. apply Forall_drop.
  - pose proof (plain_filtered title) as H1.
    pose proof (collapse_from_spaces false
                  (filter (fun c => keeps c = true) (toLowerCase title))) as H2.
    pose proof (collapse_from_elems (fun c => keeps c = true /\ lower c = c) false
                  _ (conj eq_refl eq_refl) H1) as H3.
    apply Forall_forall. intros c Hc.
    rewrite Forall_forall in H2, H3.
    specialize (H2 c Hc). specialize (H3 c Hc). unfold plain. tauto.
Qed.

Lemma normalizeTitle_tidy title : tidy (normalizeTitle title).
Proof.
  unfold normalizeTitle, collapse.
  apply (trim_sub tidy); [intros; apply tidy_take; assumption
                         |intros; apply tidy_drop; assumption|].
  apply tidy_collapse_from.
Qed.

Lemma normalizeTitle_fixed (u : jsstring) :
  Forall plain u -> tidy u -> trim u = u -> normalizeTitle u = u.
Proof.
  intros Hp Ht Htrim. unfold normalizeTitle, collapse.
  unfold jsstring in *.
  assert (toLowerCase u = u) as ->.
  { unfold toLowerCase. rewrite <- (map_id u) at 2. apply map_ext_Forall.
    eapply Forall_impl; [exact Hp|]. intros c (_ & H & _). exact H. }
  assert (filter (fun c => keeps c = true) u = u) as ->.
  { clear Ht Htrim. induction Hp as [|c u (Hk & _) _ IH]; [reflexivity|].
    rewrite filter_cons_True by exact Hk. f_equal. exact IH. }
  rewrite collapse_tidy; [exact Htrim|exact Ht|].
  eapply Forall_impl; [exact Hp|]. intros c (_ & _ & H). exact H.
Qed.

(** X14: [normalizeTitle] is idempotent and its result is canonical: only
    lower-case letters, digits and the space character, no two white-space
    characters in a row, none at either end. *)
Theorem normalizeTitle_canonical (title : jsstring) :
  normalizeTitle (normalizeTitle title) = normalizeTitle title /\
  Forall plain (normalizeTitle title) /\
  tidy (normalizeTitle title) /\
  trim (normalizeTitle title) = normalizeTitle title.
Proof.
  assert (trim (normalizeTitle title) = normalizeTitle title) as Htrim
      by apply trim_idem.
  split; [|split; [apply normalizeTitle_plain|split;
                   [apply normalizeTitle_tidy|exact Htrim]]].
  apply normalizeTitle_fixed;
    [apply normalizeTitle_plain|apply normalizeTitle_tidy|exact Htrim].
Qed.

Lemma startsWith_refl s : startsWith s s = true.
Proof. induction s; cbn; [reflexivity|]. rewrite ascii_eqb_refl. exact IHs. Qed.

Lemma includes_refl s : includes s s = true.
Proof. destruct s; cbn; [reflexivity|]. rewrite ascii_eqb_refl, startsWith_refl. reflexivity. Qed.

Lemma includes_nil s : includes s [] = true.
Proof. destruct s; reflexivity. Qed.

Lemma match_loop_find q year plexItems :
  match_loop q year plexItems =
  match List.find (accepts q year) plexItems with
  | Some plexItem => found plexItem
  | None => not_found
  end.
Proof.
  induction plexItems as [|p rest IH]; [reflexivity|].
  cbn [match_loop List.find]. unfold accepts at 1. cbv zeta.
  destruct (str_eqb q (normalizeTitle (plex_title p))) eqn:E.
  - apply str_eqb_eq in E. rewrite <- E, includes_refl. cbn [orb andb].
    destruct (year_mismatch year (plex_year p)); cbn [negb]; [exact IH|reflexivity].
  - destruct (includes q _ || includes _ q); cbn [andb]; [|exact IH].
    destruct (year_mismatch year (plex_year p)); cbn [negb]; [exact IH|reflexivity].
Qed.

(** X15: [matchWithPlex] returns the first library item whose normalized
    title contains, or is contained in, the normalized query and whose year
    does not conflict; the exact-match branch never changes the answer.
    Without such an item the result is the unmatched one. *)
Theorem matchWithPlex_first_accepted (title : jsstring) (year : option jsnum)
        (plexItems : list PlexItem) :
  matchWithPlex title year plexItems =
  match List.find (accepts (normalizeTitle title) year) plexItems with
  | Some plexItem => found plexItem
  | None => not_found
  end.
Proof. apply match_loop_find. Qed.

(** X16: a title that normalizes to the empty string matches: when the
    query or the first library item normalizes to the empty string and the
    years do not conflict, [matchWithPlex] returns that library item. *)
Theorem empty_normalized_title_matches (title : jsstring) (year : option jsnum)
        (plexItem : PlexItem) (rest : list PlexItem) :
  normalizeTitle title = [] \/ normalizeTitle (plex_title plexItem) = [] ->
  year_mismatch year (plex_year plexItem) = false ->
  matchWithPlex title year (plexItem :: rest) = found plexItem.
Proof.
  intros He Hy. unfold matchWithPlex. rewrite match_loop_find. cbn [List.find].
  unfold accepts. rewrite Hy. destruct He as [-> | ->];
    rewrite includes_nil, ?orb_true_r; reflexivity.
Qed.

Lemma empty_normalized_title_matches_witness :
  matchWithPlex (js "?!") (Some (Num 1969)) [Sample.abbeyRoad]
  = found Sample.abbeyRoad.
Proof.
  apply empty_normalized_title_matches; [left; reflexivity|reflexivity].
Defined.

Lemma library_update_refl e : library_update e e.
Proof. repeat split; auto. Qed.

Lemma plexMerge_update plexItems e : library_update e (plexMerge plexItems e).
Proof.
  unfold plexMerge. destruct (matched _); [|apply library_update_refl].
  cbv zeta.
  destruct (negb (truthy_ostr (imdbId (set_plex _ e))) && _) eqn:E1;
    destruct (falsy_id (tvdbId _) && _) eqn:E2;
    cbn in E1, E2;
    try (apply andb_true_iff in E1; destruct E1 as [E1 _];
         apply negb_true_iff in E1);
    try (apply andb_true_iff in E2; destruct E2 as [E2 _]);
    repeat split; cbn; intros; auto; congruence.
Qed.

(** X17: the library cross-reference never fails and issues no catalog
    request; item by item it changes at most the library flag and key and
    identifiers that were missing, and it returns the items unchanged when
    the library is not configured or cannot be fetched. *)
Theorem library_step_is_safe (w : World) (enriched : list EnrichedItem) :
  exists out,
    outcome (crossReference w enriched) = Ok out /\
    Forall2 library_update enriched out /\
    (isPlexConfigured w = false \/ (exists msg, plex_items w = Throw msg) ->
     out = enriched) /\
    trace (crossReference w enriched) = [].
Proof.
  unfold crossReference. destruct (isPlexConfigured w) eqn:Hc.
  - rewrite outcome_try_catch, trace_try_catch, outcome_bind, trace_bind.
    unfold fetchAllPlexItems. cbn [outcome trace].
    destruct (plex_items w) as [plexItems|msg] eqn:Hp; cbn [ret outcome trace app].
    + exists (map (plexMerge plexItems) enriched). split; [reflexivity|].
      split; [|split; [|reflexivity]].
      * clear. induction enriched; cbn; constructor;
          [apply plexMerge_update|assumption].
      * intros [H|[m H]]; discriminate.
    + exists enriched. split; [reflexivity|]. split; [|split; [auto|reflexivity]].
      clear. induction enriched; constructor; [apply library_update_refl|assumption].
  - exists enriched. cbn. split; [reflexivity|]. split; [|split; [auto|reflexivity]].
    clear. induction enriched; constructor; [apply library_update_refl|assumption].
Qed.

End LibraryMatching.

(** ** Identifiers of the supplemental catalog *)

Section Identifiers.

Import DecimalString DecimalZ.

(** ** Printing and reading integers *)

Lemma digits_acc (u : Decimal.uint) (acc : positive) :
  digits 10 (Some (Z.pos acc)) (js (NilEmpty.string_of_uint u))
  = Some (Z.pos (Pos.of_uint_acc u acc)).
Proof.
  revert acc. induction u; intros acc; cbn [NilEmpty.string_of_uint js
    list_ascii_of_string digits Pos.of_uint_acc]; [reflexivity|..];
    (match goal with
     | |- context [digit_val 10 ?c] =>
         change (digit_val 10 c) with (Some (Z.of_N (code c - 48)))
     end;
     cbn [default]; unfold js in IHu; rewrite <- IHu; f_equal; f_equal;
     cbn; lia).
Qed.

Lemma digits_zero (u : Decimal.uint) :
  digits 10 (Some 0) (js (NilEmpty.string_of_uint u))
  = Some (Z.of_N (Pos.of_uint u)).
Proof.
  induction u; cbn [NilEmpty.string_of_uint js list_ascii_of_string digits
                    Pos.of_uint]; [reflexivity|exact IHu|..];
    (match goal with
     | |- context [digit_val 10 ?c] =>
         change (digit_val 10 c) with (Some (Z.of_N (code c - 48)))
     end;
     cbn [default];
     match goal with
     | |- digits 10 (Some ?v) _ = Some (Z.of_N (N.pos (Pos.of_uint_acc _ ?k))) =>
         change v with (Z.pos k)
     end;
     apply digits_acc).
Qed.

Lemma digits_none (u : Decimal.uint) :
  u <> Decimal.Nil ->
  digits 10 None (js (NilEmpty.string_of_uint u)) = Some (Z.of_N (Pos.of_uint u)).
Proof.
  intros Hu. rewrite <- digits_zero. destruct u; [congruence|..]; reflexivity.
Qed.

Lemma to_uint_not_nil p : Pos.to_uint p <> Decimal.Nil.
Proof.
  intros H. pose proof (DecimalPos.Unsigned.of_to p) as Hp.
  rewrite H in Hp. discriminate.
Qed.

Lemma string_of_uint_pos p :
  NilZero.string_of_uint (Pos.to_uint p) = NilEmpty.string_of_uint (Pos.to_uint p).
Proof.
  pose proof (to_uint_not_nil p). destruct (Pos.to_uint p); [congruence|..];
    reflexivity.
Qed.

(** The printed form of a positive number: digits, the first not a
    white space, a sign or a zero-x prefix. *)
Lemma parseInt_digits (s : jsstring) c :
  is_digit c = true ->
  parseInt (c :: s) (Some 10%N) =
  match digits 10 None (c :: s) with Some v => Num v | None => NaN end.
Proof.
  intros Hc. unfold parseInt. cbn [trimStart].
  assert (is_space c = false) as ->.
  { revert Hc. destruct c as [[] [] [] [] [] [] [] []]; vm_compute; congruence. }
  assert (ascii_eqb c "-" = false) as ->.
  { revert Hc. destruct c as [[] [] [] [] [] [] [] []]; vm_compute; congruence. }
  assert (ascii_eqb c "+" = false) as ->.
  { revert Hc. destruct c as [[] [] [] [] [] [] [] []]; vm_compute; congruence. }
  destruct (digits 10 None (c :: s)) as [v|]; [|reflexivity].
  f_equal. lia.
Qed.

Lemma uint_head_digit u :
  u <> Decimal.Nil ->
  exists c s, js (NilEmpty.string_of_uint u) = c :: s /\ is_digit c = true.
Proof.
  destruct u; [congruence|..]; intros _; cbn; eauto.
Qed.

Lemma parseInt_String_pos p :
  parseInt (String_of_int (Z.pos p)) (Some 10%N) = Num (Z.pos p).
Proof.
  unfold String_of_int. cbn [Z.to_int NilZero.string_of_int].
  rewrite string_of_uint_pos.
  destruct (uint_head_digit _ (to_uint_not_nil p)) as (c & s & Hs & Hc).
  rewrite Hs, (parseInt_digits s c Hc), <- Hs.
  rewrite (digits_none _ (to_uint_not_nil p)).
  rewrite DecimalPos.Unsigned.of_to. reflexivity.
Qed.

Lemma parseInt_String (n : Z) : parseInt (String_of_int n) (Some 10%N) = Num n.
Proof.
  destruct n as [|p|p]; [reflexivity|apply parseInt_String_pos|].
  unfold String_of_int. cbn [Z.to_int NilZero.string_of_int].
  rewrite string_of_uint_pos.
  unfold parseInt. cbn [js list_ascii_of_string trimStart].
  change (is_space "-") with false. cbv iota.
  change (ascii_eqb "-" "-") with true. cbv iota beta.
  fold (js (NilEmpty.string_of_uint (Pos.to_uint p))).
  rewrite (digits_none _ (to_uint_not_nil p)).
  rewrite DecimalPos.Unsigned.of_to. reflexivity.
Qed.

(** ** Identifiers in TVDB search results *)

Lemma uint_digits u : Forall (fun c => is_digit c = true) (js (NilEmpty.string_of_uint u)).
Proof. induction u; cbn; constructor; auto. Qed.

Lemma String_pos_digits p :
  Forall (fun c => is_digit c = true) (String_of_int (Z.pos p)).
Proof.
  unfold String_of_int. cbn [Z.to_int NilZero.string_of_int].
  rewrite string_of_uint_pos. apply uint_digits.
Qed.

Lemma String_pos_truthy p : truthy_str (String_of_int (Z.pos p)) = true.
Proof.
  unfold String_of_int. cbn [Z.to_int NilZero.string_of_int].
  rewrite string_of_uint_pos.
  destruct (uint_head_digit _ (to_uint_not_nil p)) as (c & s & -> & _).
  reflexivity.
Qed.

Lemma after_last_dash_digits d :
  Forall (fun c => is_digit c = true) d -> Tvdb.after_last_dash d = None.
Proof.
  induction 1 as [|c d Hc _ IH]; [reflexivity|]. cbn. rewrite IH.
  assert (ascii_eqb c "-" = false) as ->; [|reflexivity].
  revert Hc. destruct c as [[] [] [] [] [] [] [] []]; vm_compute; congruence.
Qed.

Lemma after_last_dash_app prefix d :
  Forall (fun c => is_digit c = true) d ->
  Tvdb.after_last_dash (prefix ++ "-"%char :: d) = Some d.
Proof.
  intros Hd. induction prefix as [|c prefix IH]; cbn.
  - rewrite (after_last_dash_digits d Hd). reflexivity.
  - rewrite IH. reflexivity.
Qed.

Lemma positive_id_pos n z : Tvdb.positive_id n = Some z -> 0 < z.
Proof.
  destruct n as [|v]; cbn; [discriminate|].
  destruct (0 <? v) eqn:E; [|discriminate]. intros [= <-]. lia.
Qed.

(** X18: [extractTVDBId] only returns positive ids and reads a printed id
    back: for an integer [n] with [0 < n <= Number.MAX_SAFE_INTEGER] it
    returns [n] from [tvdb_id = String(n)] and, without [tvdb_id], from an
    [id] (or else an [objectID]) of the form [prefix-String(n)]. *)
Theorem extractTVDBId_reads_ids (result : TVDBSearchResult) :
  (forall z, Tvdb.extractTVDBId result = Some z -> 0 < z) /\
  (forall n, 0 < n <= MAX_SAFE_INTEGER ->
     sr_tvdb_id result = Some (String_of_int n) ->
     Tvdb.extractTVDBId result = Some n) /\
  (forall n prefix, 0 < n <= MAX_SAFE_INTEGER ->
     sr_tvdb_id result = None ->
     sr_id result = Some (prefix ++ js "-" ++ String_of_int n) ->
     Tvdb.extractTVDBId result = Some n) /\
  (forall n prefix, 0 < n <= MAX_SAFE_INTEGER ->
     sr_tvdb_id result = None -> sr_id result = None ->
     sr_objectID result = Some (prefix ++ js "-" ++ String_of_int n) ->
     Tvdb.extractTVDBId result = Some n).
Proof.
  assert (forall n prefix, 0 < n ->
            Tvdb.positive_id
              (parseInt (Tvdb.numeric_part (prefix ++ js "-" ++ String_of_int n))
                        (Some 10%N)) = Some n) as Hdash.
  { intros n prefix Hn. destruct n as [|p|p]; try lia.
    unfold Tvdb.numeric_part. cbn [js list_ascii_of_string app].
    rewrite (after_last_dash_app prefix _ (String_pos_digits p)).
    rewrite parseInt_String. reflexivity. }
  split; [|split; [|split]].
  - intros z. unfold Tvdb.extractTVDBId.
    destruct (match sr_tvdb_id result with Some _ => _ | None => _ end) eqn:E1.
    { intros [= <-]. destruct (sr_tvdb_id result) as [s|]; [|discriminate].
      destruct (truthy_str s); [|discriminate].
      eapply positive_id_pos; eauto. }
    destruct (match sr_id result with Some _ => _ | None => _ end) eqn:E2.
    { intros [= <-]. destruct (sr_id result) as [s|]; [|discriminate].
      destruct (truthy_str s); [|discriminate].
      eapply positive_id_pos; eauto. }
    destruct (sr_objectID result) as [s|]; [|discriminate].
    destruct (truthy_str s); [|discriminate]. apply positive_id_pos.
  - intros n [Hn _] Ht. destruct n as [|p|p]; try lia.
    unfold Tvdb.extractTVDBId. rewrite Ht, String_pos_truthy, parseInt_String.
    reflexivity.
  - intros n prefix [Hn _] Ht Hi. unfold Tvdb.extractTVDBId. rewrite Ht, Hi.
    rewrite (Hdash n prefix Hn).
    destruct (prefix ++ js "-" ++ String_of_int n) eqn:E; [|reflexivity].
    destruct prefix; discriminate.
  - intros n prefix [Hn _] Ht Hi Ho. unfold Tvdb.extractTVDBId. rewrite Ht, Hi, Ho.
    rewrite (Hdash n prefix Hn).
    destruct (prefix ++ js "-" ++ String_of_int n) eqn:E; [|reflexivity].
    destruct prefix; discriminate.
Qed.

End Identifiers.

(** ** The supplemental catalog *)

Section SupplementalCatalog.

Import TokenCache.

(** X19: [getToken] makes at most one login request, only returns non-empty
    tokens, leaves the cache as it was when it throws, and after a
    successful login answers from the cache, without a request, until the
    token expires. *)
Theorem token_cache_protocol (apiKey : option jsstring) (now : Z)
        (login : Fetch (option jsstring)) (st : TokenState) :
  let c := getToken apiKey now login st in
  (logins c <= 1)%nat /\
  (forall token, result c = Ok token -> truthy_str token = true) /\
  (forall msg, result c = Throw msg -> state c = st) /\
  (forall token, logins c = 1%nat -> result c = Ok token ->
     forall now' login', now' < now + TOKEN_LIFETIME_MS ->
       getToken apiKey now' login' (state c)
       = {| logins := 0; result := Ok token; state := state c |}).
Proof.
  unfold getToken. destruct (truthy_ostr apiKey) eqn:Hk; cbn [negb].
  2:{ cbn. repeat split; try lia; try discriminate; auto. }
  destruct (truthy_ostr (cachedToken st) && (now <? tokenExpiresAt st)) eqn:Hc.
  { cbn. apply andb_true_iff in Hc. destruct Hc as [Ht _].
    repeat split; try lia; try discriminate.
    intros token [= <-]. destruct (cachedToken st); [exact Ht|discriminate]. }
  destruct login as [| |token]; cbn;
    try (repeat split; try lia; try discriminate; auto; fail).
  destruct (truthy_ostr token) eqn:Ht; cbn;
    [|repeat split; try lia; try discriminate; auto].
  repeat split; try lia; try discriminate.
  - intros tok [= <-]. destruct token; [exact Ht|discriminate].
  - intros tok _ [= <-] now' login' Hn. cbn [negb cachedToken tokenExpiresAt].
    rewrite Ht. apply Z.ltb_lt in Hn. rewrite Hn. reflexivity.
Qed.

(** ** A login that fails *)

(** X20: when the login is refused, [resolveTVDBId] (both versions) returns
    [null] without throwing and without a search request. *)
Theorem tvdb_login_failure (w : World) (msg : string) :
  tvdb_login w = Throw msg ->
  forall title year imdbId type,
    Tvdb.resolveTVDBId w title year imdbId type = ret None /\
    TvdbLegacy.resolveTVDBId w title year imdbId type = ret None.
Proof.
  intros Hl title year imdbId type.
  assert (forall kind t, Tvdb.searchTVDB kind w t year = ret None) as Hs.
  { intros kind t. unfold Tvdb.searchTVDB, Tvdb.getToken. rewrite Hl.
    destruct (configured _); reflexivity. }
  assert (forall kind t, TvdbLegacy.searchTVDB kind w t year = ret None) as Hs'.
  { intros kind t. unfold TvdbLegacy.searchTVDB, TvdbLegacy.getToken,
      Tvdb.getToken. rewrite Hl. destruct (configured _); reflexivity. }
  assert (forall id, Tvdb.findTVDBByImdbId w id = ret None) as Hf.
  { intros id. unfold Tvdb.findTVDBByImdbId, Tvdb.getToken. rewrite Hl.
    destruct (configured _); reflexivity. }
  assert (forall id, TvdbLegacy.findTVDBByImdbId w id = ret None) as Hf'.
  { intros id. unfold TvdbLegacy.findTVDBByImdbId, TvdbLegacy.getToken,
      Tvdb.getToken. rewrite Hl. destruct (configured _); reflexivity. }
  split.
  - unfold Tvdb.resolveTVDBId, Tvdb.searchTVDBSeries, Tvdb.searchTVDBMovie.
    destruct (negb _); [reflexivity|].
    rewrite Hf. destruct (truthy_ostr imdbId); rewrite bind_ret_l;
      destruct type; rewrite ?Hs, ?bind_ret_l, ?Hs; try reflexivity;
      destruct (negb _); rewrite ?Hs; reflexivity.
  - unfold TvdbLegacy.resolveTVDBId, TvdbLegacy.searchTVDBSeries,
      TvdbLegacy.searchTVDBMovie.
    destruct (negb _); [reflexivity|].
    rewrite Hf'. destruct (truthy_ostr imdbId); rewrite bind_ret_l;
      destruct type; rewrite ?Hs', ?bind_ret_l, ?Hs', ?bind_ret_l; reflexivity.
Qed.

Lemma tvdb_login_failure_witness :
  Tvdb.resolveTVDBId world_without_login (js "Breaking Bad") None
                     (Some (js "tt0903747")) tv = ret None /\
  TvdbLegacy.resolveTVDBId world_without_login (js "Breaking Bad") None
                     (Some (js "tt0903747")) tv = ret None.
Proof.
  apply (tvdb_login_failure world_without_login
           "TVDB login failed: 401 Unauthorized" eq_refl).
Defined.

(** ** Resolution by title *)

Section TitleGate.

Local Open Scope Q_scope.

(** X21: an id that [resolveTVDBId] returns for an item without IMDB id is
    the id of a result of a title search (for the title or its series name)
    whose score is at least 0.5 and is the highest of that search. *)
Theorem title_resolution_passes_gate
        (w : World) (title : jsstring) (year : option jsnum)
        (type : ItemType) (id : Z) :
  outcome (Tvdb.resolveTVDBId w title year None type) = Ok (Some id) ->
  exists kind query results r,
    (query = title \/ query = extractSeriesName title) /\
    tvdb_search w query kind (Tvdb.year_param year) = FetchData (Some results) /\
    In r results /\ Tvdb.extractTVDBId r = Some id /\
    5 # 10 <= Tvdb.scoreTVDBResult query year r /\
    (forall r', In r' results ->
                Tvdb.scoreTVDBResult query year r'
                <= Tvdb.scoreTVDBResult query year r).
Proof.
  assert (forall kind query,
            query = title \/ query = extractSeriesName title ->
            outcome (Tvdb.searchTVDB kind w query year) = Ok (Some id) ->
            exists kind query results r,
              (query = title \/ query = extractSeriesName title) /\
              tvdb_search w query kind (Tvdb.year_param year)
              = FetchData (Some results) /\
              In r results /\ Tvdb.extractTVDBId r = Some id /\
              5 # 10 <= Tvdb.scoreTVDBResult query year r /\
              (forall r', In r' results ->
                          Tvdb.scoreTVDBResult query year r'
                          <= Tvdb.scoreTVDBResult query year r)) as Hone.
  { intros kind query Hq H.
    destruct (scored_search_threshold query year kind w id H)
      as (results & r & H1 & H2 & H3 & H4 & H5).
    exists kind, query, results, r. repeat split; assumption. }
  unfold Tvdb.resolveTVDBId.
  destruct (negb _); [discriminate|].
  cbn [truthy_ostr]. rewrite bind_ret_l.
  unfold Tvdb.searchTVDBSeries, Tvdb.searchTVDBMovie.
  destruct type.
  2:{ rewrite outcome_bind.
      destruct (outcome (Tvdb.searchTVDB series w (extractSeriesName title) year))
        as [[z|]|] eqn:E; try discriminate.
      - cbn. intros [= ->]. apply (Hone series (extractSeriesName title)); auto.
      - destruct (negb _); [|discriminate].
        intros H. apply (Hone series title); auto. }
  1:{ intros H. apply (Hone movie_kind title); auto. }
  all: rewrite outcome_bind;
    destruct (outcome (Tvdb.searchTVDB movie_kind w title year))
      as [[z|]|] eqn:E; try discriminate;
    [cbn; intros [= ->]; apply (Hone movie_kind title); auto
    |intros H; apply (Hone series title); auto].
Qed.

Lemma title_resolution_passes_gate_witness :
  exists kind query results r,
    (query = js "Breaking Bad - Season 1"
     \/ query = extractSeriesName (js "Breaking Bad - Season 1")) /\
    tvdb_search Sample.world query kind (Tvdb.year_param None)
    = FetchData (Some results) /\
    In r results /\ Tvdb.extractTVDBId r = Some 81189%Z /\
    5 # 10 <= Tvdb.scoreTVDBResult query None r /\
    (forall r', In r' results ->
                Tvdb.scoreTVDBResult query None r'
                <= Tvdb.scoreTVDBResult query None r).
Proof.
  apply (title_resolution_passes_gate Sample.world
           (js "Breaking Bad - Season 1") None tv 81189%Z).
  vm_compute. reflexivity.
Defined.

End TitleGate.

End SupplementalCatalog.

(** ** Coercion before validation *)

Section CoercionFacts.

Import Coerce.

(** ** What the validation accepts after the coercion *)

Lemma str_eqb_sym a b : str_eqb a b = str_eqb b a.
Proof.
  destruct (str_eqb a b) eqn:E.
  - apply str_eqb_eq in E. subst. symmetry. apply str_eqb_refl.
  - destruct (str_eqb b a) eqn:E'; [|reflexivity].
    apply str_eqb_eq in E'. subst. rewrite str_eqb_refl in E. discriminate.
Qed.

Lemma get_set_eq k v o : get k (set k v o) = v.
Proof.
  induction o as [|[k' v'] o IH]; cbn; [rewrite str_eqb_refl; reflexivity|].
  destruct (str_eqb k k') eqn:E; cbn; rewrite E; [reflexivity|exact IH].
Qed.

Lemma get_set_ne k k' v o :
  str_eqb k k' = false -> get k (set k' v o) = get k o.
Proof.
  intros Hne. induction o as [|[k2 v2] o IH]; cbn; [rewrite Hne; reflexivity|].
  destruct (str_eqb k' k2) eqn:E; cbn; [|rewrite IH; reflexivity].
  apply str_eqb_eq in E. subst k2. rewrite Hne. reflexivity.
Qed.

Lemma has_set_eq k v o : has k (set k v o) = true.
Proof.
  induction o as [|[k' v'] o IH]; cbn; [rewrite str_eqb_refl; reflexivity|].
  destruct (str_eqb k k') eqn:E; cbn; rewrite E; [reflexivity|exact IH].
Qed.

Lemma has_set_ne k k' v o :
  str_eqb k k' = false -> has k (set k' v o) = has k o.
Proof.
  intros Hne. induction o as [|[k2 v2] o IH]; cbn;
    [rewrite Hne; reflexivity|].
  destruct (str_eqb k' k2) eqn:E; cbn; [|rewrite IH; reflexivity].
  reflexivity.
Qed.

Lemma has_delete_eq k o : has k (delete k o) = false.
Proof.
  induction o as [|[k' v'] o IH]; cbn; [reflexivity|].
  destruct (str_eqb k k') eqn:E; cbn; [exact IH|]. rewrite E. exact IH.
Qed.

Lemma has_delete_ne k k' o :
  str_eqb k k' = false -> has k (delete k' o) = has k o.
Proof.
  intros Hne. induction o as [|[k2 v2] o IH]; cbn; [reflexivity|].
  destruct (str_eqb k' k2) eqn:E; cbn; [|rewrite IH; reflexivity].
  apply str_eqb_eq in E. subst k2. rewrite Hne. exact IH.
Qed.

Lemma get_delete_ne k k' o :
  str_eqb k k' = false -> get k (delete k' o) = get k o.
Proof.
  intros Hne. induction o as [|[k2 v2] o IH]; cbn; [reflexivity|].
  destruct (str_eqb k' k2) eqn:E; cbn; [|rewrite IH; reflexivity].
  apply str_eqb_eq in E. subst k2. rewrite Hne. exact IH.
Qed.

Lemma set_set k v v' o : set k v (set k v' o) = set k v o.
Proof.
  induction o as [|[k' v2] o IH]; cbn; [rewrite str_eqb_refl; reflexivity|].
  destruct (str_eqb k k') eqn:E; cbn; rewrite E; [reflexivity|].
  rewrite IH. reflexivity.
Qed.

Lemma set_get k o : has k o = true -> set k (get k o) o = o.
Proof.
  induction o as [|[k' v'] o IH]; cbn; [discriminate|].
  destruct (str_eqb k k') eqn:E; cbn; [reflexivity|].
  intros H. rewrite IH by exact H. reflexivity.
Qed.

Lemma get_has k o : get k o <> VUndefined -> has k o = true.
Proof.
  induction o as [|[k' v'] o IH]; cbn; [congruence|].
  destruct (str_eqb k k'); [reflexivity|exact IH].
Qed.

Lemma coerceItem_steps i :
  coerceItem (VObject i) = VObject (step_year (step_author (step_type i))).
Proof. reflexivity. Qed.

(** What each step leaves of the properties the other steps read. *)
Lemma step_type_other k i :
  str_eqb k (js "type") = false ->
  get k (step_type i) = get k i /\ has k (step_type i) = has k i.
Proof.
  intros Hk. unfold step_type. destruct (get (js "type") i); auto.
  rewrite get_set_eq. destruct (is_string _ _);
    rewrite ?get_set_ne, ?has_set_ne by exact Hk; auto.
Qed.

Lemma step_type_type i :
  get (js "type") (step_type i) =
  match get (js "type") i with
  | VString s =>
      VString (if str_eqb (toLowerCase s) (js "book") then js "other"
               else toLowerCase s)
  | v => v
  end.
Proof.
  unfold step_type. destruct (get (js "type") i) eqn:E; try exact E.
  rewrite get_set_eq. cbn [is_string].
  destruct (str_eqb (toLowerCase s) (js "book")); rewrite get_set_eq; reflexivity.
Qed.

Lemma step_author_other k i :
  str_eqb k (js "author") = false -> str_eqb k (js "creator") = false ->
  get k (step_author i) = get k i /\ has k (step_author i) = has k i.
Proof.
  intros H1 H2. unfold step_author. destruct (_ && _); auto.
  rewrite get_delete_ne, has_delete_ne, get_set_ne, has_set_ne by assumption.
  auto.
Qed.

Lemma step_author_creator i :
  get (js "creator") (step_author i) = creator_or_author i.
Proof.
  unfold step_author, creator_or_author.
  destruct (has (js "creator") i) eqn:Hc.
  - rewrite andb_false_r. reflexivity.
  - rewrite andb_true_r. destruct (has (js "author") i) eqn:Ha.
    + rewrite get_delete_ne by reflexivity. apply get_set_eq.
    + assert (get (js "creator") i = VUndefined) as ->.
      { destruct (get (js "creator") i) eqn:E; try reflexivity;
          assert (has (js "creator") i = true) as H
            by (apply get_has; congruence); congruence. }
      destruct (get (js "author") i) eqn:E; try reflexivity;
        assert (has (js "author") i = true) as H
          by (apply get_has; congruence); congruence.
Qed.

Lemma step_year_other k i :
  str_eqb k (js "year") = false ->
  get k (step_year i) = get k i /\ has k (step_year i) = has k i.
Proof.
  intros Hk. unfold step_year. destruct (get (js "year") i); auto.
  destruct (parseInt _ _); rewrite get_set_ne, has_set_ne by exact Hk; auto.
Qed.

Lemma step_year_year i :
  optional_number (get (js "year") (step_year i))
  = number_or_numeral (get (js "year") i).
Proof.
  unfold step_year. destruct (get (js "year") i) eqn:E; rewrite ?E; try reflexivity.
  cbn [number_or_numeral].
  destruct (parseInt s None); rewrite get_set_eq; reflexivity.
Qed.

Lemma ItemTypeSchema_other : ItemTypeSchema (VString (js "other")) = Some other.
Proof. reflexivity. Qed.

Lemma LLMItemSchema_coerceItem v :
  LLMItemSchema (coerceItem v) = tolerantItemSchema v.
Proof.
  destruct v as [| | | | |l|i]; try reflexivity.
  rewrite coerceItem_steps. unfold LLMItemSchema, tolerantItemSchema.
  destruct (step_year_other (js "title") (step_author (step_type i)) eq_refl)
    as [-> _].
  destruct (step_author_other (js "title") (step_type i) eq_refl eq_refl)
    as [-> _].
  destruct (step_type_other (js "title") i eq_refl) as [-> _].
  destruct (step_year_other (js "creator") (step_author (step_type i)) eq_refl)
    as [-> _].
  rewrite step_author_creator.
  assert (creator_or_author (step_type i) = creator_or_author i) as ->.
  { unfold creator_or_author.
    destruct (step_type_other (js "creator") i eq_refl) as [-> ->].
    destruct (step_type_other (js "author") i eq_refl) as [-> _].
    reflexivity. }
  destruct (step_year_other (js "type") (step_author (step_type i)) eq_refl)
    as [-> _].
  destruct (step_author_other (js "type") (step_type i) eq_refl eq_refl)
    as [-> _].
  rewrite step_type_type, step_year_year.
  destruct (step_author_other (js "year") (step_type i) eq_refl eq_refl)
    as [-> _].
  destruct (step_type_other (js "year") i eq_refl) as [-> _].
  assert (ItemTypeSchema
            match get (js "type") i with
            | VString s =>
                VString (if str_eqb (toLowerCase s) (js "book") then js "other"
                         else toLowerCase s)
            | v => v
            end = accepted_type (get (js "type") i)) as ->.
  { destruct (get (js "type") i); try reflexivity. cbn [accepted_type].
    destruct (str_eqb (toLowerCase s) (js "book")); reflexivity. }
  reflexivity.
Qed.

Lemma all_items_coerce items :
  all_items (map coerceItem items) = all_tolerant items.
Proof.
  induction items as [|v items IH]; [reflexivity|].
  cbn [map all_items all_tolerant]. rewrite LLMItemSchema_coerceItem, IH.
  reflexivity.
Qed.

(** X22: validation after [coerceItemTypes] accepts exactly the answers
    whose items have a non-empty string title, a string creator (or, with
    no creator property, a string author), a type among the six names in
    any letter case or book (read as other), and a year that is absent, a
    number, or a string read by [parseInt]; the result carries the values
    so read. *)
Theorem coercion_makes_validation_tolerant (data : value) :
  LLMResponseSchema (coerceItemTypes data) = tolerantResponseSchema data.
Proof.
  destruct data as [| | | | |l|obj]; try reflexivity.
  unfold coerceItemTypes, tolerantResponseSchema.
  destruct (get (js "items") obj) eqn:E;
    try (unfold LLMResponseSchema; rewrite E; reflexivity).
  unfold LLMResponseSchema. rewrite get_set_eq. apply all_items_coerce.
Qed.

(** *** A second coercion changes nothing *)

Lemma step_year_fixed i : step_year (step_year i) = step_year i.
Proof.
  unfold step_year at 2 3. destruct (get (js "year") i) eqn:E;
    try (unfold step_year; rewrite E; reflexivity).
  destruct (parseInt s None); unfold step_year; rewrite get_set_eq; reflexivity.
Qed.

Lemma step_author_fixed i :
  step_author (step_year (step_author i)) = step_year (step_author i).
Proof.
  unfold step_author at 1.
  destruct (step_year_other (js "author") (step_author i) eq_refl) as [_ ->].
  destruct (step_year_other (js "creator") (step_author i) eq_refl) as [_ ->].
  unfold step_author at 1 2.
  destruct (has (js "author") i && negb (has (js "creator") i)) eqn:E.
  - rewrite has_delete_eq. reflexivity.
  - rewrite E. reflexivity.
Qed.

Lemma toLowerCase_other : toLowerCase (js "other") = js "other".
Proof. reflexivity. Qed.

Lemma step_type_fixed i :
  let j := step_year (step_author (step_type i)) in step_type j = j.
Proof.
  intros j. unfold step_type at 1.
  assert (get (js "type") j = get (js "type") (step_type i)) as Hj.
  { unfold j.
    destruct (step_year_other (js "type") (step_author (step_type i)) eq_refl)
      as [-> _].
    destruct (step_author_other (js "type") (step_type i) eq_refl eq_refl)
      as [-> _].
    reflexivity. }
  rewrite Hj, step_type_type.
  destruct (get (js "type") i) eqn:E; try reflexivity.
  assert (toLowerCase (if str_eqb (toLowerCase s) (js "book") then js "other"
                       else toLowerCase s)
          = (if str_eqb (toLowerCase s) (js "book") then js "other"
             else toLowerCase s)) as ->.
  { destruct (str_eqb _ _); [reflexivity|apply toLowerCase_idem]. }
  assert (get (js "type") j
          = VString (if str_eqb (toLowerCase s) (js "book") then js "other"
                     else toLowerCase s)) as Hj'.
  { rewrite Hj, step_type_type, E. reflexivity. }
  rewrite <- Hj', set_get by (apply get_has; rewrite Hj'; discriminate).
  rewrite Hj'. cbn [is_string].
  destruct (str_eqb (toLowerCase s) (js "book")) eqn:Eb; [reflexivity|].
  rewrite Eb. reflexivity.
Qed.

Lemma coerceItem_idem v : coerceItem (coerceItem v) = coerceItem v.
Proof.
  destruct v as [| | | | |l|i]; try reflexivity.
  rewrite !coerceItem_steps. f_equal.
  rewrite (step_type_fixed i), step_author_fixed, step_year_fixed.
  reflexivity.
Qed.

(** X23: [coerceItemTypes] is idempotent. *)
Theorem coerceItemTypes_idempotent (data : value) :
  coerceItemTypes (coerceItemTypes data) = coerceItemTypes data.
Proof.
  destruct data as [| | | | |l|obj]; try reflexivity.
  unfold coerceItemTypes at 2 3.
  destruct (get (js "items") obj) eqn:E;
    try (unfold coerceItemTypes; rewrite E; reflexivity).
  unfold coerceItemTypes. rewrite get_set_eq, set_set, map_map. f_equal.
  f_equal. f_equal. apply map_ext. intros v. apply coerceItem_idem.
Qed.

(** What the coercion is there for. *)
Example coercion_sample :
  coerceAndValidate
    (JObject [(js "items",
               JArray [JObject [(js "title", JString (js "Dune"));
                                (js "author", JString (js "Frank Herbert"));
                                (js "type", JString (js "Book"));
                                (js "year", JString (js "1965"))]])])
  = Some [{| p_title := js "Dune"; p_creator := js "Frank Herbert";
             p_type := other; p_year := Some (inject_Z 1965) |}].
Proof. reflexivity. Qed.

(** A year of [null] does not pass: the field is optional, not nullable. *)
Example null_year_is_rejected :
  coerceAndValidate
    (JObject [(js "items",
               JArray [JObject [(js "title", JString (js "Dune"));
                                (js "creator", JString []);
                                (js "type", JString (js "movie"));
                                (js "year", JNull)]])])
  = None.
Proof. reflexivity. Qed.

End CoercionFacts.

(** ** CSV export *)

Section CsvFacts.

Import CsvExport.

Lemma one_line_app a b : one_line a -> one_line b -> one_line (a ++ b).
Proof. intros Ha Hb. apply Forall_app. auto. Qed.

Lemma one_line_js_comma : one_line (js ",").
Proof. repeat constructor. Qed.

Lemma replaceAll_cons c r x s :
  replaceAll c r (x :: s) = (if ascii_eqb x c then r else [x]) ++ replaceAll c r s.
Proof. reflexivity. Qed.

Lemma replaceAll_LF s : one_line (replaceAll LF (js " ") s).
Proof.
  induction s as [|c s IH]; [constructor|]. rewrite replaceAll_cons.
  destruct (ascii_eqb c LF) eqn:E.
  - constructor; [reflexivity|exact IH].
  - constructor; [exact E|exact IH].
Qed.

Lemma replaceAll_dquote s :
  one_line s -> one_line (replaceAll dquote [dquote; dquote] s).
Proof.
  induction 1 as [|c s Hc _ IH]; [constructor|]. rewrite replaceAll_cons.
  destruct (ascii_eqb c dquote).
  - constructor; [reflexivity|]. constructor; [reflexivity|exact IH].
  - constructor; [exact Hc|exact IH].
Qed.

Lemma escapeCsvField_one_line value : one_line (escapeCsvField value).
Proof.
  destruct value as [v|]; [|constructor]. unfold escapeCsvField.
  pose proof (replaceAll_LF v) as H.
  destruct (_ || _); [|exact H].
  apply one_line_app; [repeat constructor|].
  apply one_line_app; [apply replaceAll_dquote, H|repeat constructor].
Qed.

Lemma join_with_one_line sep l :
  one_line sep -> Forall one_line l -> one_line (join_with sep l).
Proof.
  intros Hs H. induction H as [|x l Hx _ IH]; [constructor|].
  destruct l as [|y l]; [exact Hx|].
  change (join_with sep (x :: y :: l)) with (x ++ sep ++ join_with sep (y :: l)).
  apply one_line_app; [exact Hx|]. apply one_line_app; [exact Hs|exact IH].
Qed.

Lemma split_one_line s : one_line s -> split LF s = [s].
Proof.
  induction 1 as [|c s Hc _ IH]; [reflexivity|]. cbn [split]. rewrite Hc, IH.
  reflexivity.
Qed.

Lemma split_app_LF line rest :
  one_line line -> split LF (line ++ LF :: rest) = line :: split LF rest.
Proof.
  induction 1 as [|c s Hc _ IH].
  - cbn [app split]. rewrite ascii_eqb_refl. reflexivity.
  - cbn [app split]. rewrite Hc, IH. reflexivity.
Qed.

Lemma split_join lines :
  lines <> [] -> Forall one_line lines -> split LF (join_with [LF] lines) = lines.
Proof.
  intros Hne H. induction H as [|x l Hx Hl IH]; [congruence|].
  destruct l as [|y l]; [apply split_one_line, Hx|].
  change (join_with [LF] (x :: y :: l)) with (x ++ LF :: join_with [LF] (y :: l)).
  rewrite (split_app_LF x _ Hx), IH by discriminate. reflexivity.
Qed.

Section Lines.

Variable String : Q -> jsstring.

Lemma fields_one_line item : Forall one_line (fields String item).
Proof. unfold fields. repeat constructor; apply escapeCsvField_one_line. Qed.

(** X24: the CSV text has one line per item after the header line, whatever
    the fields contain: split at line feeds it is the header row followed
    by the joined fields of each item. *)
Theorem csv_one_line_per_item (items : list ScanItemRow) :
  split LF (csv String items)
  = join_with (js ",") headers
      :: map (fun item => join_with (js ",") (fields String item)) items.
Proof.
  unfold csv. apply split_join; [discriminate|].
  constructor.
  - apply join_with_one_line; [apply one_line_js_comma|repeat constructor].
  - apply Forall_forall. intros row Hrow.
    apply list_elem_of_In, in_map_iff in Hrow. destruct Hrow as (item & <- & _).
    apply join_with_one_line; [apply one_line_js_comma|apply fields_one_line].
Qed.

End Lines.

(** *** Escaping loses nothing but the line feeds *)

Lemma replaceAll_dquote_inj a b :
  replaceAll dquote [dquote; dquote] a = replaceAll dquote [dquote; dquote] b ->
  a = b.
Proof.
  revert b. induction a as [|x a IH]; intros [|y b];
    rewrite ?replaceAll_cons.
  - reflexivity.
  - destruct (ascii_eqb y dquote); discriminate.
  - destruct (ascii_eqb x dquote); discriminate.
  - destruct (ascii_eqb x dquote) eqn:Ex, (ascii_eqb y dquote) eqn:Ey;
      cbn [app].
    + apply ascii_eqb_eq in Ex, Ey. subst. intros [= H]. f_equal. auto.
    + intros [= <- H]. rewrite ascii_eqb_refl in Ey. discriminate.
    + intros [= -> H]. rewrite ascii_eqb_refl in Ex. discriminate.
    + intros [= -> H]. f_equal. auto.
Qed.

(** X25: [escapeCsvField] loses nothing but line feeds: two strings with the
    same escaped field are equal once line feeds are replaced by spaces. *)
Theorem escapeCsvField_injective (a b : jsstring) :
  escapeCsvField (Some a) = escapeCsvField (Some b) ->
  replaceAll LF (js " ") a = replaceAll LF (js " ") b.
Proof.
  unfold escapeCsvField.
  remember (replaceAll LF (js " ") a) as x eqn:Hx.
  remember (replaceAll LF (js " ") b) as y eqn:Hy. clear Hx Hy a b.
  destruct (includes x (js ",") || includes x [dquote] || includes x [LF]) eqn:Ea;
    destruct (includes y (js ",") || includes y [dquote] || includes y [LF]) eqn:Eb.
  - intros H. apply app_inv_head in H. apply app_inv_tail in H.
    apply replaceAll_dquote_inj, H.
  - intros H. exfalso.
    apply orb_false_iff in Eb. destruct Eb as [Eb _].
    apply orb_false_iff in Eb. destruct Eb as [_ Eb].
    rewrite <- H in Eb. cbn in Eb. rewrite ascii_eqb_refl in Eb.
    destruct (replaceAll _ _ x ++ _); discriminate.
  - intros H. exfalso.
    apply orb_false_iff in Ea. destruct Ea as [Ea _].
    apply orb_false_iff in Ea. destruct Ea as [_ Ea].
    rewrite H in Ea. cbn in Ea. rewrite ascii_eqb_refl in Ea.
    destruct (replaceAll _ _ y ++ _); discriminate.
  - auto.
Qed.

Lemma escapeCsvField_injective_witness :
  replaceAll LF (js " ") (js "Alien," ++ [LF] ++ js "the director's cut")
  = replaceAll LF (js " ") (js "Alien, the director's cut").
Proof. apply escapeCsvField_injective. reflexivity. Defined.

End CsvFacts.

(** ** Server-sent events *)

Section EventStream.

Import Sse.

Lemma split_payload e rest :
  one_line (fst e) -> one_line (snd e) ->
  split LF (payload (fst e) (snd e) ++ rest) = lines_of e ++ split LF rest.
Proof.
  intros He Hd. unfold payload, lines_of.
  rewrite <- !app_assoc.
  change ([LF] ++ js "data: " ++ snd e ++ [LF; LF] ++ rest)
    with (LF :: (js "data: " ++ snd e) ++ LF :: [] ++ LF :: rest).
  rewrite app_assoc.
  rewrite split_app_LF by (apply one_line_app; [repeat constructor|exact He]).
  rewrite split_app_LF by (apply one_line_app; [repeat constructor|exact Hd]).
  rewrite (split_app_LF [] rest) by constructor.
  reflexivity.
Qed.

Lemma split_chunk batch rest :
  Forall sendable batch ->
  split LF (chunk_of batch ++ rest) = flat_map lines_of batch ++ split LF rest.
Proof.
  induction 1 as [|e batch (He & Hd & _) _ IH]; [reflexivity|].
  unfold chunk_of. cbn [map concat flat_map]. rewrite <- !app_assoc.
  rewrite (split_payload e _ He Hd). f_equal. exact IH.
Qed.

Lemma scan_event e rest currentEvent currentData :
  trim (fst e) <> [] -> trim (snd e) <> [] ->
  scan_lines (lines_of e ++ rest) currentEvent currentData
  = received e :: scan_lines rest [] [].
Proof.
  intros He Hd. unfold lines_of. cbn [app scan_lines].
  change (startsWith (js "event: ") (js "event: " ++ fst e)) with true.
  cbv iota.
  change (startsWith (js "event: ") (js "data: " ++ snd e)) with false.
  change (startsWith (js "data: ") (js "data: " ++ snd e)) with true.
  cbv iota.
  change (skipn 7 (js "event: " ++ fst e)) with (fst e).
  change (skipn 6 (js "data: " ++ snd e)) with (snd e).
  change (startsWith (js "event: ") []) with false.
  change (startsWith (js "data: ") []) with false.
  cbv iota. cbn [is_nil andb].
  unfold received.
  destruct (trim (fst e)) eqn:E1; [congruence|].
  destruct (trim (snd e)) eqn:E2; [congruence|].
  reflexivity.
Qed.

Lemma scan_batch batch currentEvent currentData :
  Forall sendable batch ->
  scan_lines (flat_map lines_of batch) currentEvent currentData
  = map received batch.
Proof.
  intros H. revert currentEvent currentData.
  induction H as [|e batch (_ & _ & He & Hd) _ IH]; intros ce cd;
    [reflexivity|].
  cbn [flat_map map]. rewrite (scan_event e _ ce cd He Hd), IH. reflexivity.
Qed.

Lemma last_app_singleton {A} (l : list A) x d : List.last (l ++ [x]) d = x.
Proof. apply last_last. Qed.

(** X26: events written by [send] (names and JSON texts without line feed
    and not blank), delivered in chunks that hold whole events, are read
    back by [parseSSE] as the same events in order, names and data trimmed. *)
Theorem events_sent_are_events_read (batches : list (list (jsstring * jsstring))) :
  Forall (Forall sendable) batches ->
  parseSSE (map chunk_of batches) [] = map received (concat batches).
Proof.
  induction 1 as [|batch batches Hb _ IH]; [reflexivity|].
  cbn [map parseSSE concat]. cbv zeta. cbn [app].
  pose proof (split_chunk batch [] Hb) as Hs.
  rewrite app_nil_r in Hs. cbn [split] in Hs. rewrite Hs.
  rewrite last_app_singleton, removelast_last.
  rewrite (scan_batch batch [] [] Hb), IH, map_app. reflexivity.
Qed.

Lemma events_sent_are_events_read_witness :
  parseSSE (map chunk_of
              [[(js "created", js "{}"); (js "status", js "{}")];
               [(js "complete", js "{}")]]) []
  = map received
        (concat [[(js "created", js "{}"); (js "status", js "{}")];
                 [(js "complete", js "{}")]]).
Proof.
  apply events_sent_are_events_read.
  repeat constructor; discriminate.
Defined.

(** An event whose two lines arrive in different chunks is not
    yielded: the reader forgets the event name between chunks. *)
Example event_split_between_chunks :
  parseSSE [js "event: status" ++ [LF]; js "data: {}" ++ [LF; LF]] [] = [].
Proof. reflexivity. Qed.

End EventStream.

(** ** Details requests and log levels *)

Section DetailsAndLogs.

(** X27: a failed details request does not undo a match: a matched item
    has a TMDB id, and when the details request for it fails the item has
    no IMDB id, director and runtime (resp. network, seasons and show
    status) and keeps the creator that was read. *)
Theorem details_failure_keeps_match (w : World) (item : LLMIdentifiedItem)
        (e : EnrichedItem) :
  (outcome (enrichMovie w item) = Ok e -> confidence e <> unmatched ->
   exists id, tmdbId e = Some id /\
     (failed (movie_details w id) ->
      imdbId e = None /\ director e = None /\ runtime e = None /\
      creator e = llm_creator item)) /\
  (outcome (enrichTV w item) = Ok e -> confidence e <> unmatched ->
   exists id, tmdbId e = Some id /\
     (failed (tv_details w id) ->
      imdbId e = None /\ network e = None /\ seasons e = None /\
      showStatus e = None /\ creator e = llm_creator item)).
Proof.
  split.
  - unfold enrichMovie. rewrite outcome_bind.
    destruct (outcome (searchTMDBMovies _ _ _)) as [[|c rs]|]; try discriminate.
    { cbn. intros [= <-] H. exfalso. apply H. reflexivity. }
    rewrite outcome_bind. unfold lift at 1. cbn [outcome].
    destruct (scoreLoop _ _ _ _ _ _) as [[[b|] s]|]; try discriminate;
      [|cbn; intros [= <-] H; exfalso; apply H; reflexivity].
    destruct (scoreToConfidence s) eqn:Hc;
      try (cbn; intros [= <-] H; exfalso; apply H; reflexivity);
      (rewrite outcome_bind; unfold getMovieDetails, fetch_soft; cbn [outcome];
       intros [= <-] _; exists (mr_id b); split; [reflexivity|];
       destruct (movie_details w (mr_id b)); cbn; intros Hf;
       [auto|auto|destruct Hf]).
  - unfold enrichTV. rewrite outcome_bind.
    destruct (outcome (searchTV _ _)) as [[|c rs]|]; try discriminate.
    { cbn. intros [= <-] H. exfalso. apply H. reflexivity. }
    rewrite outcome_bind. unfold lift at 1. cbn [outcome].
    destruct (scoreLoop _ _ _ _ _ _) as [[[b|] s]|]; try discriminate;
      [|cbn; intros [= <-] H; exfalso; apply H; reflexivity].
    destruct (scoreToConfidence s) eqn:Hc;
      try (cbn; intros [= <-] H; exfalso; apply H; reflexivity);
      (rewrite outcome_bind; unfold getTVDetails, fetch_soft; cbn [outcome];
       intros [= <-] _; exists (tr_id b); split; [reflexivity|];
       destruct (tv_details w (tr_id b)); cbn; intros Hf;
       [repeat split|repeat split|destruct Hf]).
Qed.

(** ** Log levels *)

Import Logger.

(** X28: nothing is logged when LOG_LEVEL is unset or is not a level name;
    with a level name, a message is logged exactly when its priority is at
    least the configured one, hence every message of higher priority than a
    logged one is logged. *)
Theorem log_levels (LOG_LEVEL : option jsstring) (messageLevel : LogLevel) :
  (LOG_LEVEL = None -> messageLevel <> silent ->
   shouldLog LOG_LEVEL messageLevel = false) /\
  (forall v, LOG_LEVEL = Some v -> level_of (toLowerCase v) = None ->
             messageLevel <> silent ->
             shouldLog LOG_LEVEL messageLevel = false) /\
  (forall v l, LOG_LEVEL = Some v -> level_of (toLowerCase v) = Some l ->
               shouldLog LOG_LEVEL messageLevel
               = (priority l <=? priority messageLevel)) /\
  (forall higher, shouldLog LOG_LEVEL messageLevel = true ->
                  priority messageLevel <= priority higher ->
                  shouldLog LOG_LEVEL higher = true).
Proof.
  split; [|split; [|split]].
  - intros -> H. destruct messageLevel; try reflexivity. congruence.
  - intros v -> Hv H. unfold shouldLog, getConfiguredLevel. rewrite Hv.
    destruct (truthy_str _); [destruct (inherited _)|];
      destruct messageLevel; try reflexivity; congruence.
  - intros v l -> Hv. unfold shouldLog, getConfiguredLevel. rewrite Hv.
    destruct (truthy_str (toLowerCase v)) eqn:E; [reflexivity|].
    destruct (toLowerCase v); [discriminate Hv|discriminate E].
  - intros higher. unfold shouldLog.
    destruct (getConfiguredLevel LOG_LEVEL); [|discriminate].
    intros H1 H2. apply Z.leb_le. apply Z.leb_le in H1. lia.
Qed.

End DetailsAndLogs.

(** ** The single-item edit *)

Section EditRoute.

Section Edit.

Variable resolveTVDBId :
  World -> jsstring -> option jsnum -> option jsstring -> ItemType -> M (option Z).

Variable w : World.

Lemma crossReferenceOne_ok item e :
  made_from item e ->
  exists e', outcome (crossReferenceOne w e) = Ok e' /\ made_from item e'.
Proof.
  intros He. unfold crossReferenceOne. destruct (isPlexConfigured w).
  - rewrite outcome_try_catch, outcome_bind. unfold fetchAllPlexItems.
    cbn [outcome]. destruct (plex_items w) as [plexItems|]; cbn [ret outcome].
    + eexists. split; [reflexivity|]. apply plexMerge_made_from, He.
    + eauto.
  - cbn. eauto.
Qed.

End Edit.

(** X29: the single-item edit answers missing-title without a title,
    not-found without the item, an internal error with no catalog request
    without the TMDB key, and otherwise the updated row: new raw title, new
    raw creator (the old one when none is given), raw type and year
    unchanged, enriched part made from the resubmitted item. *)
Theorem edit_responses
        (resolveTVDBId : World -> jsstring -> option jsnum -> option jsstring ->
                         ItemType -> M (option Z))
        (w : World) (title creator : option jsstring)
        (existing : option ScanItemRow) :
  let answer := editItem resolveTVDBId w title creator existing in
  (truthy_ostr title = false -> answer = ret MissingTitle) /\
  (truthy_ostr title = true -> existing = None -> answer = ret NotFound) /\
  (forall item, truthy_ostr title = true -> existing = Some item ->
     isTMDBConfigured w = false ->
     outcome answer = Ok InternalError /\ trace answer = []) /\
  (forall item, truthy_ostr title = true -> existing = Some item ->
     isTMDBConfigured w = true ->
     exists row,
       outcome answer = Ok (Updated row) /\
       rawTitle row = default [] title /\
       rawCreator row = default (rawCreator item) creator /\
       rawType row = rawType item /\ rawYear row = rawYear item /\
       made_from (resubmitted (default [] title) creator item) (row_item row)).
Proof.
  cbv zeta. unfold editItem. split; [|split; [|split]].
  - intros ->. reflexivity.
  - intros -> ->. reflexivity.
  - intros item -> -> Hkey. cbn [negb].
    unfold enrichItems, getTmdbApiKey. unfold isTMDBConfigured in Hkey.
    rewrite Hkey. split; reflexivity.
  - intros item -> -> Hkey. cbn [negb].
    rewrite outcome_try_catch, outcome_bind.
    fold (resubmitted (default [] title) creator item).
    rewrite (enrichItems_map resolveTVDBId w _ None Hkey).
    cbn [map lookup list_lookup]. rewrite outcome_bind, outcome_bind.
    destruct (crossReferenceOne_ok w _ _
                (enrichedFor_made_from resolveTVDBId w None
                   (resubmitted (default [] title) creator item)))
      as (e' & He' & Hm).
    rewrite He'. cbn [ret outcome].
    eexists. split; [reflexivity|]. cbn. auto.
Qed.

End EditRoute.

(** ** Identifiers of a library item *)

Section GuidParsing.

Import PlexGuids.

Lemma startsWith_app p s : startsWith p s = true <-> exists r, s = p ++ r.
Proof.
  revert s. induction p as [|x p IH]; intros s; cbn.
  - split; eauto.
  - destruct s as [|y s]; [split; [discriminate|intros [r H]; discriminate]|].
    rewrite andb_true_iff, ascii_eqb_eq, IH. split.
    + intros [-> [r ->]]. eauto.
    + intros [r [= -> ->]]. eauto.
Qed.

Lemma lit_miss {A} (w s : jsstring) c
      (k : jsstring -> option jsstring -> option A) :
  startsWith w s = false -> rmatch (seqs (map chr w)) s c k = None.
Proof.
  revert s. induction w as [|x w IH]; intros s; [discriminate|].
  destruct s as [|y s]; [reflexivity|].
  cbn [startsWith map seqs foldr rmatch chr].
  destruct (ascii_eqb x y); [apply IH|reflexivity].
Qed.

Lemma lit_lit {A} (a b s : jsstring) c
      (k : jsstring -> option jsstring -> option A) :
  rmatch (seqs (map chr a)) s c (fun s' c' => rmatch (seqs (map chr b)) s' c' k)
  = rmatch (seqs (map chr (a ++ b))) s c k.
Proof.
  revert s. induction a as [|x a IH]; intros s; [reflexivity|].
  cbn [app map seqs foldr rmatch chr].
  destruct s as [|y s]; [reflexivity|].
  destruct (ascii_eqb x y); [apply IH|reflexivity].
Qed.

Lemma star_m_all {A} p (x tail : jsstring) (k : jsstring -> option A) a :
  Forall (fun c => p c = true) x ->
  match tail with [] => True | c :: _ => p c = false end ->
  k tail = Some a ->
  star_m p (x ++ tail) k = Some a.
Proof.
  intros Hx Ht Hk. induction Hx as [|c x Hc _ IH]; cbn.
  - destruct tail as [|c tail]; cbn; [exact Hk|]. rewrite Ht. exact Hk.
  - rewrite Hc, IH. reflexivity.
Qed.

(** The scheme cannot begin inside an agent name without a colon. *)
Lemma scheme_not_inside (agent rest : jsstring) :
  colon_free agent -> agent <> [] ->
  startsWith (js "imdb://") (agent ++ js "imdb://" ++ rest) = false.
Proof.
  intros Hc Hne. destruct (startsWith _ _) eqn:E; [|reflexivity]. exfalso.
  apply startsWith_app in E. destruct E as [r Hr].
  assert ((agent ++ js "imdb://" ++ rest) !! 4%nat = Some ":"%char) as H4
      by (rewrite Hr; reflexivity).
  destruct agent as [|c1 [|c2 [|c3 [|c4 [|c5 agent]]]]]; try congruence;
    cbn in H4; try discriminate.
  injection H4 as ->.
  do 4 (apply Forall_cons in Hc; destruct Hc as [_ Hc]).
  apply Forall_cons in Hc. destruct Hc as [Hc _]. discriminate.
Qed.

Lemma legacy_miss (agent rest : jsstring) :
  colon_free agent -> agent <> [] ->
  match_here (re_legacy "imdb") (agent ++ js "imdb://" ++ rest) = None.
Proof.
  intros Hc Hne. unfold match_here, re_legacy, lit.
  cbn [seqs foldr rmatch].
  rewrite (lit_lit (js "imdb") (js "://")).
  apply lit_miss. apply scheme_not_inside; assumption.
Qed.

Lemma legacy_hit (x tail : jsstring) :
  x <> [] -> Forall (fun c => not_question c = true) x ->
  match tail with [] => True | c :: _ => not_question c = false end ->
  match_here (re_legacy "imdb") (js "imdb://" ++ x ++ tail)
  = Some (MatchAt [] (Some x) tail).
Proof.
  intros Hne Hx Ht. unfold match_here, re_legacy, lit.
  cbn [seqs foldr rmatch].
  rewrite (lit_lit (js "imdb") (js "://")).
  change (js "imdb" ++ js "://") with (js "imdb://").
  rewrite rmatch_lit_app.
  destruct x as [|c x]; [congruence|].
  apply Forall_cons in Hx. destruct Hx as [Hc Hx].
  cbn [Plus rmatch app]. rewrite Hc.
  apply star_m_all; [exact Hx|exact Ht|].
  cbn [length]. rewrite length_app.
  replace (S (length x + length tail) - length tail)%nat with (S (length x)) by lia.
  change (c :: x ++ tail) with ((c :: x) ++ tail).
  rewrite take_app_length'; reflexivity.
Qed.

Lemma search_skip r (agent s : jsstring) m :
  (forall k, (k < length agent)%nat -> match_here r (drop k agent ++ s) = None) ->
  match_here r s = Some m ->
  search r (agent ++ s)
  = Some (MatchAt (agent ++ m_before m) (m_group1 m) (m_after m)).
Proof.
  intros Hmiss Hhit. induction agent as [|c agent IH].
  - cbn [app]. rewrite (search_here r s m Hhit). destruct m; reflexivity.
  - pose proof (Hmiss 0%nat ltac:(cbn; lia)) as H0. cbn [drop app] in H0.
    cbn [app search]. rewrite H0.
    rewrite IH; [reflexivity|].
    intros k Hk. apply (Hmiss (S k)). cbn. lia.
Qed.

Lemma includes_after (a p s : jsstring) :
  startsWith p s = true -> includes (a ++ s) p = true.
Proof.
  intros H. induction a as [|c a IH]; cbn [app].
  - destruct s; cbn [includes]; rewrite H; reflexivity.
  - cbn [includes]. rewrite IH. apply orb_true_r.
Qed.

Lemma legacy_id_imdb (agent x tail : jsstring) :
  colon_free agent -> x <> [] ->
  Forall (fun c => not_question c = true) x ->
  match tail with [] => True | c :: _ => not_question c = false end ->
  legacy_id "imdb" (agent ++ js "imdb://" ++ x ++ tail) = Some x.
Proof.
  intros Hc Hne Hx Ht. unfold legacy_id.
  erewrite search_skip; [|clear Ht|apply (legacy_hit x tail Hne Hx Ht)];
    [reflexivity|].
  intros k Hk. apply legacy_miss.
  - apply Forall_drop, Hc.
  - intros H. apply (f_equal (@length ascii)) in H.
    rewrite length_drop in H. cbn in H. lia.
Qed.

(** X30: [parseGuids] reads both forms: from a [Guid] array with ids
    imdb://a, tmdb://b and tvdb://c it returns a, b and c; without the
    array, from a legacy [guid] made of an agent name without colon,
    imdb://, an id without question mark and an optional query part, it
    returns that id as the IMDB id. *)
Theorem parseGuids_reads_both_forms (item : list (jsstring * json)) :
  (forall imdb tmdb tvdb,
     field (js "Guid") item
     = Some (JArray [guid_object (js "imdb://" ++ imdb);
                     guid_object (js "tmdb://" ++ tmdb);
                     guid_object (js "tvdb://" ++ tvdb)]) ->
     imdb <> [] ->
     parseGuids item
     = Ok {| g_imdbId := Some imdb; g_tmdbId := Some tmdb;
             g_tvdbId := Some tvdb |}) /\
  (forall agent id tail,
     field (js "Guid") item = None ->
     field (js "guid") item
     = Some (JString (agent ++ js "imdb://" ++ id ++ tail)) ->
     colon_free agent -> id <> [] ->
     Forall (fun c => not_question c = true) id ->
     match tail with [] => True | c :: _ => not_question c = false end ->
     parseGuids item
     = Ok {| g_imdbId := Some id; g_tmdbId := None; g_tvdbId := None |}).
Proof.
  split.
  - intros imdb tmdb tvdb HG Hne. unfold parseGuids. rewrite HG.
    cbn. destruct imdb; [congruence|]. reflexivity.
  - intros agent id tail HG Hg Hc Hne Hid Ht. unfold parseGuids.
    rewrite HG, Hg. cbn [no_guids g_imdbId g_tmdbId truthy_ostr negb andb].
    rewrite (includes_after agent (js "imdb://")) by reflexivity.
    rewrite (legacy_id_imdb agent id tail Hc Hne Hid Ht). reflexivity.
Qed.

(** The sample of the source: a legacy agent guid with a query part. *)
Lemma parseGuids_reads_both_forms_witness :
  parseGuids [(js "guid",
               JString (js "com.plexapp.agents.imdb://tt0103639?lang=en"))]
  = Ok {| g_imdbId := Some (js "tt0103639"); g_tmdbId := None;
          g_tvdbId := None |}.
Proof.
  apply (proj2 (parseGuids_reads_both_forms
                  [(js "guid",
                    JString (js "com.plexapp.agents.imdb://tt0103639?lang=en"))])
               (js "com.plexapp.agents.") (js "tt0103639") (js "?lang=en"));
    try reflexivity.
  - repeat apply List.Forall_cons; try apply List.Forall_nil; reflexivity.
  - discriminate.
  - repeat apply List.Forall_cons; try apply List.Forall_nil; reflexivity.
Defined.

End GuidParsing.

(** ** The title score formula *)

Section TitleScoreMeaning.

Section Meaning.
Context {A : Type}.

Lemma star_m_sem p s (k : jsstring -> option A) :
  is_Some (star_m p s k) <->
  exists a rest, s = a ++ rest /\ Forall (fun c => p c = true) a /\ is_Some (k rest).
Proof.
  induction s as [|c s IH]; cbn [star_m].
  - split.
    + intros H. exists [], []. auto.
    + intros (a & rest & Hs & _ & Hk). symmetry in Hs.
      apply app_eq_nil in Hs. destruct Hs as [_ ->]. exact Hk.
  - destruct (p c) eqn:Hc.
    + destruct (star_m p s k) as [x|] eqn:E.
      * split; [|eauto]. intros _.
        destruct (proj1 IH (ltac:(eauto))) as (a & rest & -> & Ha & Hk).
        exists (c :: a), rest. split; [reflexivity|]. split; [|exact Hk].
        constructor; assumption.
      * split.
        -- intros Hk. exists [], (c :: s). auto.
        -- intros (a & rest & Hs & Ha & Hk). destruct a as [|x a].
           ++ cbn in Hs. subst rest. exact Hk.
           ++ cbn in Hs. injection Hs as <- ->. apply List.Forall_inv_tail in Ha.
              assert (is_Some (@None A)) as H by (apply IH; eauto).
              destruct H as [x0 Hx0]. discriminate.
    + split.
      * intros Hk. exists [], (c :: s). auto.
      * intros (a & rest & Hs & Ha & Hk). destruct a as [|x a].
        -- cbn in Hs. subst rest. exact Hk.
        -- cbn in Hs. injection Hs as <- ->. apply List.Forall_inv in Ha.
           congruence.
Qed.

Lemma lazy_m_sem p s (k : jsstring -> option A) :
  is_Some (lazy_m p s k) <->
  exists a rest, s = a ++ rest /\ Forall (fun c => p c = true) a /\ is_Some (k rest).
Proof.
  induction s as [|c s IH]; cbn [lazy_m].
  - destruct (k []) as [x|] eqn:E.
    + split; [|eauto]. intros _. exists [], []. rewrite E. eauto.
    + split; [intros [x0 Hx0]; discriminate|].
      intros (a & rest & Hs & _ & Hk). symmetry in Hs.
      apply app_eq_nil in Hs. destruct Hs as [_ ->]. rewrite E in Hk. exact Hk.
  - destruct (k (c :: s)) as [x|] eqn:E.
    + split; [|eauto]. intros _. exists [], (c :: s). rewrite E. eauto.
    + destruct (p c) eqn:Hc.
      * rewrite IH. split.
        -- intros (a & rest & -> & Ha & Hk). exists (c :: a), rest.
           split; [reflexivity|]. split; [constructor; assumption|exact Hk].
        -- intros (a & rest & Hs & Ha & Hk). destruct a as [|x a].
           ++ cbn in Hs. subst rest. rewrite E in Hk. destruct Hk as [x0 Hk].
              discriminate.
           ++ cbn in Hs. injection Hs as <- ->. apply List.Forall_inv_tail in Ha.
              eauto.
      * split; [intros [x0 Hx0]; discriminate|].
        intros (a & rest & Hs & Ha & Hk). destruct a as [|x a].
        -- cbn in Hs. subst rest. rewrite E in Hk. exact Hk.
        -- cbn in Hs. injection Hs as <- ->. apply List.Forall_inv in Ha.
           congruence.
Qed.

(** The matcher succeeds exactly when the pattern matches up to a
    remainder that the continuation accepts. *)
Lemma rmatch_sem r :
  forall s c (k : jsstring -> option jsstring -> option A),
    (forall s' c', is_Some (k s' c') <-> is_Some (k s' None)) ->
    is_Some (rmatch r s c k) <->
    exists rest, sem r s rest /\ is_Some (k rest None).
Proof.
  induction r as [| |p|r1 IH1 r2 IH2|r1 IH1 r2 IH2|p|p| |r IH];
    intros s c k Hk; cbn [rmatch sem].
  - rewrite Hk. split; [eauto|]. intros (rest & -> & H). exact H.
  - split; [intros [x0 Hx0]; discriminate|]. intros (rest & [] & _).
  - destruct s as [|x s].
    + split; [intros [x0 Hx0]; discriminate|].
      intros (rest & (c0 & H & _) & _). discriminate.
    + destruct (p x) eqn:Hp.
      * rewrite Hk. split; [eauto|].
        intros (rest & (c0 & Heq & _) & Hr). injection Heq as <- <-. exact Hr.
      * split; [intros [x0 Hx0]; discriminate|].
        intros (rest & (c0 & Heq & Hp') & _). injection Heq as <- <-. congruence.
  - assert (forall s' c', is_Some (rmatch r2 s' c' k)
                          <-> is_Some (rmatch r2 s' None k)) as Hk2.
    { intros s' c'. rewrite !IH2 by exact Hk. reflexivity. }
    rewrite (IH1 s c _ Hk2). split.
    + intros (mid & H1 & H2). apply (IH2 _ _ _ Hk) in H2.
      destruct H2 as (rest & H2 & H3). eauto.
    + intros (rest & (mid & H1 & H2) & H3). exists mid. split; [exact H1|].
      apply (IH2 _ _ _ Hk). eauto.
  - destruct (rmatch r1 s c k) as [x|] eqn:E.
    + split; [|eauto]. intros _.
      destruct (proj1 (IH1 s c k Hk) (ltac:(rewrite E; eauto)))
        as (rest & H1 & H2). eauto.
    + rewrite (IH2 s c k Hk). split.
      * intros (rest & H1 & H2). eauto.
      * intros (rest & [H1|H1] & H2); [|eauto].
        assert (is_Some (rmatch r1 s c k)) as H by (apply (IH1 s c k Hk); eauto).
        rewrite E in H. destruct H as [x0 Hx0]. discriminate.
  - rewrite star_m_sem. split.
    + intros (a & rest & -> & Ha & H). apply Hk in H. eauto.
    + intros (rest & (a & -> & Ha) & H). exists a, rest.
      split; [reflexivity|]. split; [exact Ha|]. apply Hk, H.
  - rewrite lazy_m_sem. split.
    + intros (a & rest & -> & Ha & H). apply Hk in H. eauto.
    + intros (rest & (a & -> & Ha) & H). exists a, rest.
      split; [reflexivity|]. split; [exact Ha|]. apply Hk, H.
  - destruct s as [|x s].
    + rewrite Hk. split; [eauto|]. intros (rest & [_ ->] & H). exact H.
    + split; [intros [x0 Hx0]; discriminate|].
      intros (rest & [H _] & _). discriminate.
  - rewrite IH.
    + split; intros (rest & H1 & H2); exists rest; (split; [exact H1|]);
        apply Hk in H2; apply Hk; exact H2.
    + intros s' c'. rewrite !Hk. reflexivity.
Qed.

End Meaning.

Lemma match_here_sem r s :
  is_Some (match_here r s) <-> exists rest, sem r s rest.
Proof.
  unfold match_here. rewrite rmatch_sem.
  - split.
    + intros (rest & H & _). eauto.
    + intros (rest & H). exists rest. split; eauto.
  - intros s' c'. split; eauto.
Qed.

Lemma sem_suffix r s rest : sem r s rest -> exists a, s = a ++ rest.
Proof.
  revert s rest. induction r as [| |p|r1 IH1 r2 IH2|r1 IH1 r2 IH2|p|p| |r IH];
    intros s rest; cbn [sem].
  - intros ->. exists []. reflexivity.
  - intros [].
  - intros (c & -> & _). exists [c]. reflexivity.
  - intros (mid & H1 & H2). apply IH1 in H1. apply IH2 in H2.
    destruct H1 as (a & ->), H2 as (b & ->). exists (a ++ b).
    apply app_assoc.
  - intros [H|H]; eauto.
  - intros (a & -> & _). eauto.
  - intros (a & -> & _). eauto.
  - intros [-> ->]. exists []. reflexivity.
  - apply IH.
Qed.

(** Without the anchor, what a pattern matches does not depend on what
    follows. *)
Lemma sem_lang_of r :
  eol_free r = true ->
  forall s rest, sem r s rest <-> exists a, s = a ++ rest /\ lang_of r a.
Proof.
  induction r as [| |p|r1 IH1 r2 IH2|r1 IH1 r2 IH2|p|p| |r IH];
    cbn [eol_free]; intros Hr s rest; cbn [sem lang_of].
  - split.
    + intros ->. exists []. split; reflexivity.
    + intros (a & -> & ->). reflexivity.
  - split; [intros []|intros (a & _ & [])].
  - split.
    + intros (c & -> & Hc). exists [c]. split; [reflexivity|]. exists c. auto.
    + intros (a & -> & c & -> & Hc). exists c. auto.
  - apply andb_true_iff in Hr. destruct Hr as [H1 H2]. split.
    + intros (mid & Ha & Hb). apply (IH1 H1) in Ha. apply (IH2 H2) in Hb.
      destruct Ha as (a & -> & Ha), Hb as (b & -> & Hb).
      exists (a ++ b). split; [apply app_assoc|]. exists a, b. auto.
    + intros (x & -> & a & b & -> & Ha & Hb). exists (b ++ rest). split.
      * apply (IH1 H1). exists a. split; [symmetry; apply app_assoc|exact Ha].
      * apply (IH2 H2). eauto.
  - apply andb_true_iff in Hr. destruct Hr as [H1 H2].
    rewrite (IH1 H1), (IH2 H2). unfold l_alt. split.
    + intros [(a & -> & H)|(a & -> & H)]; eauto.
    + intros (a & -> & [H|H]); eauto.
  - split; intros (a & -> & H); eauto.
  - split; intros (a & -> & H); eauto.
  - discriminate.
  - apply (IH Hr).
Qed.

(** A pattern that ends with the anchor matches whole strings only. *)
Lemma sem_anchored_seqs rs s rest :
  forallb eol_free rs = true ->
  sem (seqs (rs ++ [Eol])) s rest <-> rest = [] /\ lang_of (seqs rs) s.
Proof.
  revert s. induction rs as [|r rs IH]; intros s Hrs.
  - cbn. split.
    + intros (mid & [-> ->] & ->). split; reflexivity.
    + intros [-> ->]. exists []. auto.
  - cbn [forallb] in Hrs. apply andb_true_iff in Hrs. destruct Hrs as [Hr Hrs].
    change (seqs ((r :: rs) ++ [Eol])) with (Seq r (seqs (rs ++ [Eol]))).
    change (seqs (r :: rs)) with (Seq r (seqs rs)).
    cbn [sem lang_of]. split.
    + intros (mid & Ha & Hb). apply (sem_lang_of r Hr) in Ha.
      apply (IH mid Hrs) in Hb. destruct Ha as (a & -> & Ha), Hb as [-> Hb].
      split; [reflexivity|]. exists a, mid. auto.
    + intros [-> (a & b & -> & Ha & Hb)]. exists b. split.
      * apply (sem_lang_of r Hr). eauto.
      * apply (IH b Hrs). auto.
Qed.

Lemma match_here_anchored rs s :
  forallb eol_free rs = true ->
  is_Some (match_here (seqs (rs ++ [Eol])) s) <-> lang_of (seqs rs) s.
Proof.
  intros Hrs. rewrite match_here_sem. split.
  - intros (rest & H). apply (sem_anchored_seqs rs s rest Hrs) in H. apply H.
  - intros H. exists []. apply (sem_anchored_seqs rs s [] Hrs). auto.
Qed.

(** *** Removal of the first match is the cut of the longest suffix *)

Lemma cut_spec_iff (D D' : language) s p :
  (forall t, D t <-> D' t) -> cut_spec D s p -> cut_spec D' s p.
Proof.
  intros HD [(t & Hs & Ht & Hmax)|[Hno Hp]].
  - left. exists t. split; [exact Hs|]. split; [apply HD, Ht|].
    intros p' t' Hs' Ht'. apply (Hmax p' t' Hs'). apply HD, Ht'.
  - right. split; [|exact Hp]. intros p' t' Hs' Ht'.
    apply (Hno p' t' Hs'). apply HD, Ht'.
Qed.



Lemma remove_first_cons r x s :
  match_here r (x :: s) = None ->
  remove_first r (x :: s) = x :: remove_first r s.
Proof.
  intros H. unfold remove_first. cbn [search]. rewrite H.
  destruct (search r s) as [m|]; reflexivity.
Qed.

Lemma remove_first_here r s m :
  match_here r s = Some m -> remove_first r s = m_before m ++ m_after m.
Proof.
  intros H. unfold remove_first. rewrite (search_here r s m H). reflexivity.
Qed.

Lemma remove_first_cut rs s :
  forallb eol_free rs = true ->
  anchored (seqs (rs ++ [Eol])) = true ->
  cut_spec (lang_of (seqs rs)) s (remove_first (seqs (rs ++ [Eol])) s).
Proof.
  intros Hrs Hanch. set (r := seqs (rs ++ [Eol])).
  assert (forall s m, match_here r s = Some m -> remove_first r s = []) as Hhere.
  { intros s0 m Hm. rewrite (remove_first_here r s0 m Hm).
    destruct (search_anchored r s0 m Hanch (search_here r s0 m Hm))
      as (-> & n & Hb).
    unfold match_here in Hm.
    assert (m_before m = []) as ->; [|reflexivity].
    clear Hb. revert Hm. generalize (@None jsstring).
    intros c Hm. apply rmatch_suffix in Hm.
    destruct Hm as (s' & c' & [= <-] & _). reflexivity. }
  induction s as [|x s IH].
  - destruct (match_here r []) as [m|] eqn:E.
    + rewrite (Hhere [] m E). left. exists []. split; [reflexivity|].
      split; [apply (match_here_anchored rs [] Hrs); fold r; rewrite E; eauto|].
      intros p' t' Hs _. symmetry in Hs. apply app_eq_nil in Hs.
      destruct Hs as [_ ->]. reflexivity.
    + rewrite remove_first_none by (cbn [search]; rewrite E; reflexivity).
      right. split; [|reflexivity]. intros p' t' Hs Ht. symmetry in Hs.
      apply app_eq_nil in Hs. destruct Hs as [_ ->].
      apply (match_here_anchored rs [] Hrs) in Ht. fold r in Ht.
      rewrite E in Ht. destruct Ht as [x0 Hx0]. discriminate.
  - destruct (match_here r (x :: s)) as [m|] eqn:E.
    + rewrite (Hhere _ m E). left. exists (x :: s). split; [reflexivity|].
      split; [apply (match_here_anchored rs _ Hrs); fold r; rewrite E; eauto|].
      intros p' t' Hs _. apply (f_equal (@length ascii)) in Hs.
      rewrite length_app in Hs. lia.
    + rewrite (remove_first_cons r x s E).
      assert (~ lang_of (seqs rs) (x :: s)) as Hx.
      { intros Ht. apply (match_here_anchored rs _ Hrs) in Ht. fold r in Ht.
        rewrite E in Ht. destruct Ht as [x0 Hx0]. discriminate. }
      destruct IH as [(t & Hs & Ht & Hmax)|[Hno Hp]].
      * left. exists t. split; [rewrite Hs at 1; reflexivity|].
        split; [exact Ht|]. intros p' t' Hs' Ht'.
        destruct p' as [|y p'].
        -- cbn in Hs'. subst t'. destruct (Hx Ht').
        -- cbn in Hs'. injection Hs' as _ Hs'. eapply Hmax; eauto.
      * right. rewrite Hp. split; [|reflexivity]. intros p' t' Hs' Ht'.
        destruct p' as [|y p'].
        -- cbn in Hs'. subst t'. destruct (Hx Ht').
        -- cbn in Hs'. injection Hs' as _ Hs'. eapply Hno; eauto.
Qed.

Lemma l_cat_equiv (A A' B B' : language) :
  (forall s, A s <-> A' s) -> (forall s, B s <-> B' s) ->
  forall s, l_cat A B s <-> l_cat A' B' s.
Proof.
  intros HA HB s. unfold l_cat.
  split; intros (a & b & -> & Ha & Hb); exists a, b;
    (split; [reflexivity|]); split; (apply HA || apply HB); assumption.
Qed.

Lemma l_alt_equiv (A A' B B' : language) :
  (forall s, A s <-> A' s) -> (forall s, B s <-> B' s) ->
  forall s, l_alt A B s <-> l_alt A' B' s.
Proof. intros HA HB s. unfold l_alt. rewrite HA, HB. reflexivity. Qed.

Lemma lang_of_chr c s : lang_of (chr c) s <-> l_char c s.
Proof.
  cbn. unfold l_one, l_char. split.
  - intros (x & -> & H). apply ascii_eqb_eq in H. subst. reflexivity.
  - intros ->. exists c. split; [reflexivity|apply ascii_eqb_refl].
Qed.

Lemma lang_of_chr_i l s :
  lang_of (seqs (map chr_i l)) s <-> toLowerCase s = toLowerCase l.
Proof.
  revert s. induction l as [|x l IH]; intros s.
  - cbn. unfold l_eps. destruct s; cbn; split; congruence.
  - change (seqs (map chr_i (x :: l))) with (Seq (chr_i x) (seqs (map chr_i l))).
    cbn [lang_of chr_i]. unfold l_cat, l_one. split.
    + intros (a & b & -> & (c & -> & Hc) & Hb). apply IH in Hb.
      apply ascii_eqb_eq in Hc. cbn. rewrite Hc. f_equal. exact Hb.
    + destruct s as [|c s]; [discriminate|]. cbn. intros [= Hc Hs].
      exists [c], s. split; [reflexivity|]. split.
      * exists c. split; [reflexivity|]. rewrite Hc. apply ascii_eqb_refl.
      * apply IH, Hs.
Qed.

Lemma lang_of_lit_i w :
  toLowerCase (js w) = js w -> forall s, lang_of (lit_i w) s <-> l_word w s.
Proof.
  intros Hw s. unfold lit_i, l_word. rewrite lang_of_chr_i, Hw. reflexivity.
Qed.

Lemma lang_of_sep s : lang_of sep s <-> separator s.
Proof.
  cbn. unfold l_one, separator, l_alt, l_char. split.
  - intros (c & -> & H). apply orb_true_iff in H.
    destruct H as [H|H]; apply ascii_eqb_eq in H; subst; auto.
  - intros [->| ->]; eexists; split; reflexivity.
Qed.

(** The six patterns of [stripSeasonSuffix], without their anchor, match
    the six decorations. *)
Lemma decoration_languages :
  (forall s,
      lang_of (seqs [sp_star; chr "(";
                     alts [lit_i "season"; lit_i "series"; lit_i "s"];
                     sp_star; dg_plus; chr ")"; sp_star]) s
      <-> decoration_paren s) /\
  (forall s,
      lang_of (seqs [sp_star; sep; sp_star;
                     Opt (seqs [lit_i "the"; sp_plus]);
                     Opt (seqs [lit_i "complete"; sp_plus]);
                     alts [lit_i "season"; lit_i "series"]; sp_plus;
                     number_or_ordinal; sp_star]) s
      <-> decoration_sep_season s) /\
  (forall s,
      lang_of (seqs [sp_plus;
                     Opt (seqs [lit_i "the"; sp_plus]);
                     Opt (seqs [lit_i "complete"; sp_plus]);
                     alts [lit_i "season"; lit_i "series"]; sp_plus;
                     number_or_ordinal; sp_star]) s
      <-> decoration_bare_season s) /\
  (forall s,
      lang_of (seqs [sp_star; sep; sp_star; lit_i "s"; dg_plus; sp_star]) s
      <-> decoration_short s) /\
  (forall s,
      lang_of (seqs [sp_star; sep; sp_star; Opt (seqs [lit_i "the"; sp_plus]);
                     lit_i "complete"; sp_plus; lit_i "series"; sp_star]) s
      <-> decoration_complete_series s) /\
  (forall s,
      lang_of (seqs [sp_star; sep; sp_star; Opt (seqs [lit_i "the"; sp_plus]);
                     lit_i "complete"; sp_plus;
                     Alt ordinal
                         (seqs [dg_plus;
                                Opt (alts [lit_i "st"; lit_i "nd"; lit_i "rd";
                                           lit_i "th"])]);
                     sp_plus; lit_i "season"; sp_star]) s
      <-> decoration_complete_nth s).
Proof.
  unfold decoration_paren, decoration_sep_season, decoration_bare_season,
    decoration_short, decoration_complete_series, decoration_complete_nth,
    optional_the, optional_complete, season_or_series, which_season,
    ordinal_word, spaces, spaces1, number, l_seq, l_any, l_opt, l_some.
  unfold number_or_ordinal, ordinal, sp_star, sp_plus, dg_plus, Opt, Plus.
  cbn [lang_of seqs alts foldr map].
  split; [|split; [|split; [|split; [|split]]]];
    repeat first
      [ apply l_cat_equiv
      | apply l_alt_equiv
      | apply lang_of_sep
      | apply lang_of_chr
      | (apply lang_of_lit_i; reflexivity)
      | (intros ?; reflexivity) ].
Qed.

(** *** The suffix stripper cuts the decorations *)

Lemma stripSeasonSuffix_meets_spec s :
  suffix_stripped_spec s (stripSeasonSuffix s).
Proof.
  destruct decoration_languages as (H1 & H2 & H3 & H4 & H5 & H6).
  exists (strip_all seasonPatterns s). split; [|apply stripSeasonSuffix_fold].
  unfold decorations, seasonPatterns, strip_all. cbn [cut_all_spec fold_left].
  eexists. split.
  { eapply cut_spec_iff; [apply H1|].
    apply (remove_first_cut
             [sp_star; chr "("; alts [lit_i "season"; lit_i "series"; lit_i "s"];
              sp_star; dg_plus; chr ")"; sp_star]); reflexivity. }
  eexists. split.
  { eapply cut_spec_iff; [apply H2|].
    apply (remove_first_cut
             [sp_star; sep; sp_star;
              Opt (seqs [lit_i "the"; sp_plus]);
              Opt (seqs [lit_i "complete"; sp_plus]);
              alts [lit_i "season"; lit_i "series"]; sp_plus;
              number_or_ordinal; sp_star]); reflexivity. }
  eexists. split.
  { eapply cut_spec_iff; [apply H3|].
    apply (remove_first_cut
             [sp_plus;
              Opt (seqs [lit_i "the"; sp_plus]);
              Opt (seqs [lit_i "complete"; sp_plus]);
              alts [lit_i "season"; lit_i "series"]; sp_plus;
              number_or_ordinal; sp_star]); reflexivity. }
  eexists. split.
  { eapply cut_spec_iff; [apply H4|].
    apply (remove_first_cut
             [sp_star; sep; sp_star; lit_i "s"; dg_plus; sp_star]); reflexivity. }
  eexists. split.
  { eapply cut_spec_iff; [apply H5|].
    apply (remove_first_cut
             [sp_star; sep; sp_star; Opt (seqs [lit_i "the"; sp_plus]);
              lit_i "complete"; sp_plus; lit_i "series"; sp_star]); reflexivity. }
  eexists. split.
  { eapply cut_spec_iff; [apply H6|].
    apply (remove_first_cut
             [sp_star; sep; sp_star; Opt (seqs [lit_i "the"; sp_plus]);
              lit_i "complete"; sp_plus;
              Alt ordinal
                  (seqs [dg_plus;
                         Opt (alts [lit_i "st"; lit_i "nd"; lit_i "rd";
                                    lit_i "th"])]);
              sp_plus; lit_i "season"; sp_star]); reflexivity. }
  reflexivity.
Qed.


(** *** The article stripper *)

Section Articles.
Context {A : Type}.


End Articles.




Section Formula.
Local Open Scope Q_scope.

Lemma normalizedSimilarity_meets_spec a b :
  normalizedSimilarity a b = similarity_spec a b.
Proof.
  unfold normalizedSimilarity, similarity_spec.
  rewrite levenshtein_edit_distance.
  destruct a as [|x a], b as [|y b]; reflexivity.
Qed.


End Formula.



(** Scenario A of the specification: the decoration is cut, the stripped
    variant beats the raw one and the match is [high]. *)
Example breaking_bad_season_1 :
  suffix_stripped_spec (js "Breaking Bad - Season 1") (js "Breaking Bad") /\
  (similarity_spec (normalized_spec (js "Breaking Bad - Season 1"))
                   (normalized_spec (js "Breaking Bad"))
   < similarity_spec (normalized_spec (js "Breaking Bad"))
                     (normalized_spec (js "Breaking Bad")))%Q /\
  scoreToConfidence
    (titleScore_spec (js "Breaking Bad - Season 1") (js "Breaking Bad")
                     (js "Breaking Bad") (Some 2008%Z) (Some 2008%Z)) = high.
Proof.
  split; [|split].
  - replace (js "Breaking Bad")
      with (stripSeasonSuffix (js "Breaking Bad - Season 1"))
      by (vm_compute; reflexivity).
    apply stripSeasonSuffix_meets_spec.
  - rewrite <- !normalizedSimilarity_meets_spec. vm_compute. reflexivity.
  - unfold titleScore_spec. rewrite <- !normalizedSimilarity_meets_spec.
    vm_compute. reflexivity.
Qed.

(** The decoration matters: the raw variant of scenario A scores 12/23,
    and the score is 1 through the stripped variant. *)
Example stripping_matters :
  (similarity_spec (normalized_spec (js "Breaking Bad - Season 1"))
                   (normalized_spec (js "Breaking Bad")) == 12 # 23)%Q /\
  (computeTitleScore (js "Breaking Bad - Season 1") (js "Breaking Bad") == 1)%Q.
Proof.
  split.
  - rewrite <- normalizedSimilarity_meets_spec. vm_compute. reflexivity.
  - vm_compute. reflexivity.
Qed.

End TitleScoreMeaning.
